(** * A shallow embedding of the stereogram renderer (js/stereogram.js)

    The renderer draws a single image stereogram strip by strip: a flat
    reference strip on the left, then sub-strips that each read the
    stereogram texture one strip-width to their left, shifted by the depth
    map, and are copied back into that texture before the next one is drawn.

    Modelling conventions.
    - Configuration numbers handed to the setters are integers ([Z]).
      The rendering (quad and texture coordinates, uniforms, [strip_size]
      as the shaders read it) is on exact rationals ([Q]): GLSL highp
      floats and the doubles that feed them are idealised there, no
      rounding error is modelled.
    - JavaScript numbers are binary64 doubles.  Module [Binary64] has
      [_calc_strip_size] and the arguments of the copies on doubles, with
      the Standard Library's specification of IEEE 754 arithmetic
      ([SpecFloat]).  The statements about the strip geometry are made on
      it; lemmas say where the calculation on integers and exact
      rationals agrees with it (every number below [2^52] in magnitude:
      [_calc_strip_size_binary64]) and where it does not (from [2^53] on:
      [align_loop_stalls]; the copy rectangles at 800 pixels:
      [copy_rectangles_800]).
    - A field that the source can read while it is still unset is an
      [option] ([None] is JavaScript's [undefined]).
    - The WebGL context is an explicit state ([GL]) threaded through the
      methods that use [this.gl]: a texture store, a framebuffer and the
      list of calls made so far.
    - The Three.js variant of the renderer (stereo_three.js) has the same
      methods with the same arithmetic; the embedding follows the plain
      WebGL file. *)

From Stdlib Require Import ZArith QArith Qround Qpower Qminmax Lia Lqa List String.
From Stdlib Require Import Floats.SpecFloat.
From stdpp Require Import gmap.
Import ListNotations.

Local Open Scope Z_scope.

(** ** JavaScript values and numbers *)

(** Values a caller can pass where the source compares with [==].  A
    string comes with the number [ToNumber] makes of it and an object with
    the primitive [ToPrimitive] makes of it; both conversions are taken
    to succeed. *)
Inductive jsval : Type :=
  | VUndefined
  | VNull
  | VBool (b : bool)
  | VNum (n : Q)
  | VNaN
  | VInfinity (negative : bool)
  | VStr (s : string) (to_number : option Q)   (* None: NaN or an infinity *)
  | VObject (to_primitive : jsval).

(** [v == n] for a finite number [n] (abstract equality comparison). *)
Fixpoint loose_eq_number (v : jsval) (n : Q) : bool :=
  match v with
  | VUndefined | VNull | VNaN | VInfinity _ => false
  | VBool b => Qeq_bool (if b then 1 else 0) n
  | VNum m => Qeq_bool m n
  | VStr _ (Some m) => Qeq_bool m n
  | VStr _ None => false
  | VObject p => loose_eq_number p n
  end.

(** [v || d] on an integer field: [0] is falsy, every other integer is
    truthy (negative ones included). *)
Definition js_or (v d : Z) : Z := if v =? 0 then d else v.

(** [v || d] on a field that may be unset. *)
Definition js_or_field (v : option Z) (d : Z) : Z :=
  match v with
  | Some n => js_or n d
  | None => d
  end.

(** [a % b != 0] on integers.  JavaScript's [%] truncates like [Z.rem];
    [a % 0] is [NaN], which is different from [0]. *)
Definition js_rem_nonzero (a b : Z) : bool :=
  if b =? 0 then true else negb (Z.rem a b =? 0).

(** [Math.ceil(a / b)] and [Math.floor(q)]. *)
Definition Math_ceil (q : Q) : Z := Qceiling q.
Definition Math_floor (q : Q) : Z := Qfloor q.

Definition Qltb (a b : Q) : bool := negb (Qle_bool b a).

(** ** The WebGL context *)

(** A texel or framebuffer pixel: RGB, one unsigned byte per channel. *)
Record Color : Type := RGB { red : Z; green : Z; blue : Z }.

Definition black : Color := RGB 0 0 0.

(** A shader-side colour: the rgb part of a [vec4]. *)
Record vec3 : Type := Vec3 { vr : Q; vg : Q; vb : Q }.

Definition texid := nat.

Record Texture : Type := mkTexture {
  tex_width : Z;
  tex_height : Z;
  tex_repeat : bool;            (* TEXTURE_WRAP_S/T: REPEAT or CLAMP_TO_EDGE *)
  texel : Z -> Z -> Color       (* column, row *)
}.

Inductive shader_kind : Type :=
  | NoiseShader
  | TextureShader
  | StereoShader.

(** The calls that change what is on screen or in a texture. *)
Inductive gl_call : Type :=
  | Clear
  | DrawArrays (prog : shader_kind) (x0 x1 : Q)
  | CopyTexSubImage2D (tex : option texid) (xoffset yoffset x y width height : Z)
  | CreateTexture (id : texid) (width height : Z)
  | DeleteTexture (id : texid).

Record GL : Type := mkGL {
  gl_textures : gmap texid Texture;
  gl_next_texture : texid;
  gl_width : Z;                         (* drawing buffer and viewport size *)
  gl_height : Z;
  gl_framebuffer : Z -> Z -> Color;     (* column, row *)
  gl_sin : Q -> Q;                      (* the implementation's GLSL sin *)
  gl_calls : list gl_call               (* oldest first *)
}.

Definition gl_log (c : gl_call) (gl : GL) : GL :=
  mkGL (gl_textures gl) (gl_next_texture gl) (gl_width gl) (gl_height gl)
       (gl_framebuffer gl) (gl_sin gl) (gl_calls gl ++ [c]).

Definition gl_set_textures (m : gmap texid Texture) (gl : GL) : GL :=
  mkGL m (gl_next_texture gl) (gl_width gl) (gl_height gl)
       (gl_framebuffer gl) (gl_sin gl) (gl_calls gl).

Definition gl_set_framebuffer (fb : Z -> Z -> Color) (gl : GL) : GL :=
  mkGL (gl_textures gl) (gl_next_texture gl) (gl_width gl) (gl_height gl)
       fb (gl_sin gl) (gl_calls gl).

(** [Stereogram.Util.create_texture]: a fresh RGB texture of the given
    size, LINEAR filters, CLAMP_TO_EDGE; [texImage2D] with [null] data
    leaves every texel zero. *)
Definition create_texture (gl : GL) (width height : Z) : texid * GL :=
  let id := gl_next_texture gl in
  let t := mkTexture width height false (fun _ _ => black) in
  (id,
   gl_log (CreateTexture id width height)
     (mkGL (<[id := t]> (gl_textures gl)) (S id) (gl_width gl) (gl_height gl)
           (gl_framebuffer gl) (gl_sin gl) (gl_calls gl))).

Definition deleteTexture (id : texid) (gl : GL) : GL :=
  gl_log (DeleteTexture id) (gl_set_textures (delete id (gl_textures gl)) gl).

(** [gl.clear] after [gl.clearColor(0, 0, 0, 1)]. *)
Definition clear (gl : GL) : GL :=
  gl_log Clear (gl_set_framebuffer (fun _ _ => black) gl).

(** ** The renderer object *)

Definition BG_NOISE : Z := 0.
Definition BG_TILE : Z := 1.

Record Renderer : Type := mkRenderer {
  render_width : Z;
  render_height : Z;
  stereo_texture : option texid;
  num_strips : option Z;
  num_sub_strips : option Z;
  strip_size : Q;
  depth_factor : Q;
  background_mode : Z;
  noise_seed : Q;
  tile_texture : option texid;
  bg_scroll_x : Q;
  bg_scroll_y : Q
}.

(** The object before the constructor has assigned anything.  The two
    fields read before their first assignment ([stereo_texture] in
    [resize], [num_sub_strips] in [_calc_strip_size]) and [num_strips] are
    unset; the others are assigned before any read and start at zero. *)
Definition blank : Renderer :=
  mkRenderer 0 0 None None None 0 0 0 0 None 0 0.

Definition with_size (w h : Z) (tex : option texid) (r : Renderer) : Renderer :=
  mkRenderer w h tex (num_strips r) (num_sub_strips r) (strip_size r)
    (depth_factor r) (background_mode r) (noise_seed r) (tile_texture r)
    (bg_scroll_x r) (bg_scroll_y r).

Definition with_num_strips (n : option Z) (r : Renderer) : Renderer :=
  mkRenderer (render_width r) (render_height r) (stereo_texture r) n
    (num_sub_strips r) (strip_size r) (depth_factor r) (background_mode r)
    (noise_seed r) (tile_texture r) (bg_scroll_x r) (bg_scroll_y r).

Definition with_num_sub_strips (n : option Z) (r : Renderer) : Renderer :=
  mkRenderer (render_width r) (render_height r) (stereo_texture r)
    (num_strips r) n (strip_size r) (depth_factor r) (background_mode r)
    (noise_seed r) (tile_texture r) (bg_scroll_x r) (bg_scroll_y r).

Definition with_strip_size (s : Q) (r : Renderer) : Renderer :=
  mkRenderer (render_width r) (render_height r) (stereo_texture r)
    (num_strips r) (num_sub_strips r) s (depth_factor r) (background_mode r)
    (noise_seed r) (tile_texture r) (bg_scroll_x r) (bg_scroll_y r).

Definition with_depth_factor (f : Q) (r : Renderer) : Renderer :=
  mkRenderer (render_width r) (render_height r) (stereo_texture r)
    (num_strips r) (num_sub_strips r) (strip_size r) f (background_mode r)
    (noise_seed r) (tile_texture r) (bg_scroll_x r) (bg_scroll_y r).

Definition with_background_mode (m : Z) (r : Renderer) : Renderer :=
  mkRenderer (render_width r) (render_height r) (stereo_texture r)
    (num_strips r) (num_sub_strips r) (strip_size r) (depth_factor r) m
    (noise_seed r) (tile_texture r) (bg_scroll_x r) (bg_scroll_y r).

Definition with_noise_seed (s : Q) (r : Renderer) : Renderer :=
  mkRenderer (render_width r) (render_height r) (stereo_texture r)
    (num_strips r) (num_sub_strips r) (strip_size r) (depth_factor r)
    (background_mode r) s (tile_texture r) (bg_scroll_x r) (bg_scroll_y r).

Definition with_tile_texture (t : option texid) (r : Renderer) : Renderer :=
  mkRenderer (render_width r) (render_height r) (stereo_texture r)
    (num_strips r) (num_sub_strips r) (strip_size r) (depth_factor r)
    (background_mode r) (noise_seed r) t (bg_scroll_x r) (bg_scroll_y r).

Definition with_bg_scroll (x y : Q) (r : Renderer) : Renderer :=
  mkRenderer (render_width r) (render_height r) (stereo_texture r)
    (num_strips r) (num_sub_strips r) (strip_size r) (depth_factor r)
    (background_mode r) (noise_seed r) (tile_texture r) x y.

(** *** resize *)

(** [if (this.stereo_texture) gl.deleteTexture(this.stereo_texture)], then
    a new texture of the new size.  Nothing else is assigned.  The
    source writes the deletion with the free identifier [gl]; here it is
    the renderer's own context, as on a page that keeps its context in a
    global [gl] (the usage example of the file).  [resize_in_page] below
    has the lookup, and the ReferenceError without such a global. *)
Definition resize (r : Renderer) (gl : GL) (width height : Z) : Renderer * GL :=
  let gl1 :=
    match stereo_texture r with
    | Some old => deleteTexture old gl
    | None => gl
    end in
  let '(id, gl2) := create_texture gl1 width height in
  (with_size width height (Some id) r, gl2).

(** The outcome of a method that can throw: the state it returns with,
    or the state it leaves behind when it throws. *)
Inductive completion (A : Type) : Type :=
  | Returns (a : A)
  | Throws (a : A).

Arguments Returns {A} a.
Arguments Throws {A} a.

(** [resize] with the lookup of the identifier [gl] made explicit.  The
    deletion is written [gl.deleteTexture], not [this.gl.deleteTexture];
    [page_gl] says whether the page has a global [gl] (the renderer's
    context, as in the usage example).  Without one the lookup throws a
    ReferenceError, after the two size fields are assigned and before the
    new texture is created. *)
Definition resize_in_page (page_gl : bool) (r : Renderer) (gl : GL)
    (width height : Z) : completion (Renderer * GL) :=
  match stereo_texture r with
  | Some old =>
      if page_gl then Returns (resize r gl width height)
      else Throws (with_size width height (Some old) r, gl)
  | None => Returns (resize r gl width height)
  end.

(** *** _calc_strip_size *)

(** [while (strip_size_pixels % num_sub_strips != 0) strip_size_pixels++],
    run for at most [fuel] tests of the condition.  This is the loop on
    mathematical integers.  [Binary64.align_loop] is the loop on doubles,
    where [++] leaves a number of [2^53] or more unchanged
    ([align_loop_stalls]); the two make the same steps while the numbers
    stay below [2^53] ([align_loop_exact]). *)
Fixpoint align_loop (fuel : nat) (strip_size_pixels num_sub_strips : Z) : option Z :=
  match fuel with
  | O => None
  | S fuel' =>
      if js_rem_nonzero strip_size_pixels num_sub_strips
      then align_loop fuel' (strip_size_pixels + 1) num_sub_strips
      else Some strip_size_pixels
  end.

(** The three locals after the [|| 1] lines. *)
Definition calc_locals (r : Renderer) : Z * Z * Z :=
  (js_or (render_width r) 1,
   js_or_field (num_strips r) 1,
   js_or_field (num_sub_strips r) 1).

(** The local [strip_size_pixels] when the loop exits, with the quotient
    under [Math.ceil] exact.  [Binary64.strip_size_pixels_fuel] rounds the
    quotient to a double first, as the source does; below [2^52] the
    ceiling is the same ([Math_ceil_div_exact]), from [2^53] on it need
    not be ([calc_strip_size_beyond_2_53]). *)
Definition strip_size_pixels_fuel (fuel : nat) (r : Renderer) : option Z :=
  let '(render_width, num_strips, num_sub_strips) := calc_locals r in
  align_loop fuel (Math_ceil (inject_Z render_width / inject_Z num_strips))
    num_sub_strips.

(** [this.strip_size] is stored as the exact quotient, for the rendering
    on rationals; [Binary64._calc_strip_size_fuel] has the double the
    source stores. *)
Definition _calc_strip_size_fuel (fuel : nat) (r : Renderer) : option Renderer :=
  let '(render_width, _, _) := calc_locals r in
  match strip_size_pixels_fuel fuel r with
  | Some strip_size_pixels =>
      Some (with_strip_size (inject_Z strip_size_pixels / inject_Z render_width) r)
  | None => None
  end.

(** The loop needs at most [|num_sub_strips|] increments (shown below as
    [_calc_strip_size_fuel_enough]), so this much fuel never runs out on
    integers, nor on doubles below [2^52] ([_calc_strip_size_binary64]).
    From [2^53] on the source's loop need not exit
    ([strip_size_pixels_stalls]); the total functions below do not show
    that. *)
Definition calc_fuel (r : Renderer) : nat :=
  S (Z.abs_nat (js_or_field (num_sub_strips r) 1)).

Definition strip_size_pixels (r : Renderer) : Z :=
  match strip_size_pixels_fuel (calc_fuel r) r with
  | Some p => p
  | None => 0
  end.

Definition _calc_strip_size (r : Renderer) : Renderer :=
  match _calc_strip_size_fuel (calc_fuel r) r with
  | Some r' => r'
  | None => r
  end.

(** *** Setters *)

Definition setNumStrips (r : Renderer) (num_strips : Z) : Renderer :=
  let num_strips :=
    if num_strips <? 0
    then Math_ceil (8 * inject_Z (render_width r) / 1000)
    else num_strips in
  _calc_strip_size (with_num_strips (Some num_strips) r).

Definition setNumSubStrips (r : Renderer) (num_sub_strips : Z) : Renderer :=
  _calc_strip_size (with_num_sub_strips (Some num_sub_strips) r).

Definition setBackgroundMode (r : Renderer) (mode : jsval) : Renderer :=
  with_background_mode
    (if loose_eq_number mode (inject_Z BG_NOISE) then BG_NOISE else BG_TILE) r.

Definition setBackgroundTileTexture (r : Renderer) (texture : option texid) : Renderer :=
  with_tile_texture texture r.

Definition setBackgroundTileScroll (r : Renderer) (x y : Q) : Renderer :=
  with_bg_scroll x y r.

Definition setNoiseSeed (r : Renderer) (seed : Q) : Renderer :=
  with_noise_seed seed r.

Definition setDepthFactor (r : Renderer) (depth_factor : Q) : Renderer :=
  with_depth_factor depth_factor r.

(** *** The constructor *)

Definition Renderer_new (gl : GL) (width height : Z) : Renderer * GL :=
  let '(r, gl) := resize blank gl width height in
  let r := setNumStrips r (-1) in
  let r := setNumSubStrips r 2 in
  let r := setDepthFactor r (1 / 75) in
  let r := setBackgroundMode r (VNum (inject_Z BG_NOISE)) in
  let r := setNoiseSeed r 0 in
  let r := setBackgroundTileTexture r None in
  let r := setBackgroundTileScroll r 0 0 in
  let r := with_background_mode BG_NOISE r in
  (r, gl).

(** ** Sampling and the fragment shaders *)

(** A float colour channel written to an 8-bit buffer, and read back. *)
Definition to_byte (q : Q) : Z := Math_floor (Qmax 0 (Qmin 1 q) * 255 + (1 # 2)).
Definition of_byte (b : Z) : Q := inject_Z b / 255.

Definition to_color (c : vec3) : Color :=
  RGB (to_byte (vr c)) (to_byte (vg c)) (to_byte (vb c)).

Definition wrap_coord (repeat : bool) (n i : Z) : Z :=
  if repeat then i mod n else Z.max 0 (Z.min (n - 1) i).

Definition mix (a b t : Q) : Q := Qred (a * (1 - t) + b * t)%Q.

(** LINEAR filtering of the base level: the four texels around the sample
    point, weighted by its distance to their centres. *)
Definition sample (t : Texture) (uv : Q * Q) : vec3 :=
  let x := (fst uv * inject_Z (tex_width t) - (1 # 2))%Q in
  let y := (snd uv * inject_Z (tex_height t) - (1 # 2))%Q in
  let i0 := Math_floor x in
  let j0 := Math_floor y in
  let fx := (x - inject_Z i0)%Q in
  let fy := (y - inject_Z j0)%Q in
  let at_ i j :=
    texel t (wrap_coord (tex_repeat t) (tex_width t) i)
            (wrap_coord (tex_repeat t) (tex_height t) j) in
  let channel (ch : Color -> Z) :=
    mix (mix (of_byte (ch (at_ i0 j0))) (of_byte (ch (at_ (i0 + 1) j0))) fx)
        (mix (of_byte (ch (at_ i0 (j0 + 1)))) (of_byte (ch (at_ (i0 + 1) (j0 + 1)))) fx)
        fy in
  Vec3 (channel red) (channel green) (channel blue).

(** [texture2D(sampler, uv)]; a sampler with no (or a deleted) texture
    bound reads black. *)
Definition texture2D (gl : GL) (tex : option texid) (uv : Q * Q) : vec3 :=
  match tex with
  | Some id =>
      match gl_textures gl !! id with
      | Some t => sample t uv
      | None => Vec3 0 0 0
      end
  | None => Vec3 0 0 0
  end.

Definition fract (x : Q) : Q := (x - inject_Z (Math_floor x))%Q.

(** The noise shader:
    [rand(uv) = fract(sin(dot(uv, vec2(12.9898,78.233))) * (43758.5453 + seed))]. *)
Definition rand (gl : GL) (seed : Q) (uv : Q * Q) : Q :=
  fract (gl_sin gl (fst uv * (129898 # 10000) + snd uv * (78233 # 1000))
         * ((437585453 # 10000) + seed))%Q.

Definition noise_fragment (gl : GL) (seed : Q) (frag_uv : Q * Q) : vec3 :=
  let val := rand gl seed frag_uv in
  Vec3 val val val.

(** The pass-through shader of the tiled background. *)
Definition texture_fragment (gl : GL) (texture : option texid) (frag_uv : Q * Q) : vec3 :=
  texture2D gl texture frag_uv.

(** The uniforms of the stereo shader as [render] sets them. *)
Record StereoUniforms : Type := mkStereoUniforms {
  u_strip_size : Q;
  u_depth_strip_size : Q;
  u_depth_factor : Q;
  u_depth_texture : option texid;
  u_stereo_texture : option texid
}.

(** The displacement shader. *)
Definition stereo_fragment (gl : GL) (u : StereoUniforms) (frag_uv : Q * Q) : vec3 :=
  let depth_uv :=
    ((fst frag_uv / u_depth_strip_size u - 1) * u_strip_size u, snd frag_uv)%Q in
  let depth := texture2D gl (u_depth_texture u) depth_uv in
  let delta := (vr depth * u_depth_factor u)%Q in
  let uv := (fst frag_uv + delta - u_strip_size u, snd frag_uv)%Q in
  texture2D gl (u_stereo_texture u) uv.

(** ** Drawing and copying *)

Definition quad_vtx : list (Q * Q * Q) :=
  [(0, 0, 0); (1, 0, 0); (1, 1, 0); (1, 1, 0); (0, 1, 0); (0, 0, 0)]%Q.

Definition quad_uv : list (Q * Q) :=
  [(0, 0); (1, 0); (1, 1); (1, 1); (0, 1); (0, 0)]%Q.

(** The centre of pixel [i] of [n], in the unit square the projection
    matrix maps onto the viewport. *)
Definition pixel_center (i n : Z) : Q := ((inject_Z i + (1 # 2)) / inject_Z n)%Q.

Definition covers (lo hi : Q) (i n : Z) : bool :=
  (0 <=? i) && (i <? n)
  && Qle_bool lo (pixel_center i n) && Qltb (pixel_center i n) hi.

(** A varying interpolated between the two opposite corners of the quad. *)
Definition interpolate (p p0 p1 a0 a1 : Q) : Q :=
  Qred (a0 + (p - p0) * (a1 - a0) / (p1 - p0))%Q.

(** [gl.drawArrays(gl.TRIANGLES, 0, 6)] on the two triangles of an
    axis-aligned rectangle: every pixel whose centre lies in the rectangle
    gets the fragment shader's colour at the interpolated [uv].  Vertices
    0 and 2 are opposite corners. *)
Definition drawArrays (prog : shader_kind) (position : list (Q * Q * Q))
    (uv : list (Q * Q)) (fragment : Q * Q -> vec3) (gl : GL) : GL :=
  let '(x0, y0, _) := nth 0 position (0, 0, 0)%Q in
  let '(x1, y1, _) := nth 2 position (0, 0, 0)%Q in
  let '(u0, v0) := nth 0 uv (0, 0)%Q in
  let '(u1, v1) := nth 2 uv (0, 0)%Q in
  let fb i j :=
    if covers x0 x1 i (gl_width gl) && covers y0 y1 j (gl_height gl)
    then to_color (fragment
           (interpolate (pixel_center i (gl_width gl)) x0 x1 u0 u1,
            interpolate (pixel_center j (gl_height gl)) y0 y1 v0 v1))
    else gl_framebuffer gl i j in
  gl_log (DrawArrays prog x0 x1) (gl_set_framebuffer fb gl).

Definition in_range (lo len i : Z) : bool := (lo <=? i) && (i <? lo + len).

(** [gl.copyTexSubImage2D(TEXTURE_2D, 0, xoffset, yoffset, x, y, width,
    height)] on the bound texture.  A negative size or offset, or a
    rectangle that does not fit the texture, raises INVALID_VALUE and
    copies nothing; no texture bound raises INVALID_OPERATION.  Texels
    whose source pixel is off the framebuffer are left alone. *)
Definition copyTexSubImage2D (tex : option texid)
    (xoffset yoffset x y width height : Z) (gl : GL) : GL :=
  let gl' := gl_log (CopyTexSubImage2D tex xoffset yoffset x y width height) gl in
  match tex with
  | Some id =>
      match gl_textures gl !! id with
      | Some t =>
          if (0 <=? xoffset) && (0 <=? yoffset) && (0 <=? width) && (0 <=? height)
             && (xoffset + width <=? tex_width t)
             && (yoffset + height <=? tex_height t)
          then
            let data i j :=
              if in_range xoffset width i && in_range yoffset height j
                 && in_range 0 (gl_width gl) (x + (i - xoffset))
                 && in_range 0 (gl_height gl) (y + (j - yoffset))
              then gl_framebuffer gl (x + (i - xoffset)) (y + (j - yoffset))
              else texel t i j in
            gl_set_textures
              (<[id := mkTexture (tex_width t) (tex_height t) (tex_repeat t) data]>
                 (gl_textures gl)) gl'
          else gl'
      | None => gl'
      end
  | None => gl'
  end.

(** [_copy_strip_to_stereo_texture(x, width)].  An unset [num_sub_strips]
    makes the caller's [width] NaN ([None]): [NaN > n] is false and a NaN
    size reaches WebGL as 0. *)
Definition _copy_strip_to_stereo_texture (r : Renderer) (gl : GL)
    (x : Z) (width : option Z) : GL :=
  let width :=
    match width with
    | Some w => if w >? render_width r - x then render_width r - x else w
    | None => 0
    end in
  copyTexSubImage2D (stereo_texture r) x 0 x 0 width (render_height r) gl.

(** [n + this.num_sub_strips]. *)
Definition plus_field (n : Z) (f : option Z) : option Z :=
  match f with
  | Some m => Some (n + m)
  | None => None
  end.

(** [_render_reference_strip(strip_size)] and
    [_render_stereo_strip(num, strip_size)].  The products under
    [Math.floor] are exact here.  The source floors products of doubles
    ([Binary64.copy_x], [Binary64.copy_width]), which are the same at 640
    pixels ([copy_rectangles_640]) and one lower at 800
    ([copy_rectangles_800]). *)
Definition _render_reference_strip (r : Renderer) (gl : GL) (strip_size : Q) : GL :=
  let noise := background_mode r =? BG_NOISE in
  let bg_scroll_x := if noise then 0%Q else bg_scroll_x r in
  let bg_scroll_y := if noise then 0%Q else bg_scroll_y r in
  let use_shader := if noise then NoiseShader else TextureShader in
  let fragment :=
    if noise then noise_fragment gl (noise_seed r)
    else texture_fragment gl (tile_texture r) in
  let position := map (fun '(x, y, z) => (x * strip_size, y, z)%Q) quad_vtx in
  let uv :=
    map (fun '(u, v) => (bg_scroll_x + u, bg_scroll_y + v / strip_size)%Q) quad_uv in
  let gl := drawArrays use_shader position uv fragment gl in
  _copy_strip_to_stereo_texture r gl 0
    (plus_field (Math_floor (strip_size * inject_Z (render_width r)))
                (num_sub_strips r)).

Definition _render_stereo_strip (r : Renderer) (u : StereoUniforms) (gl : GL)
    (num : Z) (strip_size : Q) : GL :=
  let position :=
    map (fun '(x, y, z) => ((x + inject_Z num) * strip_size, y, z)%Q) quad_vtx in
  let uv :=
    map (fun '(s, t) => ((s + inject_Z num) * strip_size, t)%Q) quad_uv in
  let gl := drawArrays StereoShader position uv (stereo_fragment gl u) gl in
  _copy_strip_to_stereo_texture r gl
    (Math_floor (inject_Z num * strip_size * inject_Z (render_width r)))
    (plus_field (Math_floor (strip_size * inject_Z (render_width r)))
                (num_sub_strips r)).

(** [for (var i = start; i < stop; i++) body(i)] with a bound the body
    does not change. *)
Definition for_loop {S : Type} (start stop : Z) (body : Z -> S -> S) (s : S) : S :=
  fold_left (fun s i => body i s) (seqZ start (stop - start)) s.

(** The uniforms [render] stores before its loops.  With [num_strips]
    unset or [-1] the quotient is not a finite number; no stereo strip is
    drawn then, so the value put here is never read. *)
Definition stereo_uniforms (r : Renderer) (depth_map : option texid) : StereoUniforms :=
  mkStereoUniforms
    (strip_size r)
    (match num_strips r with
     | Some n => 1 / (inject_Z n + 1)
     | None => 0
     end)%Q
    (depth_factor r)
    depth_map
    (stereo_texture r).

(** The two nested loops of [render]; a comparison with an unset bound is
    false, so nothing runs then. *)
Definition render_stereo_strips (r : Renderer) (u : StereoUniforms) (gl : GL) : GL :=
  match num_strips r, num_sub_strips r with
  | Some ns, Some nss =>
      for_loop 1 ns
        (fun strip gl =>
           for_loop 0 nss
             (fun sub gl =>
                _render_stereo_strip r u gl (nss * strip + sub)
                  (strip_size r / inject_Z nss))
             gl)
        gl
  | _, _ => gl
  end.

Definition render (r : Renderer) (gl : GL) (depth_map : option texid) : GL :=
  let gl := clear gl in
  let gl := _render_reference_strip r gl (strip_size r) in
  render_stereo_strips r (stereo_uniforms r depth_map) gl.

(** ** Calling the methods in sequence *)

Inductive method : Type :=
  | Resize (width height : Z)
  | SetNumStrips (num_strips : Z)
  | SetNumSubStrips (num_sub_strips : Z)
  | SetBackgroundMode (mode : jsval)
  | SetBackgroundTileTexture (texture : option texid)
  | SetBackgroundTileScroll (x y : Q)
  | SetNoiseSeed (seed : Q)
  | SetDepthFactor (depth_factor : Q)
  | Render (depth_map : option texid).

Definition call (m : method) (s : Renderer * GL) : Renderer * GL :=
  let '(r, gl) := s in
  match m with
  | Resize w h => resize r gl w h
  | SetNumStrips n => (setNumStrips r n, gl)
  | SetNumSubStrips n => (setNumSubStrips r n, gl)
  | SetBackgroundMode mode => (setBackgroundMode r mode, gl)
  | SetBackgroundTileTexture t => (setBackgroundTileTexture r t, gl)
  | SetBackgroundTileScroll x y => (setBackgroundTileScroll r x y, gl)
  | SetNoiseSeed s => (setNoiseSeed r s, gl)
  | SetDepthFactor f => (setDepthFactor r f, gl)
  | Render depth_map => (r, render r gl depth_map)
  end.

Definition run (ms : list method) (s : Renderer * GL) : Renderer * GL :=
  fold_left (fun s m => call m s) ms s.

(** ** The geometry in binary64 *)

(** JavaScript numbers are IEEE 754 binary64 values.  Here the arithmetic
    of [_calc_strip_size] and of the copy rectangles is written with the
    Standard Library's specification of binary64 ([SpecFloat]), rounding
    to nearest even at every operation as the source does.  The fields
    are the integers of the renderer object, read as doubles. *)
Module Binary64.

Definition prec : Z := 53.
Definition emax : Z := 1024.

(** The number an integer literal or an integer field denotes. *)
Definition of_Z (n : Z) : spec_float := binary_normalize prec emax n 0 false.

Definition div : spec_float -> spec_float -> spec_float := SFdiv prec emax.
Definition mul : spec_float -> spec_float -> spec_float := SFmul prec emax.
Definition add : spec_float -> spec_float -> spec_float := SFadd prec emax.
Definition sub : spec_float -> spec_float -> spec_float := SFsub prec emax.

(** The value of the finite number with sign [s], mantissa [m] and
    exponent [e]. *)
Definition finite_value (s : bool) (m : positive) (e : Z) : Q :=
  ((if s then - inject_Z (Zpos m) else inject_Z (Zpos m)) * Qpower 2 e)%Q.

Definition to_Q (x : spec_float) : option Q :=
  match x with
  | S754_zero _ => Some 0%Q
  | S754_finite s m e => Some (finite_value s m e)
  | S754_infinity _ | S754_nan => None
  end.

(** The integer a number holds, if it holds one. *)
Definition to_Z (x : spec_float) : option Z :=
  match to_Q x with
  | Some q => if Qeq_bool q (inject_Z (Qfloor q)) then Some (Qfloor q) else None
  | None => None
  end.

(** The integer [n] as the result of rounding a number of sign [s]: a
    result of 0 keeps the sign of the argument. *)
Definition integral (s : bool) (n : Z) : spec_float :=
  if n =? 0 then S754_zero s else of_Z n.

(** [Math.ceil] and [Math.floor]; zeros, NaN and the infinities are
    returned as they are. *)
Definition Math_ceil (x : spec_float) : spec_float :=
  match x with
  | S754_finite s m e => integral s (Qceiling (finite_value s m e))
  | _ => x
  end.

Definition Math_floor (x : spec_float) : spec_float :=
  match x with
  | S754_finite s m e => integral s (Qfloor (finite_value s m e))
  | _ => x
  end.

(** [x || 1]: 0, -0 and NaN are falsy. *)
Definition or_1 (x : spec_float) : spec_float :=
  match x with
  | S754_zero _ | S754_nan => of_Z 1
  | _ => x
  end.

(** The same on a field that may be unset. *)
Definition or_1_field (v : option Z) : spec_float :=
  match v with
  | Some n => or_1 (of_Z n)
  | None => of_Z 1
  end.

(** The integer part of a quotient, towards zero. *)
Definition Qtrunc (q : Q) : Z := if Qle_bool 0 q then Qfloor q else Qceiling q.

(** [a % b != 0].  The remainder [a - b * trunc(a / b)] is exact; it is
    NaN, which differs from 0, when [a] is not finite or [b] is 0 or
    NaN, and [a] itself when [b] is an infinity. *)
Definition rem_nonzero (a b : spec_float) : bool :=
  match to_Q a, to_Q b with
  | Some x, Some y =>
      if Qeq_bool y 0 then true
      else negb (Qeq_bool (x - y * inject_Z (Qtrunc (x / y))) 0)
  | Some x, None =>
      match b with
      | S754_infinity _ => negb (Qeq_bool x 0)
      | _ => true
      end
  | None, _ => true
  end.

(** [while (strip_size_pixels % num_sub_strips != 0) strip_size_pixels++],
    run for at most [fuel] tests of the condition. *)
Fixpoint align_loop (fuel : nat) (strip_size_pixels num_sub_strips : spec_float) :
    option spec_float :=
  match fuel with
  | O => None
  | S fuel' =>
      if rem_nonzero strip_size_pixels num_sub_strips
      then align_loop fuel' (add strip_size_pixels (of_Z 1)) num_sub_strips
      else Some strip_size_pixels
  end.

(** The three locals after the [|| 1] lines. *)
Definition calc_locals (r : Renderer) : spec_float * spec_float * spec_float :=
  (or_1 (of_Z (render_width r)),
   or_1_field (num_strips r),
   or_1_field (num_sub_strips r)).

(** The local [strip_size_pixels] when the loop exits. *)
Definition strip_size_pixels_fuel (fuel : nat) (r : Renderer) : option spec_float :=
  let '(render_width, num_strips, num_sub_strips) := calc_locals r in
  align_loop fuel (Math_ceil (div render_width num_strips)) num_sub_strips.

(** The number [_calc_strip_size] stores in [this.strip_size]. *)
Definition _calc_strip_size_fuel (fuel : nat) (r : Renderer) : option spec_float :=
  let '(render_width, _, _) := calc_locals r in
  match strip_size_pixels_fuel fuel r with
  | Some strip_size_pixels => Some (div strip_size_pixels render_width)
  | None => None
  end.

(** The arguments of [_copy_strip_to_stereo_texture] in
    [_render_stereo_strip(num, strip_size)]:
    [Math.floor(num*strip_size*this.render_width)] and
    [Math.floor(strip_size*this.render_width) + this.num_sub_strips];
    [_render_reference_strip] passes 0 and the same width. *)
Definition copy_x (num : Z) (strip_size : spec_float) (render_width : Z) : option Z :=
  to_Z (Math_floor (mul (mul (of_Z num) strip_size) (of_Z render_width))).

Definition copy_width (strip_size : spec_float) (render_width num_sub_strips : Z) :
    option Z :=
  to_Z (add (Math_floor (mul strip_size (of_Z render_width))) (of_Z num_sub_strips)).

End Binary64.

(** ** Auxiliary definitions for the statements *)

(** The distance from [c] up to the next multiple of [m]. *)
Definition gap (c m : Z) : Z := (- c) mod m.

(** The value the loop settles on, in closed form. *)
Definition aligned_pixels (r : Renderer) : Z :=
  let '(render_width, num_strips, num_sub_strips) := calc_locals r in
  let c := Math_ceil (inject_Z render_width / inject_Z num_strips) in
  c + gap c (Z.abs num_sub_strips).

(** A renderer object with the given size and strip counts. *)
Definition example_config (w h ns nss : Z) : Renderer :=
  with_num_sub_strips (Some nss) (with_num_strips (Some ns) (with_size w h None blank)).

(** A polynomial stand-in for the implementation's sine, for closed
    examples; the general statements hold for any [gl_sin]. *)
Definition poly_sin (x : Q) : Q := (x - x * x * x / 6)%Q.

(** A context with a [width] by [height] drawing buffer and no texture. *)
Definition fresh_GL (width height : Z) : GL :=
  mkGL ∅ 0%nat width height (fun _ _ => black) poly_sin [].

(** The state [resize] leaves behind on a canvas of the render size: the
    stereogram texture is in the store, clamps at its edges and has the
    render size, which is also the size of the drawing buffer. *)
Definition ready (r : Renderer) (gl : GL) : Prop :=
  0 <= render_width r /\ 0 <= render_height r
  /\ gl_width gl = render_width r /\ gl_height gl = render_height r
  /\ exists id t,
       stereo_texture r = Some id /\ gl_textures gl !! id = Some t
       /\ tex_width t = render_width r /\ tex_height t = render_height r
       /\ tex_repeat t = false.

(** The stereogram texture's texel at column [i], row [j]. *)
Definition stereo_texel (r : Renderer) (gl : GL) (i j : Z) : option Color :=
  match stereo_texture r with
  | Some id =>
      match gl_textures gl !! id with
      | Some t => Some (texel t i j)
      | None => None
      end
  | None => None
  end.

(** The copy [_copy_strip_to_stereo_texture(x, width)] asks WebGL for. *)
Definition copy_call (r : Renderer) (x width : Z) : gl_call :=
  CopyTexSubImage2D (stereo_texture r) x 0 x 0
    (Z.min width (render_width r - x)) (render_height r).

(** The two calls of the reference strip, and of sub-strip [index]. *)
Definition reference_step (r : Renderer) (nss : Z) : list gl_call :=
  [DrawArrays (if background_mode r =? BG_NOISE then NoiseShader else TextureShader)
     (0 * strip_size r) (1 * strip_size r);
   copy_call r 0 (Math_floor (strip_size r * inject_Z (render_width r)) + nss)].


(** The sub-strip numbers in the order the two loops of [render] visit them. *)
Definition strip_indices (ns nss : Z) : list Z :=
  flat_map (fun strip => map (fun sub => nss * strip + sub) (seqZ 0 nss))
    (seqZ 1 (ns - 1)).

Definition is_draw (c : gl_call) : bool :=
  match c with DrawArrays _ _ _ => true | _ => false end.


(** The number of draws, and of copies, in a list of calls; in the calls
    of [render] each draw is followed by its copy, so either one counts
    the draw-and-copy steps. *)
Definition draw_steps (calls : list gl_call) : nat :=
  length (filter (fun c => is_draw c = true) calls).


(** The colour the background shader gives pixel ([i], [j]) of the
    reference strip. *)
Definition reference_color (r : Renderer) (gl : GL) (i j : Z) : Color :=
  let noise := background_mode r =? BG_NOISE in
  let sx := if noise then 0%Q else bg_scroll_x r in
  let sy := if noise then 0%Q else bg_scroll_y r in
  let frag_uv :=
    (interpolate (pixel_center i (gl_width gl))
       (0 * strip_size r) (1 * strip_size r) (sx + 0) (sx + 1),
     interpolate (pixel_center j (gl_height gl))
       0 1 (sy + 0 / strip_size r) (sy + 1 / strip_size r))%Q in
  to_color (if noise then noise_fragment gl (noise_seed r) frag_uv
            else texture_fragment gl (tile_texture r) frag_uv).

(** The default renderer on a 640 by 480 canvas. *)
Definition default_640 : Renderer * GL := Renderer_new (fresh_GL 640 480) 640 480.

(** Two textures hold the same image. *)
Definition same_texels (t1 t2 : Texture) : Prop :=
  tex_width t1 = tex_width t2 /\ tex_height t1 = tex_height t2
  /\ tex_repeat t1 = tex_repeat t2
  /\ forall i j, texel t1 i j = texel t2 i j.

(** Two contexts agree on everything [render] can read: the textures in
    the store, the size of the drawing buffer and the sine.  The pixels
    in the framebuffer and the call history are left out. *)
Definition same_inputs (gl1 gl2 : GL) : Prop :=
  (forall id,
     match gl_textures gl1 !! id, gl_textures gl2 !! id with
     | Some t1, Some t2 => same_texels t1 t2
     | None, None => True
     | _, _ => False
     end)
  /\ gl_width gl1 = gl_width gl2 /\ gl_height gl1 = gl_height gl2
  /\ forall x, gl_sin gl1 x = gl_sin gl2 x.

Definition same_pixels (gl1 gl2 : GL) : Prop :=
  forall i j, gl_framebuffer gl1 i j = gl_framebuffer gl2 i j.

(** The two states agree on the textures, the buffer size, the sine
    and the framebuffer. *)
Definition same_state (gl1 gl2 : GL) : Prop :=
  same_inputs gl1 gl2 /\ same_pixels gl1 gl2.

(** An 8 by 1 canvas with two 1 by 1 white textures: number 0 serves as
    the background tile, number 1 as the depth map. *)
Definition white : Color := RGB 255 255 255.

Definition white_1x1 : Texture := mkTexture 1 1 true (fun _ _ => white).

Definition canvas_8x1 : GL :=
  mkGL (<[1%nat := white_1x1]> (<[0%nat := white_1x1]> ∅)) 2%nat 8 1
       (fun _ _ => black) poly_sin [].

(** Two strips of one sub-strip each, tiled background, and a depth
    factor of a quarter of the width. *)
Definition wide_shift : Renderer * GL :=
  run [SetNumStrips 2; SetNumSubStrips 1; SetDepthFactor (1 # 4);
       SetBackgroundTileTexture (Some 0%nat); SetBackgroundMode (VNum 1)]
      (Renderer_new canvas_8x1 8 1).

(** A 150 by 1 canvas with the same two textures, and on it two strips
    of one sub-strip each over a tiled background, with the default depth
    factor of 1/75: a shift of two pixels. *)
Definition canvas_150x1 : GL :=
  mkGL (<[1%nat := white_1x1]> (<[0%nat := white_1x1]> ∅)) 2%nat 150 1
       (fun _ _ => black) poly_sin [].

Definition one_sub_strip : Renderer * GL :=
  run [SetNumStrips 2; SetNumSubStrips 1;
       SetBackgroundTileTexture (Some 0%nat); SetBackgroundMode (VNum 1)]
      (Renderer_new canvas_150x1 150 1).

(** The methods that only assign fields of the renderer. *)
Definition is_setter (m : method) : bool :=
  match m with
  | Resize _ _ | Render _ => false
  | _ => true
  end.

(** [strip_size] is the one [_calc_strip_size] would store now. *)
Definition geometry_current (r : Renderer) : Prop :=
  strip_size r = strip_size (_calc_strip_size r).

Definition is_resize (m : method) : bool :=
  match m with Resize _ _ => true | _ => false end.

(** *** Repeated calls *)

(** The [frag_uv] of pixel ([i], [j]) when sub-strip [num] is drawn. *)
Definition stereo_frag_uv (gl : GL) (num : Z) (sub : Q) (i j : Z) : Q * Q :=
  (interpolate (pixel_center i (gl_width gl))
     ((0 + inject_Z num) * sub) ((1 + inject_Z num) * sub)
     ((0 + inject_Z num) * sub) ((1 + inject_Z num) * sub),
   interpolate (pixel_center j (gl_height gl)) 0 1 0 1)%Q.

(** Where the stereo shader samples the stereogram texture for a fragment. *)
Definition stereo_read_uv (gl : GL) (u : StereoUniforms) (frag_uv : Q * Q) : Q * Q :=
  let depth_uv :=
    ((fst frag_uv / u_depth_strip_size u - 1) * u_strip_size u, snd frag_uv)%Q in
  let delta := (vr (texture2D gl (u_depth_texture u) depth_uv) * u_depth_factor u)%Q in
  (fst frag_uv + delta - u_strip_size u, snd frag_uv)%Q.

(** Every sample the stereo shader takes while sub-strip [num] is drawn
    falls on columns to the left of the ones this sub-strip's copy will
    write: columns that an earlier copy of the same call has filled. *)
Definition reads_committed (r : Renderer) (gl : GL) (depth_map : option texid)
    (ns nss : Z) : Prop :=
  let u := stereo_uniforms r depth_map in
  let sub := (strip_size r / inject_Z nss)%Q in
  forall num i j,
    nss <= num < ns * nss ->
    covers ((0 + inject_Z num) * sub) ((1 + inject_Z num) * sub) i (gl_width gl)
      = true ->
    covers 0 1 j (gl_height gl) = true ->
    Math_floor
      (fst (stereo_read_uv gl u (stereo_frag_uv gl num sub i j))
       * inject_Z (render_width r) - (1 # 2)) + 1
    < Math_floor (inject_Z num * sub * inject_Z (render_width r)) + nss.

(** Two contexts that differ at most in the stereogram texture's texels,
    the framebuffer and the call history. *)
Definition same_but_stereo (r : Renderer) (g1 g2 : GL) : Prop :=
  gl_width g1 = gl_width g2 /\ gl_height g1 = gl_height g2
  /\ (forall x, gl_sin g1 x = gl_sin g2 x)
  /\ forall id, stereo_texture r <> Some id ->
       gl_textures g1 !! id = gl_textures g2 !! id.

(** The stereogram textures of two contexts hold the same texels in the
    columns below [bound]. *)
Definition agree_below (r : Renderer) (bound : Z) (g1 g2 : GL) : Prop :=
  forall i j,
    0 <= i < Z.min bound (render_width r) -> 0 <= j < render_height r ->
    stereo_texel r g1 i j = stereo_texel r g2 i j.

(** Sub-strips are [w] pixels wide and the strips cover the canvas. *)
Definition pixel_aligned (r : Renderer) (ns nss w : Z) : Prop :=
  1 <= w /\ 1 <= nss /\ 1 <= ns /\ 1 <= render_width r
  /\ strip_size r * inject_Z (render_width r) == inject_Z (nss * w)
  /\ render_width r <= ns * (nss * w).

(** Two contexts in step: same everything but the stereogram texels,
    which agree below [bound], and the call history. *)
Definition in_step (r : Renderer) (bound : Z) (g1 g2 : GL) : Prop :=
  ready r g1 /\ ready r g2 /\ same_but_stereo r g1 g2
  /\ same_pixels g1 g2 /\ agree_below r bound g1 g2.

(** The binary64 number with sign [s] and value [n], for [0 < n < 2^53]:
    a mantissa of 53 bits. *)
Definition canon (s : bool) (n : Z) : spec_float :=
  S754_finite s (Z.to_pos (n * 2 ^ (52 - Z.log2 n))) (Z.log2 n - 52).

(** The configurations on which every number of [_calc_strip_size] is an
    integer below [2^52] in magnitude. *)
Definition within_2_52 (r : Renderer) : Prop :=
  Z.abs (render_width r) < 2 ^ 52
  /\ (forall n, num_strips r = Some n -> Z.abs n < 2 ^ 52)
  /\ (forall n, num_sub_strips r = Some n -> Z.abs n < 2 ^ 52).





(** * Properties *)

(** ** Arithmetic of the alignment loop *)

Lemma js_rem_nonzero_false a b :
  b <> 0 -> (js_rem_nonzero a b = false <-> (Z.abs b | a)).
Proof.
  intros Hb. unfold js_rem_nonzero.
  destruct (Z.eqb_spec b 0) as [|_]; [contradiction|].
  rewrite negb_false_iff, Z.eqb_eq, Z.rem_divide by assumption.
  symmetry. apply Z.divide_abs_l.
Qed.

Lemma js_rem_nonzero_true a b :
  b <> 0 -> (js_rem_nonzero a b = true <-> ~ (Z.abs b | a)).
Proof.
  intros Hb. rewrite <- js_rem_nonzero_false by assumption.
  destruct (js_rem_nonzero a b); split; congruence.
Qed.

Lemma gap_bounds c m : 0 < m -> 0 <= gap c m < m.
Proof. intros. apply Z.mod_pos_bound. assumption. Qed.

Lemma gap_zero c m : 0 < m -> (gap c m = 0 <-> (m | c)).
Proof.
  intros Hm. unfold gap. rewrite Z.mod_divide by lia.
  split; intros [k Hk]; exists (- k); lia.
Qed.

Lemma gap_succ c m : 0 < m -> gap c m <> 0 -> gap (c + 1) m = gap c m - 1.
Proof.
  intros Hm Hne. unfold gap in *.
  pose proof (Z.mod_pos_bound (- c) m Hm) as Hb.
  pose proof (Z.div_mod (- c) m ltac:(lia)) as Hd.
  symmetry. apply (Z.mod_unique _ _ ((- c) / m)); lia.
Qed.

Lemma gap_multiple c m : 0 < m -> (m | c + gap c m).
Proof.
  intros Hm. unfold gap.
  pose proof (Z.div_mod (- c) m ltac:(lia)) as Hd.
  exists (- ((- c) / m)). lia.
Qed.

Lemma gap_least c m t : 0 < m -> (m | t) -> c <= t -> c + gap c m <= t.
Proof.
  intros Hm [j ->] Hle.
  destruct (gap_multiple c m Hm) as [q Hq].
  pose proof (gap_bounds c m Hm) as Hb.
  assert (q < j + 1) as Hq' by (apply (Z.mul_lt_mono_pos_r m); lia).
  rewrite Hq. apply Z.mul_le_mono_nonneg_r; lia.
Qed.

Lemma align_loop_enough fuel c n :
  n <> 0 -> gap c (Z.abs n) < Z.of_nat fuel ->
  align_loop fuel c n = Some (c + gap c (Z.abs n)).
Proof.
  intros Hn. revert c.
  induction fuel as [|fuel IH]; intros c Hfuel.
  - pose proof (gap_bounds c (Z.abs n)). lia.
  - cbn [align_loop].
    destruct (js_rem_nonzero c n) eqn:E.
    + apply js_rem_nonzero_true in E; [|assumption].
      assert (gap c (Z.abs n) <> 0) as Hg
        by (rewrite gap_zero by lia; assumption).
      rewrite IH by (rewrite gap_succ by lia; lia).
      rewrite gap_succ by lia. f_equal. lia.
    + apply js_rem_nonzero_false in E; [|assumption].
      apply gap_zero in E; [|lia]. rewrite E. f_equal. lia.
Qed.

(** With a divisor of 0 the loop never exits, whatever the fuel: this is
    what the [|| 1] on [num_sub_strips] prevents. *)
Lemma align_loop_zero_diverges fuel c : align_loop fuel c 0 = None.
Proof. revert c. induction fuel; intros c; cbn; auto. Qed.

Lemma js_or_nonzero v : js_or v 1 <> 0.
Proof. unfold js_or. destruct (Z.eqb_spec v 0); lia. Qed.

Lemma js_or_field_nonzero v : js_or_field v 1 <> 0.
Proof. destruct v; cbn; [apply js_or_nonzero | lia]. Qed.

Lemma calc_fuel_enough r c :
  gap c (Z.abs (js_or_field (num_sub_strips r) 1)) < Z.of_nat (calc_fuel r).
Proof.
  unfold calc_fuel.
  pose proof (js_or_field_nonzero (num_sub_strips r)).
  pose proof (gap_bounds c (Z.abs (js_or_field (num_sub_strips r) 1))).
  lia.
Qed.

Lemma strip_size_pixels_fuel_enough r fuel :
  (calc_fuel r <= fuel)%nat ->
  strip_size_pixels_fuel fuel r = Some (aligned_pixels r).
Proof.
  intros Hfuel. unfold strip_size_pixels_fuel, aligned_pixels, calc_locals.
  apply align_loop_enough.
  - apply js_or_field_nonzero.
  - pose proof (calc_fuel_enough r
      (Math_ceil (inject_Z (js_or (render_width r) 1)
                  / inject_Z (js_or_field (num_strips r) 1)))).
    lia.
Qed.

Lemma strip_size_pixels_eq r : strip_size_pixels r = aligned_pixels r.
Proof.
  unfold strip_size_pixels.
  rewrite strip_size_pixels_fuel_enough by apply Nat.le_refl. reflexivity.
Qed.

Lemma _calc_strip_size_fuel_enough r fuel :
  (calc_fuel r <= fuel)%nat ->
  _calc_strip_size_fuel fuel r = Some (_calc_strip_size r).
Proof.
  intros Hfuel. unfold _calc_strip_size, _calc_strip_size_fuel.
  cbn [calc_locals].
  rewrite !strip_size_pixels_fuel_enough by (assumption || apply Nat.le_refl).
  reflexivity.
Qed.

Lemma _calc_strip_size_strip_size r :
  strip_size (_calc_strip_size r)
  = (inject_Z (strip_size_pixels r) / inject_Z (js_or (render_width r) 1))%Q.
Proof.
  unfold _calc_strip_size, _calc_strip_size_fuel. cbn [calc_locals].
  rewrite strip_size_pixels_eq.
  rewrite strip_size_pixels_fuel_enough by apply Nat.le_refl. reflexivity.
Qed.

(** Integer quotients as rationals. *)
Lemma Qdiv_le_Z a b x :
  0 < b -> (inject_Z a / inject_Z b <= inject_Z x)%Q <-> a <= x * b.
Proof.
  intros Hb.
  assert (0 < inject_Z b)%Q as HbQ by (unfold Qlt; simpl; lia).
  rewrite Zle_Qle, inject_Z_mult.
  split; intros H.
  - apply (Qmult_le_r _ _ (/ inject_Z b)); [apply Qinv_lt_0_compat; assumption|].
    rewrite <- Qmult_assoc, Qmult_inv_r, Qmult_1_r
      by (intros E; rewrite E in HbQ; inversion HbQ).
    exact H.
  - apply Qle_shift_div_r; assumption.
Qed.

Lemma Qdiv_lt_Z a b x :
  0 < b -> (inject_Z x < inject_Z a / inject_Z b)%Q <-> x * b < a.
Proof.
  intros Hb. pose proof (Qdiv_le_Z a b x Hb) as H.
  split; intros H1.
  - apply Z.nle_gt. intros H2. apply H in H2. apply Qle_not_lt in H2. auto.
  - apply Qnot_le_lt. intros H2. apply H in H2. lia.
Qed.

Lemma Math_ceil_div_bounds a b :
  0 < b ->
  (Math_ceil (inject_Z a / inject_Z b) - 1) * b < a
  /\ a <= Math_ceil (inject_Z a / inject_Z b) * b.
Proof.
  intros Hb. unfold Math_ceil. split.
  - apply Qdiv_lt_Z; [assumption|]. apply Qceiling_lt.
  - apply Qdiv_le_Z; [assumption|]. apply Qle_ceiling.
Qed.

Lemma calc_locals__calc_strip_size r :
  calc_locals (_calc_strip_size r) = calc_locals r.
Proof.
  unfold _calc_strip_size.
  destruct (_calc_strip_size_fuel (calc_fuel r) r) as [r'|] eqn:E; [|reflexivity].
  unfold _calc_strip_size_fuel in E. cbn [calc_locals] in E.
  destruct (strip_size_pixels_fuel (calc_fuel r) r); inversion E. reflexivity.
Qed.

Lemma aligned_pixels__calc_strip_size r :
  aligned_pixels (_calc_strip_size r) = aligned_pixels r.
Proof. unfold aligned_pixels. rewrite calc_locals__calc_strip_size. reflexivity. Qed.

Lemma strip_size_pixels__calc_strip_size r :
  strip_size_pixels (_calc_strip_size r) = strip_size_pixels r.
Proof. rewrite !strip_size_pixels_eq. apply aligned_pixels__calc_strip_size. Qed.

(** ** Integers as rationals *)

Lemma inject_Z_pos n : 0 < n -> (0 < inject_Z n)%Q.
Proof. intros H. unfold Qlt. simpl. lia. Qed.

Lemma inject_Z_nonzero n : n <> 0 -> ~ (inject_Z n == 0)%Q.
Proof. intros Hn E. apply Hn. unfold Qeq in E. simpl in E. lia. Qed.

(** ** Binary64: digits, shifts and exact roundings *)

Lemma digits2_pos_size p : digits2_pos p = Pos.size p.
Proof. induction p; cbn; congruence. Qed.

Lemma digits2_log2 p : Z.pos (digits2_pos p) = Z.log2 (Z.pos p) + 1.
Proof.
  rewrite digits2_pos_size. destruct p; cbn [Z.log2 Pos.size]; lia.
Qed.

Lemma Zdigits2_log2 m : 0 < m -> Zdigits2 m = Z.log2 m + 1.
Proof. destruct m; try lia. intros _. apply digits2_log2. Qed.

Lemma Zdigits2_unique m d : 2 ^ (d - 1) <= m < 2 ^ d -> 1 <= d -> Zdigits2 m = d.
Proof.
  intros H Hd. assert (0 < m) by (pose proof (Z.pow_pos_nonneg 2 (d - 1)); lia).
  rewrite Zdigits2_log2 by assumption.
  rewrite (Z.log2_unique m (d - 1)); [lia | lia |].
  replace (Z.succ (d - 1)) with d by lia. exact H.
Qed.

Lemma fexp_normal e :
  -1074 <= e - 53 -> fexp Binary64.prec Binary64.emax e = e - 53.
Proof. intros H. unfold fexp, emin, Binary64.prec, Binary64.emax. lia. Qed.

Lemma iter_pos_nat {A} (f : A -> A) p x :
  SpecFloat.iter_pos f p x = Nat.iter (Pos.to_nat p) f x.
Proof.
  revert x. induction p as [p IH|p IH|]; intros x; cbn [SpecFloat.iter_pos].
  - rewrite !IH, Pos2Nat.inj_xI.
    replace (S (2 * Pos.to_nat p)) with (Pos.to_nat p + (Pos.to_nat p + 1))%nat by lia.
    rewrite !Nat.iter_add. reflexivity.
  - rewrite !IH, Pos2Nat.inj_xO.
    replace (2 * Pos.to_nat p)%nat with (Pos.to_nat p + Pos.to_nat p)%nat by lia.
    rewrite Nat.iter_add. reflexivity.
  - reflexivity.
Qed.

Lemma shr_1_nonneg m r s :
  0 <= m ->
  shr_1 (Build_shr_record m r s) = Build_shr_record (m / 2) (Z.odd m) (r || s).
Proof.
  intros Hm. rewrite <- Z.div2_div.
  destruct m as [|p|p]; [reflexivity | | lia].
  destruct p; reflexivity.
Qed.

(** Shifting out bits that are all zero loses nothing. *)
Lemma shr_exact n m :
  0 <= m -> (2 ^ Z.of_nat n | m) ->
  Nat.iter n shr_1 (Build_shr_record m false false)
  = Build_shr_record (m / 2 ^ Z.of_nat n) false false.
Proof.
  intros Hm. induction n as [|n IH]; intros Hd.
  - cbn. now rewrite Z.div_1_r.
  - rewrite Nat.iter_succ, IH.
    + rewrite shr_1_nonneg by (apply Z.div_pos; lia).
      destruct Hd as [k ->].
      rewrite Nat2Z.inj_succ, Z.pow_succ_r by lia.
      replace (k * (2 * 2 ^ Z.of_nat n)) with (2 * k * 2 ^ Z.of_nat n) by lia.
      rewrite Z.div_mul by lia.
      replace (2 * k * 2 ^ Z.of_nat n) with (k * (2 * 2 ^ Z.of_nat n)) by lia.
      rewrite Z.div_mul by lia.
      rewrite Z.mul_comm, Z.div_mul by lia.
      rewrite Z.mul_comm, Z.odd_mul. reflexivity.
    + destruct Hd as [k ->]. exists (2 * k).
      rewrite Nat2Z.inj_succ, Z.pow_succ_r by lia. lia.
Qed.

Lemma shl_pow2 m d : Z.pos (Pos.iter xO m d) = Z.pos m * 2 ^ Z.pos d.
Proof.
  apply (Pos.iter_ind _ xO m (fun d a => Z.pos a = Z.pos m * 2 ^ Z.pos d)).
  - lia.
  - intros p a H. rewrite Pos2Z.inj_succ, Z.pow_succ_r by lia. lia.
Qed.

Lemma shr_fexp_53 m e l :
  Zdigits2 m = 53 -> -1074 <= e ->
  shr_fexp Binary64.prec Binary64.emax m e l = (shr_record_of_loc m l, e).
Proof.
  intros Hd He. unfold shr_fexp. rewrite Hd, fexp_normal by lia.
  replace (53 + e - 53 - e) with 0 by lia. reflexivity.
Qed.

Lemma shr_fexp_54 m e l :
  Zdigits2 m = 54 -> -1074 <= e ->
  shr_fexp Binary64.prec Binary64.emax m e l = (shr_1 (shr_record_of_loc m l), e + 1).
Proof.
  intros Hd He. unfold shr_fexp. rewrite Hd, fexp_normal by lia.
  replace (54 + e - 53 - e) with 1 by lia. reflexivity.
Qed.

Lemma loc_of_shr_record_of_loc m l :
  loc_of_shr_record (shr_record_of_loc m l) = l.
Proof. destruct l as [|[| |]]; reflexivity. Qed.

Lemma shr_m_of_loc m l : shr_m (shr_record_of_loc m l) = m.
Proof. destruct l as [|[| |]]; reflexivity. Qed.

(** The second half of [binary_round_aux]: a rounded mantissa that has
    reached [2^53] is renormalised. *)
Lemma round_finish (s : bool) R e :
  2 ^ 52 <= R <= 2 ^ 53 -> -1074 <= e -> e + 1 <= 971 ->
  (let '(mrs, e') := shr_fexp Binary64.prec Binary64.emax R e loc_Exact in
   match shr_m mrs with
   | Z0 => S754_zero s
   | Zpos m => if e' <=? Binary64.emax - Binary64.prec then S754_finite s m e' else S754_infinity s
   | Zneg _ => S754_nan
   end)
  = if R =? 2 ^ 53 then S754_finite s (Z.to_pos (2 ^ 52)) (e + 1)
    else S754_finite s (Z.to_pos R) e.
Proof.
  intros HR He He'. destruct (Z.eqb_spec R (2 ^ 53)) as [-> |Hne].
  - rewrite shr_fexp_54 by (try reflexivity; lia). cbn.
    destruct (Z.leb_spec (e + 1) (Binary64.emax - Binary64.prec)); [reflexivity|].
    unfold Binary64.emax, Binary64.prec in *. lia.
  - rewrite shr_fexp_53 by (try lia; apply Zdigits2_unique; lia).
    cbn [shr_record_of_loc shr_m].
    destruct R as [|R|R]; try lia.
    destruct (Z.leb_spec e (Binary64.emax - Binary64.prec)); [reflexivity|].
    unfold Binary64.emax, Binary64.prec in *. lia.
Qed.

Lemma Zdigits2_bounds m d :
  0 <= m -> Zdigits2 m = d -> 1 <= d -> 2 ^ (d - 1) <= m < 2 ^ d.
Proof.
  intros H0 Hd H1.
  assert (0 < m) as Hm by (destruct m; cbn in Hd; lia).
  rewrite Zdigits2_log2 in Hd by assumption.
  pose proof (Z.log2_spec m Hm) as H.
  replace (Z.log2 m) with (d - 1) in H by lia.
  replace (Z.succ (d - 1)) with d in H by lia. exact H.
Qed.

Lemma binary_round_aux_53 s m e l :
  0 <= m -> Zdigits2 m = 53 -> -1074 <= e -> e + 1 <= 971 ->
  binary_round_aux Binary64.prec Binary64.emax s m e l
  = let R := round_nearest_even m l in
    if R =? 2 ^ 53 then S754_finite s (Z.to_pos (2 ^ 52)) (e + 1)
    else S754_finite s (Z.to_pos R) e.
Proof.
  intros H0 Hd He He'. unfold binary_round_aux.
  rewrite shr_fexp_53 by assumption.
  rewrite loc_of_shr_record_of_loc, shr_m_of_loc.
  apply round_finish; try assumption.
  pose proof (Zdigits2_bounds m 53 H0 Hd ltac:(lia)) as Hm.
  change (2 ^ (53 - 1)) with (2 ^ 52) in Hm.
  unfold round_nearest_even. destruct l as [|[| |]]; try lia.
  destruct (Z.even m); lia.
Qed.

Lemma binary_round_aux_54 s m e l :
  0 <= m -> Zdigits2 m = 54 -> -1074 <= e -> e + 2 <= 971 ->
  binary_round_aux Binary64.prec Binary64.emax s m e l
  = let R :=
      round_nearest_even (m / 2)
        (loc_of_shr_record
           (Build_shr_record (m / 2) (Z.odd m)
              (match l with loc_Exact => false | _ => true end))) in
    if R =? 2 ^ 53 then S754_finite s (Z.to_pos (2 ^ 52)) (e + 2)
    else S754_finite s (Z.to_pos R) (e + 1).
Proof.
  intros H0 Hd He He'. unfold binary_round_aux.
  rewrite shr_fexp_54 by assumption.
  pose proof (Zdigits2_bounds m 54 H0 Hd ltac:(lia)) as Hm.
  change (2 ^ (54 - 1)) with (2 ^ 53) in Hm.
  assert (shr_1 (shr_record_of_loc m l)
          = Build_shr_record (m / 2) (Z.odd m)
              (match l with loc_Exact => false | _ => true end)) as ->.
  { destruct l as [|[| |]]; cbn [shr_record_of_loc];
      rewrite shr_1_nonneg by lia; reflexivity. }
  cbn [shr_m].
  assert (2 ^ 52 <= m / 2 < 2 ^ 53) as Hh.
  { split.
    - apply Z.div_le_lower_bound; lia.
    - apply Z.div_lt_upper_bound; lia. }
  replace (e + 2) with (e + 1 + 1) by lia.
  apply round_finish; try lia.
  unfold round_nearest_even.
  destruct (loc_of_shr_record _) as [|[| |]]; try lia.
  destruct (Z.even (m / 2)); lia.
Qed.

Lemma binary_round_aux_exact_53 s m e :
  0 <= m -> Zdigits2 m = 53 -> -1074 <= e -> e + 1 <= 971 ->
  binary_round_aux Binary64.prec Binary64.emax s m e loc_Exact = S754_finite s (Z.to_pos m) e.
Proof.
  intros H0 Hd He He'. rewrite binary_round_aux_53 by assumption.
  cbn [round_nearest_even].
  pose proof (Zdigits2_bounds m 53 H0 Hd ltac:(lia)) as Hm.
  destruct (Z.eqb_spec m (2 ^ 53)); [lia | reflexivity].
Qed.

(** A mantissa of at most 53 bits is shifted left into place. *)
Lemma binary_round_small s m e D :
  Z.pos (digits2_pos m) = D ->
  D <= 53 -> -1074 <= e + D - 53 -> e + D - 53 + 1 <= 971 ->
  binary_round Binary64.prec Binary64.emax s m e
  = S754_finite s (Z.to_pos (Z.pos m * 2 ^ (53 - D))) (e + D - 53).
Proof.
  intros ED HD He He'. unfold binary_round. rewrite ED.
  rewrite fexp_normal by lia. unfold shl_align.
  pose proof (Zdigits2_bounds (Z.pos m) D ltac:(lia) ED ltac:(lia)) as Hm.
  destruct (D + e - 53 - e) as [|d|d] eqn:Ed; try lia.
  - assert (D = 53) as HD53 by lia.
    assert (-1074 <= e) as He0 by lia. assert (e + 1 <= 971) as He1 by lia.
    assert (Zdigits2 (Z.pos m) = 53) as Hdig by (cbn [Zdigits2]; lia).
    rewrite (binary_round_aux_exact_53 s (Z.pos m) e (Pos2Z.is_nonneg m) Hdig He0 He1).
    rewrite HD53. replace (53 - 53) with 0 by lia.
    rewrite Z.mul_1_r. f_equal. lia.
  - assert (53 - D = Z.pos d) as Hd by lia.
    assert (Zdigits2 (Z.pos (Pos.iter xO m d)) = 53) as Hdig.
    { apply Zdigits2_unique; [|lia]. rewrite shl_pow2, <- Hd.
      change (2 ^ (53 - 1)) with (2 ^ 52).
      replace (2 ^ 52) with (2 ^ (D - 1) * 2 ^ (53 - D))
        by (rewrite <- Z.pow_add_r by lia; f_equal; lia).
      replace (2 ^ 53) with (2 ^ D * 2 ^ (53 - D))
        by (rewrite <- Z.pow_add_r by lia; f_equal; lia).
      assert (0 < 2 ^ (53 - D)) by (apply Z.pow_pos_nonneg; lia).
      nia. }
    assert (-1074 <= D + e - 53) as He0 by lia.
    assert (D + e - 53 + 1 <= 971) as He1 by lia.
    rewrite (binary_round_aux_exact_53 s _ _ (Pos2Z.is_nonneg _) Hdig He0 He1).
    rewrite shl_pow2, <- Hd. f_equal. lia.
Qed.

(** A longer mantissa whose low bits are zero is shifted right. *)
Lemma binary_round_large s m e D :
  Z.pos (digits2_pos m) = D ->
  53 < D -> (2 ^ (D - 53) | Z.pos m) ->
  -1074 <= e -> e + D - 53 + 1 <= 971 ->
  binary_round Binary64.prec Binary64.emax s m e
  = S754_finite s (Z.to_pos (Z.pos m / 2 ^ (D - 53))) (e + D - 53).
Proof.
  intros ED HD Hdiv He He'. unfold binary_round. rewrite ED.
  rewrite fexp_normal by lia. unfold shl_align.
  pose proof (Zdigits2_bounds (Z.pos m) D ltac:(lia) ED ltac:(lia)) as Hm.
  destruct (D + e - 53 - e) as [|d|d] eqn:Ed; try lia.
  unfold binary_round_aux, shr_fexp. cbn [Zdigits2]. rewrite ED.
  rewrite fexp_normal by lia. rewrite Ed.
  cbn [shr shr_record_of_loc]. rewrite iter_pos_nat.
  assert (D - 53 = Z.of_nat (Pos.to_nat d)) as Hn by lia.
  rewrite shr_exact by (try lia; rewrite <- Hn; exact Hdiv).
  rewrite <- Hn. cbn [shr_m loc_of_shr_record round_nearest_even].
  set (M := Z.pos m / 2 ^ (D - 53)).
  assert (2 ^ 52 <= M < 2 ^ 53) as HM.
  { subst M. destruct Hdiv as [k Hk]. rewrite Hk, Z.div_mul
      by (apply Z.pow_nonzero; lia).
    assert (0 < 2 ^ (D - 53)) by (apply Z.pow_pos_nonneg; lia).
    replace (2 ^ (D - 1)) with (2 ^ 52 * 2 ^ (D - 53)) in Hm
      by (rewrite <- Z.pow_add_r by lia; f_equal; lia).
    replace (2 ^ D) with (2 ^ 53 * 2 ^ (D - 53)) in Hm
      by (rewrite <- Z.pow_add_r by lia; f_equal; lia).
    nia. }
  replace (e + Z.pos d) with (e + D - 53) by lia.
  change (shr (Build_shr_record M false false) (e + D - 53)
            (fexp Binary64.prec Binary64.emax (Zdigits2 M + (e + D - 53)) - (e + D - 53)))
    with (shr_fexp Binary64.prec Binary64.emax M (e + D - 53) loc_Exact).
  rewrite shr_fexp_53 by (try lia; apply Zdigits2_unique; lia).
  cbn [shr_record_of_loc shr_m].
  clearbody M. destruct M as [|M|M]; try lia.
  destruct (Z.leb_spec (e + D - 53) (Binary64.emax - Binary64.prec)); [reflexivity|].
  unfold Binary64.emax, Binary64.prec in *. lia.
Qed.

Lemma log2_bounds n : 0 < n < 2 ^ 53 -> 0 <= Z.log2 n <= 52.
Proof.
  intros Hn. split; [apply Z.log2_nonneg|].
  assert (Z.log2 n < 53); [|lia]. apply Z.log2_lt_pow2; lia.
Qed.

Lemma of_Z_pos n : 0 < n < 2 ^ 53 -> Binary64.of_Z n = canon false n.
Proof.
  intros Hn. pose proof (log2_bounds n Hn) as Hl.
  destruct n as [|p|p]; try lia.
  unfold Binary64.of_Z, binary_normalize.
  rewrite (binary_round_small false p 0 _ (digits2_log2 p)) by lia.
  unfold canon. f_equal; [f_equal; f_equal; f_equal|]; lia.
Qed.

Lemma of_Z_neg n : 0 < n < 2 ^ 53 -> Binary64.of_Z (- n) = canon true n.
Proof.
  intros Hn. pose proof (log2_bounds n Hn) as Hl.
  destruct n as [|p|p]; try lia.
  change (- Z.pos p) with (Z.neg p).
  unfold Binary64.of_Z, binary_normalize.
  rewrite (binary_round_small true p 0 _ (digits2_log2 p)) by lia.
  unfold canon. f_equal; [f_equal; f_equal; f_equal|]; lia.
Qed.

(** The mantissa of [canon]. *)
Lemma canon_mantissa n :
  0 < n < 2 ^ 53 ->
  2 ^ 52 <= n * 2 ^ (52 - Z.log2 n) < 2 ^ 53.
Proof.
  intros Hn. pose proof (log2_bounds n Hn) as Hl.
  pose proof (Z.log2_spec n ltac:(lia)) as Hs.
  assert (0 < 2 ^ (52 - Z.log2 n)) by (apply Z.pow_pos_nonneg; lia).
  replace (2 ^ 52) with (2 ^ Z.log2 n * 2 ^ (52 - Z.log2 n))
    by (rewrite <- Z.pow_add_r by lia; f_equal; lia).
  replace (2 ^ 53) with (2 ^ Z.succ (Z.log2 n) * 2 ^ (52 - Z.log2 n))
    by (rewrite <- Z.pow_add_r by lia; f_equal; lia).
  nia.
Qed.

(** ** Binary64: division of integers *)

Lemma new_location_spec m r :
  0 <= r < m ->
  match new_location m r with
  | loc_Exact => r = 0
  | loc_Inexact Lt => 0 < r /\ 2 * r < m
  | loc_Inexact Eq => 2 * r = m
  | loc_Inexact Gt => m < 2 * r
  end.
Proof.
  intros Hr. unfold new_location, new_location_even, new_location_odd.
  destruct (Z.even m) eqn:Em; destruct (Z.eqb_spec r 0) as [|Hne]; try assumption.
  - destruct (Z.compare_spec (2 * r) m); lia.
  - assert (Z.odd m = true) as Ho by (rewrite <- Z.negb_even, Em; reflexivity).
    apply Z.odd_spec in Ho as [k Hk].
    destruct (Z.compare_spec (2 * r + 1) m); lia.
Qed.

Lemma SFdiv_core_53 m1 e1 m2 e2 :
  2 ^ 52 <= m1 < 2 ^ 53 -> 2 ^ 52 <= m2 < 2 ^ 53 ->
  -52 <= e1 <= 0 -> -52 <= e2 <= 0 ->
  SFdiv_core_binary Binary64.prec Binary64.emax m1 e1 m2 e2
  = (m1 * 2 ^ 53 / m2, e1 - e2 - 53, new_location m2 ((m1 * 2 ^ 53) mod m2)).
Proof.
  intros H1 H2 He1 He2. unfold SFdiv_core_binary.
  rewrite (Zdigits2_unique m1 53), (Zdigits2_unique m2 53) by (cbn; lia).
  rewrite fexp_normal by lia.
  replace (Z.min (53 + e1 - (53 + e2) - 53) (e1 - e2)) with (e1 - e2 - 53) by lia.
  replace (e1 - e2 - (e1 - e2 - 53)) with 53 by lia.
  rewrite Z.shiftl_mul_pow2 by lia.
  unfold Z.div, Z.modulo.
  destruct (Z.div_eucl (m1 * 2 ^ 53) m2) as [q r]. reflexivity.
Qed.

(** Rounding a quotient [q + r / m] to the nearest integer. *)
Lemma round_quotient q m r :
  0 <= r < m ->
  let R := round_nearest_even q (new_location m r) in
  q <= R <= q + 1 /\ Z.abs (2 * R * m - 2 * (q * m + r)) <= m.
Proof.
  intros Hr R. subst R. pose proof (new_location_spec m r Hr) as Hl.
  unfold round_nearest_even.
  destruct (new_location m r) as [|[| |]]; cbv iota beta;
    try match goal with
        | |- context [if ?c then _ else _] => destruct c
        end;
    (split; [lia|]);
    match goal with
    | |- Z.abs ?x <= _ => ring_simplify x
    end; lia.
Qed.

(** The same after the quotient has lost its last bit. *)
Lemma round_quotient_half q m r :
  0 <= q -> 0 <= r < m ->
  let R :=
    round_nearest_even (q / 2)
      (loc_of_shr_record
         (Build_shr_record (q / 2) (Z.odd q)
            (match new_location m r with loc_Exact => false | _ => true end))) in
  q / 2 <= R <= q / 2 + 1 /\ Z.abs (2 * R * m - (q * m + r)) <= m.
Proof.
  intros Hq Hr R. subst R. pose proof (new_location_spec m r Hr) as Hl.
  pose proof (Z.div_mod q 2 ltac:(lia)) as Hq2.
  rewrite Zmod_odd in Hq2.
  unfold round_nearest_even.
  set (h := q / 2) in *. clearbody h.
  destruct (Z.odd q); destruct (new_location m r) as [|[| |]];
    cbn [loc_of_shr_record]; cbv iota beta;
    try match goal with
        | |- context [if ?c then _ else _] => destruct c
        end;
    (split; [lia|]); subst q;
    match goal with
    | |- Z.abs ?x <= _ => ring_simplify x
    end; lia.
Qed.

Lemma scale_error R m X A B V :
  0 < m -> 0 < B ->
  A * m * V = B * X ->
  Z.abs (2 * R * m - X) <= m ->
  Z.abs (2 * R * B - A * V) <= B.
Proof.
  intros Hm HB E H.
  assert (m * (2 * R * B - A * V) = B * (2 * R * m - X)) as E2 by nia.
  assert (m * Z.abs (2 * R * B - A * V) <= m * B) as H2.
  { rewrite <- (Z.abs_eq m) at 1 by lia. rewrite <- Z.abs_mul, E2, Z.abs_mul.
    rewrite (Z.abs_eq B) by lia. nia. }
  nia.
Qed.

(** The quotient of two integers below [2^52]: a normal number within
    half a unit in the last place of the exact quotient. *)
Lemma div_canon s1 s2 A B :
  0 < A < 2 ^ 52 -> 0 < B < 2 ^ 52 ->
  exists M E,
    Binary64.div (canon s1 A) (canon s2 B) = S754_finite (xorb s1 s2) M E
    /\ -104 <= E <= 0
    /\ 2 ^ 52 <= Z.pos M < 2 ^ 53
    /\ Z.abs (2 * Z.pos M * B - 2 * A * 2 ^ (- E)) <= B.
Proof.
  intros HA HB.
  assert (0 <= Z.log2 A <= 51) as HlA.
  { split; [apply Z.log2_nonneg|].
    assert (Z.log2 A < 52); [|lia]. apply Z.log2_lt_pow2; lia. }
  assert (0 <= Z.log2 B <= 51) as HlB.
  { split; [apply Z.log2_nonneg|].
    assert (Z.log2 B < 52); [|lia]. apply Z.log2_lt_pow2; lia. }
  assert (2 ^ 52 < 2 ^ 53) as H5253 by (apply Z.pow_lt_mono_r; lia).
  pose proof (canon_mantissa A ltac:(lia)) as HmA.
  pose proof (canon_mantissa B ltac:(lia)) as HmB.
  set (lA := Z.log2 A) in *. set (lB := Z.log2 B) in *.
  set (mA := A * 2 ^ (52 - lA)) in *. set (mB := B * 2 ^ (52 - lB)) in *.
  assert (0 < 2 ^ 52) as Hp52 by (apply Z.pow_pos_nonneg; lia).
  unfold Binary64.div, SFdiv, canon. fold lA lB mA mB.
  rewrite !Z2Pos.id by lia.
  rewrite SFdiv_core_53 by lia.
  set (e' := lA - 52 - (lB - 52) - 53).
  set (q := mA * 2 ^ 53 / mB). set (r := (mA * 2 ^ 53) mod mB).
  assert (mA * 2 ^ 53 = q * mB + r) as Hdiv
    by (subst q r; rewrite (Z.mul_comm _ mB); apply Z.div_mod; lia).
  assert (0 <= r < mB) as Hr by (subst r; apply Z.mod_pos_bound; lia).
  assert (2 ^ 53 = 2 * 2 ^ 52) as E53 by (change 53 with (Z.succ 52); apply Z.pow_succ_r; lia).
  assert (2 ^ 54 = 2 * 2 ^ 53) as E54 by (change 54 with (Z.succ 53); apply Z.pow_succ_r; lia).
  assert (2 ^ 52 <= q < 2 ^ 54) as Hq.
  { split.
    - subst q. apply Z.div_le_lower_bound; [lia | nia].
    - subst q. apply Z.div_lt_upper_bound; [lia | nia]. }
  (* the exact quotient, cross-multiplied *)
  set (U := 2 ^ (- e')).
  assert (0 < U) as HU by (apply Z.pow_pos_nonneg; lia).
  assert (A * mB * U = B * (mA * 2 ^ 53)) as Hexact.
  { subst mA mB U e'.
    assert (2 ^ (52 - lB) * 2 ^ (- (lA - 52 - (lB - 52) - 53))
            = 2 ^ (52 - lA) * 2 ^ 53) as Ep.
    { rewrite <- !Z.pow_add_r by lia. f_equal. lia. }
    transitivity (A * B * (2 ^ (52 - lB) * 2 ^ (- (lA - 52 - (lB - 52) - 53)))); [ring|].
    rewrite Ep. ring. }
  assert (U = 2 * 2 ^ (- (e' + 1))) as EU1.
  { subst U. rewrite <- Z.pow_succ_r by lia. f_equal. lia. }
  assert (2 ^ (- (e' + 1)) = 2 * 2 ^ (- (e' + 2))) as EU2.
  { rewrite <- Z.pow_succ_r by lia. f_equal. lia. }
  destruct (Z.ltb_spec q (2 ^ 53)) as [Hq53|Hq54].
  - (* a quotient of 53 bits *)
    rewrite binary_round_aux_53
      by (first [lia | apply Zdigits2_unique; [cbn; lia | lia]]).
    cbv zeta.
    destruct (round_quotient q mB r Hr) as [HR Herr].
    set (R := round_nearest_even q (new_location mB r)) in *.
    assert (Z.abs (2 * R * B - A * (2 * U)) <= B) as Hs.
    { apply (scale_error R mB (2 * (q * mB + r))); try lia;
        rewrite <- Hdiv; nia. }
    destruct (Z.eqb_spec R (2 ^ 53)) as [ER|NR].
    + exists (Z.to_pos (2 ^ 52)), (e' + 1).
      split; [reflexivity|]. split; [lia|].
      rewrite Z2Pos.id by lia. split; [lia|].
      rewrite ER, EU1 in Hs. lia.
    + exists (Z.to_pos R), e'.
      split; [reflexivity|]. split; [lia|].
      rewrite Z2Pos.id by lia. split; [lia|].
      fold U. replace (2 * A * U) with (A * (2 * U)) by ring. exact Hs.
  - (* a quotient of 54 bits *)
    rewrite binary_round_aux_54
      by (first [lia | apply Zdigits2_unique; [cbn; lia | lia]]).
    cbv zeta.
    destruct (round_quotient_half q mB r ltac:(lia) Hr) as [HR Herr].
    match type of Herr with
    | Z.abs (2 * ?x * _ - _) <= _ => set (R := x) in *
    end.
    assert (2 ^ 52 <= q / 2 < 2 ^ 53) as Hh.
    { split; [apply Z.div_le_lower_bound | apply Z.div_lt_upper_bound]; lia. }
    assert (Z.abs (2 * R * B - A * U) <= B) as Hs.
    { apply (scale_error R mB (q * mB + r)); try lia;
        rewrite <- Hdiv; exact Hexact. }
    destruct (Z.eqb_spec R (2 ^ 53)) as [ER|NR].
    + exists (Z.to_pos (2 ^ 52)), (e' + 2).
      split; [reflexivity|]. split; [lia|].
      rewrite Z2Pos.id by lia. split; [lia|].
      rewrite ER, EU1, EU2 in Hs. lia.
    + exists (Z.to_pos R), (e' + 1).
      split; [reflexivity|]. split; [lia|].
      rewrite Z2Pos.id by lia. split; [lia|].
      rewrite EU1 in Hs.
      replace (2 * A * 2 ^ (- (e' + 1))) with (A * (2 * 2 ^ (- (e' + 1)))) by ring.
      exact Hs.
Qed.

(** ** Binary64: values *)

Lemma Qpower2_nonpos E :
  E <= 0 -> (Qpower 2 E == 1 / inject_Z (2 ^ (- E)))%Q.
Proof.
  intros HE. replace E with (- - E) at 1 by lia.
  rewrite Qpower_opp. rewrite Zpower_Qpower by lia.
  change (inject_Z 2) with 2%Q. unfold Qdiv. now rewrite Qmult_1_l.
Qed.

Lemma inject_Z_pow2_pos k : 0 <= k -> (0 < inject_Z (2 ^ k))%Q.
Proof.
  intros Hk. apply inject_Z_pos. apply Z.pow_pos_nonneg; lia.
Qed.

(** The value of the number with mantissa [M] and exponent [E <= 0]. *)
Lemma finite_value_nonpos s M E :
  E <= 0 ->
  (Binary64.finite_value s M E
   == (if s then - inject_Z (Z.pos M) else inject_Z (Z.pos M))
      / inject_Z (2 ^ (- E)))%Q.
Proof.
  intros HE. unfold Binary64.finite_value.
  rewrite Qpower2_nonpos by assumption.
  pose proof (inject_Z_pow2_pos (- E) ltac:(lia)) as Hp.
  field. intros H. rewrite H in Hp. inversion Hp.
Qed.

Lemma to_Q_finite s M E :
  E <= 0 ->
  exists v,
    Binary64.to_Q (S754_finite s M E) = Some v
    /\ (v == (if s then - inject_Z (Z.pos M) else inject_Z (Z.pos M))
              / inject_Z (2 ^ (- E)))%Q.
Proof.
  intros HE. eexists. split; [reflexivity|].
  apply finite_value_nonpos. exact HE.
Qed.

Lemma to_Q_canon s n :
  0 < n < 2 ^ 53 ->
  exists v,
    Binary64.to_Q (canon s n) = Some v
    /\ (v == if s then - inject_Z n else inject_Z n)%Q.
Proof.
  intros Hn. pose proof (log2_bounds n Hn) as Hl.
  pose proof (canon_mantissa n Hn) as Hm.
  assert (0 < 2 ^ 52) as Hp52 by (apply Z.pow_pos_nonneg; lia).
  destruct (to_Q_finite s (Z.to_pos (n * 2 ^ (52 - Z.log2 n))) (Z.log2 n - 52)
              ltac:(lia)) as (v & Ev & Hv).
  exists v. split; [exact Ev|]. rewrite Hv, Z2Pos.id by lia.
  replace (- (Z.log2 n - 52)) with (52 - Z.log2 n) by lia.
  rewrite inject_Z_mult.
  pose proof (inject_Z_pow2_pos (52 - Z.log2 n) ltac:(lia)) as Hp.
  destruct s; field; intros H; rewrite H in Hp; inversion Hp.
Qed.

Lemma to_Q_of_Z n :
  - 2 ^ 53 < n < 2 ^ 53 ->
  exists v, Binary64.to_Q (Binary64.of_Z n) = Some v /\ (v == inject_Z n)%Q.
Proof.
  intros Hn. destruct (Z.lt_trichotomy n 0) as [Hneg|[-> |Hpos]].
  - replace n with (- - n) by lia. rewrite of_Z_neg by lia.
    destruct (to_Q_canon true (- n) ltac:(lia)) as (v & Ev & Hv).
    exists v. split; [exact Ev|]. rewrite Hv, <- inject_Z_opp. reflexivity.
  - exists 0%Q. split; reflexivity.
  - rewrite of_Z_pos by lia.
    destruct (to_Q_canon false n ltac:(lia)) as (v & Ev & Hv).
    exists v. split; [exact Ev | exact Hv].
Qed.

(** ** Binary64: floor and ceiling of a quotient of integers *)

Section Near.

Variables M u A B : Z.
Hypothesis HA : 0 < A < 2 ^ 52.
Hypothesis HB : 0 < B.
Hypothesis Hu : 0 < u.
Hypothesis HM : 2 ^ 52 <= M.
Hypothesis Herr : Z.abs (2 * M * B - 2 * A * u) <= B.

Lemma near_unit : B < u.
Proof.
  assert (B * (2 * M - 1) <= 2 * A * u) as H1 by lia.
  assert (2 ^ 53 = 2 * 2 ^ 52) as E53
    by (change 53 with (Z.succ 52); apply Z.pow_succ_r; lia).
  assert (2 * A + 1 <= 2 * M - 1) as H2 by lia.
  assert (B * (2 * A + 1) <= 2 * A * u) as H3 by nia.
  nia.
Qed.

Lemma near_le k : A <= k * B <-> M <= k * u.
Proof.
  pose proof near_unit as HBu. split; intros H.
  - assert (2 * M * B <= B * (2 * (k * u) + 1)) as H1 by nia.
    assert (2 * M <= 2 * (k * u) + 1) as H2 by nia. lia.
  - destruct (Z.le_gt_cases A (k * B)) as [|Hgt]; [assumption|exfalso].
    assert (k * B + 1 <= A) as H1 by lia.
    assert (2 * (k * B + 1) * u - B <= 2 * M * B) as H2 by nia.
    assert (2 * k * u * B < 2 * M * B) as H3 by nia.
    assert (k * u < M) as H4 by nia. lia.
Qed.

Lemma near_ge k : k * B <= A <-> k * u <= M.
Proof.
  pose proof near_unit as HBu. split; intros H.
  - assert (B * (2 * (k * u) - 1) <= 2 * M * B) as H1 by nia.
    assert (2 * (k * u) - 1 <= 2 * M) as H2 by nia. lia.
  - destruct (Z.le_gt_cases (k * B) A) as [|Hgt]; [assumption|exfalso].
    assert (A <= k * B - 1) as H1 by lia.
    assert (2 * M * B <= 2 * (k * B - 1) * u + B) as H2 by nia.
    assert (2 * M * B < 2 * k * u * B) as H3 by nia.
    assert (M < k * u) as H4 by nia. lia.
Qed.

Lemma near_div : M / u = A / B.
Proof.
  set (k := A / B).
  pose proof (Z.div_mod A B ltac:(lia)) as Hd.
  pose proof (Z.mod_pos_bound A B HB) as Hm. fold k in Hd.
  assert (k * B <= A) as H1 by lia.
  assert (~ (k + 1) * B <= A) as H2 by lia.
  rewrite near_ge in H1, H2.
  symmetry. apply (Z.div_unique_pos M u k (M - k * u)); lia.
Qed.

Lemma near_div_opp : (- M) / u = (- A) / B.
Proof.
  set (k := (- A) / B).
  pose proof (Z.div_mod (- A) B ltac:(lia)) as Hd.
  pose proof (Z.mod_pos_bound (- A) B HB) as Hm. fold k in Hd.
  assert (A <= (- k) * B) as H1 by lia.
  assert (~ A <= (- (k + 1)) * B) as H2 by lia.
  rewrite near_le in H1, H2.
  symmetry. apply (Z.div_unique_pos (- M) u k (- M - k * u)); lia.
Qed.

End Near.

Lemma Qfloor_div n m : Qfloor (inject_Z n / inject_Z m) = n / m.
Proof. symmetry. apply Zdiv_Qdiv. Qed.

Lemma Qceiling_div n m : Qceiling (inject_Z n / inject_Z m) = - ((- n) / m).
Proof.
  unfold Qceiling. f_equal. rewrite <- Qfloor_div. apply Qfloor_comp.
  rewrite inject_Z_opp. unfold Qdiv. ring.
Qed.

(** A number of either sign as a sign and a magnitude. *)
Lemma of_Z_canon n :
  n <> 0 -> Z.abs n < 2 ^ 53 -> Binary64.of_Z n = canon (n <? 0) (Z.abs n).
Proof.
  intros Hn Hb. destruct (Z.ltb_spec n 0).
  - replace n with (- - n) at 1 by lia. rewrite of_Z_neg by lia.
    f_equal. lia.
  - rewrite of_Z_pos by lia. f_equal. lia.
Qed.

(** [Math.ceil(a / b)] on integers below [2^52] is the ceiling of the
    exact quotient: the rounding of the division does not reach the next
    integer. *)
Lemma Math_ceil_div_exact a b :
  a <> 0 -> b <> 0 -> Z.abs a < 2 ^ 52 -> Z.abs b < 2 ^ 52 ->
  Binary64.Math_ceil (Binary64.div (Binary64.of_Z a) (Binary64.of_Z b))
  = Binary64.integral (xorb (a <? 0) (b <? 0))
      (Math_ceil (inject_Z a / inject_Z b)).
Proof.
  intros Ha Hb Ba Bb.
  assert (2 ^ 52 < 2 ^ 53) as H5253 by (apply Z.pow_lt_mono_r; lia).
  rewrite (of_Z_canon a), (of_Z_canon b) by lia.
  destruct (div_canon (a <? 0) (b <? 0) (Z.abs a) (Z.abs b) ltac:(lia) ltac:(lia))
    as (M & E & -> & HE & HM & Herr).
  unfold Binary64.Math_ceil.
  pose proof (finite_value_nonpos (xorb (a <? 0) (b <? 0)) M E ltac:(lia)) as Hv.
  f_equal. unfold Math_ceil. rewrite (Qceiling_comp _ _ Hv).
  assert (0 < 2 ^ (- E)) as Hu by (apply Z.pow_pos_nonneg; lia).
  pose proof (near_div (Z.pos M) (2 ^ (- E)) (Z.abs a) (Z.abs b)
                ltac:(lia) ltac:(lia) Hu ltac:(lia) Herr) as Hfl.
  pose proof (near_div_opp (Z.pos M) (2 ^ (- E)) (Z.abs a) (Z.abs b)
                ltac:(lia) ltac:(lia) Hu ltac:(lia) Herr) as Hce.
  rewrite Qceiling_div.
  destruct (Z.ltb_spec a 0) as [Na|Pa]; destruct (Z.ltb_spec b 0) as [Nb|Pb];
    cbn [xorb]; rewrite <- ?inject_Z_opp, Qceiling_div.
  - (* both negative *)
    rewrite Hce, (Z.abs_neq a), (Z.abs_neq b) by lia.
    now rewrite Zdiv_opp_opp.
  - (* a negative *)
    rewrite Z.opp_involutive, Hfl, (Z.abs_neq a), (Z.abs_eq b) by lia. reflexivity.
  - (* b negative *)
    rewrite Z.opp_involutive, Hfl, (Z.abs_eq a), (Z.abs_neq b) by lia.
    f_equal. rewrite <- (Z.opp_involutive b) at 2. now rewrite Zdiv_opp_opp.
  - rewrite Hce, !Z.abs_eq by lia. reflexivity.
Qed.

(** ** Binary64: adding one *)

Lemma binary_round_shifted s n :
  0 < n < 2 ^ 53 ->
  binary_round Binary64.prec Binary64.emax s (Z.to_pos (n * 2 ^ 52)) (-52) = canon s n.
Proof.
  intros Hn. pose proof (log2_bounds n Hn) as Hl.
  assert (0 < 2 ^ 52) as Hp52 by (apply Z.pow_pos_nonneg; lia).
  assert (Z.pos (digits2_pos (Z.to_pos (n * 2 ^ 52))) = Z.log2 n + 53) as HD.
  { rewrite digits2_log2, Z2Pos.id by nia.
    rewrite Z.log2_mul_pow2 by lia. lia. }
  unfold canon.
  destruct (Z.eq_dec (Z.log2 n) 0) as [E0|N0].
  - rewrite (binary_round_small s _ (-52) _ HD) by lia.
    rewrite Z2Pos.id by nia. rewrite E0.
    replace (53 - (0 + 53)) with 0 by lia. rewrite Z.mul_1_r.
    f_equal.
  - assert (2 ^ 52 = 2 ^ (52 - Z.log2 n) * 2 ^ Z.log2 n) as Esplit
      by (rewrite <- Z.pow_add_r by lia; f_equal; lia).
    rewrite (binary_round_large s _ (-52) _ HD); try lia.
    + rewrite Z2Pos.id by nia.
      replace (Z.log2 n + 53 - 53) with (Z.log2 n) by lia.
      rewrite Esplit at 1. rewrite Z.mul_assoc, Z.div_mul
        by (apply Z.pow_nonzero; lia).
      f_equal. lia.
    + rewrite Z2Pos.id by nia.
      replace (Z.log2 n + 53 - 53) with (Z.log2 n) by lia.
      exists (n * 2 ^ (52 - Z.log2 n)). rewrite Esplit at 1. ring.
Qed.

Lemma shl_align_canon n :
  0 < n < 2 ^ 53 ->
  Z.pos (fst (shl_align (Z.to_pos (n * 2 ^ (52 - Z.log2 n))) (Z.log2 n - 52) (-52)))
  = n * 2 ^ 52.
Proof.
  intros Hn. pose proof (log2_bounds n Hn) as Hl.
  pose proof (canon_mantissa n Hn) as Hm.
  assert (0 < 2 ^ 52) as Hp52 by (apply Z.pow_pos_nonneg; lia).
  unfold shl_align.
  destruct (-52 - (Z.log2 n - 52)) as [|d|d] eqn:Ed; try lia; cbn [fst].
  - rewrite Z2Pos.id by lia. replace (Z.log2 n) with 0 by lia. reflexivity.
  - rewrite shl_pow2, Z2Pos.id by lia.
    rewrite <- Z.mul_assoc, <- Z.pow_add_r by lia. do 2 f_equal. lia.
Qed.

(** [x + 1] is exact while the integers stay below [2^53]. *)
Lemma add_one p :
  - 2 ^ 53 < p -> p + 1 < 2 ^ 53 ->
  Binary64.add (Binary64.of_Z p) (Binary64.of_Z 1) = Binary64.of_Z (p + 1).
Proof.
  intros Hlo Hhi.
  assert (0 < 2 ^ 52) as Hp52 by (apply Z.pow_pos_nonneg; lia).
  assert (2 ^ 53 = 2 * 2 ^ 52) as E53
    by (change 53 with (Z.succ 52); apply Z.pow_succ_r; lia).
  destruct (Z.eq_dec p 0) as [-> |Hp0]; [reflexivity|].
  destruct (Z.eq_dec p (-1)) as [-> |Hp1]; [reflexivity|].
  rewrite (of_Z_canon p) by lia. rewrite (of_Z_pos 1) by lia.
  change (canon false 1) with (S754_finite false (Z.to_pos (2 ^ 52)) (-52)).
  unfold Binary64.add, SFadd, canon.
  replace (Z.min (Z.log2 (Z.abs p) - 52) (-52)) with (-52)
    by (pose proof (Z.log2_nonneg (Z.abs p)); lia).
  rewrite shl_align_canon by lia.
  change (Z.pos (fst (shl_align (Z.to_pos (2 ^ 52)) (-52) (-52)))) with (2 ^ 52).
  destruct (Z.ltb_spec p 0) as [Hneg|Hpos]; cbn [cond_Zopp].
  - (* a negative number moves towards zero *)
    replace (- (Z.abs p * 2 ^ 52) + 2 ^ 52) with (- ((- p - 1) * 2 ^ 52)) by lia.
    assert (0 < (- p - 1) * 2 ^ 52) as Hpos by nia.
    rewrite <- (Z2Pos.id ((- p - 1) * 2 ^ 52)) by exact Hpos.
    change (- Z.pos (Z.to_pos ((- p - 1) * 2 ^ 52))) with (Z.neg (Z.to_pos ((- p - 1) * 2 ^ 52))).
    cbn [binary_normalize].
    rewrite binary_round_shifted by lia.
    replace (p + 1) with (- (- p - 1)) by lia. now rewrite of_Z_neg by lia.
  - replace (Z.abs p * 2 ^ 52 + 2 ^ 52) with ((p + 1) * 2 ^ 52) by lia.
    assert (0 < (p + 1) * 2 ^ 52) as Hpos' by nia.
    rewrite <- (Z2Pos.id ((p + 1) * 2 ^ 52)) by exact Hpos'.
    cbn [binary_normalize].
    rewrite binary_round_shifted by lia.
    now rewrite of_Z_pos by lia.
Qed.

(** ** Binary64: the remainder test, the defaults and the loop *)

Lemma Qtrunc_comp x y : (x == y)%Q -> Binary64.Qtrunc x = Binary64.Qtrunc y.
Proof.
  intros E. unfold Binary64.Qtrunc.
  rewrite (Qfloor_comp _ _ E), (Qceiling_comp _ _ E).
  destruct (Qle_bool 0 x) eqn:Ex, (Qle_bool 0 y) eqn:Ey; try reflexivity.
  - apply Qle_bool_iff in Ex. rewrite E in Ex. apply Qle_bool_iff in Ex. congruence.
  - apply Qle_bool_iff in Ey. rewrite <- E in Ey. apply Qle_bool_iff in Ey. congruence.
Qed.

Lemma Qtrunc_integer k : Binary64.Qtrunc (inject_Z k) = k.
Proof.
  unfold Binary64.Qtrunc. rewrite Qfloor_Z, Qceiling_Z.
  destruct (Qle_bool 0 (inject_Z k)); reflexivity.
Qed.

(** The remainder of two integers is 0 exactly when the divisor divides
    the dividend, as for [Z.rem]. *)
Lemma rem_test x y c n :
  (x == inject_Z c)%Q -> (y == inject_Z n)%Q -> n <> 0 ->
  Qeq_bool (x - y * inject_Z (Binary64.Qtrunc (x / y))) 0 = (Z.rem c n =? 0).
Proof.
  intros Ex Ey Hn. pose proof (inject_Z_nonzero n Hn) as HnQ.
  destruct (Z.eqb_spec (Z.rem c n) 0) as [H0|H0].
  - apply Qeq_bool_iff. apply Z.rem_divide in H0; [|assumption].
    destruct H0 as [k ->].
    assert (x / y == inject_Z k)%Q as Eq.
    { rewrite Ex, Ey, inject_Z_mult. field. exact HnQ. }
    rewrite (Qtrunc_comp _ _ Eq), Qtrunc_integer, Ex, Ey, inject_Z_mult. ring.
  - destruct (Qeq_bool (x - y * inject_Z (Binary64.Qtrunc (x / y))) 0) eqn:E;
      [|reflexivity].
    exfalso. apply H0. apply Z.rem_divide; [assumption|].
    apply Qeq_bool_iff in E.
    remember (Binary64.Qtrunc (x / y)) as t eqn:Et. clear Et.
    rewrite Ex, Ey in E. exists t.
    assert (inject_Z c == inject_Z (t * n))%Q as H.
    { rewrite inject_Z_mult. lra. }
    unfold Qeq in H. simpl in H. lia.
Qed.

Lemma rem_nonzero_value a b x y c n :
  Binary64.to_Q a = Some x -> (x == inject_Z c)%Q ->
  Binary64.to_Q b = Some y -> (y == inject_Z n)%Q ->
  Binary64.rem_nonzero a b = js_rem_nonzero c n.
Proof.
  intros Ea Ex Eb Ey. unfold Binary64.rem_nonzero, js_rem_nonzero.
  rewrite Ea, Eb.
  destruct (Z.eqb_spec n 0) as [-> |Hn].
  - assert (Qeq_bool y 0 = true) as -> by (apply Qeq_bool_iff; exact Ey).
    reflexivity.
  - assert (Qeq_bool y 0 = false) as ->.
    { destruct (Qeq_bool y 0) eqn:E; [|reflexivity].
      apply Qeq_bool_iff in E. rewrite Ey in E.
      exfalso. exact (inject_Z_nonzero n Hn E). }
    f_equal. apply rem_test; assumption.
Qed.

Lemma rem_nonzero_of_Z c n :
  - 2 ^ 53 < c < 2 ^ 53 -> - 2 ^ 53 < n < 2 ^ 53 ->
  Binary64.rem_nonzero (Binary64.of_Z c) (Binary64.of_Z n) = js_rem_nonzero c n.
Proof.
  intros Hc Hn.
  destruct (to_Q_of_Z c Hc) as (x & Ea & Ex).
  destruct (to_Q_of_Z n Hn) as (y & Eb & Ey).
  exact (rem_nonzero_value _ _ x y c n Ea Ex Eb Ey).
Qed.

(** A zero of either sign is a multiple of everything. *)
Lemma rem_nonzero_zero s n :
  - 2 ^ 53 < n < 2 ^ 53 -> n <> 0 ->
  Binary64.rem_nonzero (S754_zero s) (Binary64.of_Z n) = false.
Proof.
  intros Hn Hn0.
  destruct (to_Q_of_Z n Hn) as (y & Eb & Ey).
  rewrite (rem_nonzero_value (S754_zero s) _ 0%Q y 0 n eq_refl
             ltac:(reflexivity) Eb Ey).
  unfold js_rem_nonzero. destruct (Z.eqb_spec n 0); [contradiction|].
  rewrite Z.rem_0_l by assumption. reflexivity.
Qed.

Lemma or_1_of_Z n :
  Z.abs n < 2 ^ 53 -> Binary64.or_1 (Binary64.of_Z n) = Binary64.of_Z (js_or n 1).
Proof.
  intros Hn. unfold js_or. destruct (Z.eqb_spec n 0) as [-> |Hn0]; [reflexivity|].
  rewrite of_Z_canon by assumption. reflexivity.
Qed.

Lemma or_1_field_of_Z v :
  (forall n, v = Some n -> Z.abs n < 2 ^ 53) ->
  Binary64.or_1_field v = Binary64.of_Z (js_or_field v 1).
Proof.
  intros Hv. destruct v as [n|]; [|reflexivity].
  cbn [Binary64.or_1_field js_or_field]. apply or_1_of_Z. apply Hv. reflexivity.
Qed.

(** While the integers stay below [2^53] the loop on doubles makes the
    steps of the loop on integers. *)
Lemma align_loop_exact fuel c n :
  n <> 0 -> Z.abs n < 2 ^ 53 ->
  - 2 ^ 53 < c -> c + gap c (Z.abs n) < 2 ^ 53 ->
  Binary64.align_loop fuel (Binary64.of_Z c) (Binary64.of_Z n)
  = option_map Binary64.of_Z (align_loop fuel c n).
Proof.
  intros Hn Bn. revert c.
  induction fuel as [|fuel IH]; intros c Hlo Hhi; [reflexivity|].
  pose proof (gap_bounds c (Z.abs n) ltac:(lia)) as Hg.
  cbn [Binary64.align_loop align_loop].
  rewrite rem_nonzero_of_Z by lia.
  destruct (js_rem_nonzero c n) eqn:E; [|reflexivity].
  apply js_rem_nonzero_true in E; [|assumption].
  assert (gap c (Z.abs n) <> 0) as Hg0 by (rewrite gap_zero by lia; assumption).
  rewrite add_one by lia.
  apply IH; [lia|]. rewrite gap_succ by lia. lia.
Qed.

Lemma to_Z_of_Z n :
  - 2 ^ 53 < n < 2 ^ 53 -> Binary64.to_Z (Binary64.of_Z n) = Some n.
Proof.
  intros Hn. destruct (to_Q_of_Z n Hn) as (v & Ev & Hv).
  unfold Binary64.to_Z. rewrite Ev, (Qfloor_comp _ _ Hv), Qfloor_Z.
  assert (Qeq_bool v (inject_Z n) = true) as -> by (apply Qeq_bool_iff; exact Hv).
  reflexivity.
Qed.

Lemma to_Z_integral s n :
  - 2 ^ 53 < n < 2 ^ 53 -> Binary64.to_Z (Binary64.integral s n) = Some n.
Proof.
  intros Hn. unfold Binary64.integral.
  destruct (Z.eqb_spec n 0) as [-> |_]; [reflexivity|].
  apply to_Z_of_Z. exact Hn.
Qed.

(** The loop started from the result of [Math.ceil]. *)
Lemma align_loop_integral fuel s c n :
  n <> 0 -> Z.abs n < 2 ^ 53 ->
  - 2 ^ 53 < c -> c + gap c (Z.abs n) < 2 ^ 53 ->
  gap c (Z.abs n) < Z.of_nat fuel ->
  exists x,
    Binary64.align_loop fuel (Binary64.integral s c) (Binary64.of_Z n) = Some x
    /\ Binary64.to_Z x = Some (c + gap c (Z.abs n))
    /\ (c <> 0 -> x = Binary64.of_Z (c + gap c (Z.abs n))).
Proof.
  intros Hn Bn Hlo Hhi Hfuel.
  pose proof (gap_bounds c (Z.abs n) ltac:(lia)) as Hg.
  unfold Binary64.integral. destruct (Z.eqb_spec c 0) as [-> |Hc].
  - destruct fuel as [|fuel]; [cbn in Hfuel; lia|].
    cbn [Binary64.align_loop]. rewrite rem_nonzero_zero by lia.
    exists (S754_zero s). split; [reflexivity|]. split; [|congruence].
    assert (gap 0 (Z.abs n) = 0) as -> by (apply gap_zero; [lia | apply Z.divide_0_r]).
    reflexivity.
  - rewrite align_loop_exact by assumption.
    rewrite align_loop_enough by assumption.
    eexists. split; [reflexivity|]. split; [|reflexivity].
    apply to_Z_of_Z. lia.
Qed.

(** ** Binary64: _calc_strip_size *)

Lemma js_or_abs v : Z.abs v < 2 ^ 52 -> Z.abs (js_or v 1) < 2 ^ 52.
Proof.
  intros H. unfold js_or. destruct (Z.eqb_spec v 0); [|assumption].
  change (Z.abs 1) with 1. apply Z.pow_gt_1; lia.
Qed.

Lemma js_or_field_abs v :
  (forall n, v = Some n -> Z.abs n < 2 ^ 52) -> Z.abs (js_or_field v 1) < 2 ^ 52.
Proof.
  intros H. destruct v as [n|]; cbn [js_or_field].
  - apply js_or_abs. apply H. reflexivity.
  - change (Z.abs 1) with 1. apply Z.pow_gt_1; lia.
Qed.

Lemma calc_locals_binary64 r :
  within_2_52 r ->
  let '(rw, ns, nss) := calc_locals r in
  Binary64.calc_locals r = (Binary64.of_Z rw, Binary64.of_Z ns, Binary64.of_Z nss).
Proof.
  intros (Hw & Hs & Hss).
  assert (2 ^ 52 < 2 ^ 53) as H5253 by (apply Z.pow_lt_mono_r; lia).
  unfold calc_locals, Binary64.calc_locals.
  rewrite or_1_of_Z by lia.
  rewrite !or_1_field_of_Z; [reflexivity| |].
  - intros n Hn. specialize (Hss n Hn). lia.
  - intros n Hn. specialize (Hs n Hn). lia.
Qed.

(** The ceiling of a quotient is no larger in magnitude than the
    dividend. *)
Lemma Math_ceil_div_abs a b :
  b <> 0 -> Z.abs (Math_ceil (inject_Z a / inject_Z b)) <= Z.abs a.
Proof.
  intros Hb. unfold Math_ceil. rewrite Qceiling_div.
  assert (Z.abs ((- a) / b) <= Z.abs (- a)) as H; [|lia].
  destruct (Z.lt_trichotomy b 0) as [Hneg|[E|Hpos]]; [| contradiction |].
  - rewrite <- (Z.opp_involutive b), <- (Z.opp_involutive (- a)) at 1.
    rewrite Zdiv_opp_opp.
    destruct (Z.le_gt_cases 0 (- - a)) as [H0|H0].
    + pose proof (Z.div_pos (- - a) (- b) H0 ltac:(lia)).
      pose proof (Z.div_le_upper_bound (- - a) (- b) (- - a) ltac:(lia) ltac:(nia)).
      lia.
    + pose proof (Z.div_lt_upper_bound (- - a) (- b) 0 ltac:(lia) ltac:(lia)).
      pose proof (Z.div_le_lower_bound (- - a) (- b) (- - a) ltac:(lia) ltac:(nia)).
      lia.
  - destruct (Z.le_gt_cases 0 (- a)) as [H0|H0].
    + pose proof (Z.div_pos (- a) b H0 ltac:(lia)).
      pose proof (Z.div_le_upper_bound (- a) b (- a) ltac:(lia) ltac:(nia)).
      lia.
    + pose proof (Z.div_lt_upper_bound (- a) b 0 ltac:(lia) ltac:(lia)).
      pose proof (Z.div_le_lower_bound (- a) b (- a) ltac:(lia) ltac:(nia)).
      lia.
Qed.

(** Below [2^52] the calculation on doubles makes the steps of the
    calculation on integers: the loop has exited after at most
    [|num_sub_strips|] increments, on the double that holds
    [strip_size_pixels], and the number stored is the double quotient of
    that and [render_width]. *)
Lemma _calc_strip_size_binary64 r fuel :
  within_2_52 r -> (calc_fuel r <= fuel)%nat ->
  exists x,
    Binary64.strip_size_pixels_fuel fuel r = Some x
    /\ Binary64.to_Z x = Some (strip_size_pixels r)
    /\ (strip_size_pixels r <> 0 -> x = Binary64.of_Z (strip_size_pixels r))
    /\ Binary64._calc_strip_size_fuel fuel r
       = Some (Binary64.div x (Binary64.of_Z (js_or (render_width r) 1))).
Proof.
  intros Hin Hfuel.
  pose proof (calc_locals_binary64 r Hin) as Hloc.
  destruct Hin as (Hw & Hs & Hss).
  assert (2 ^ 53 = 2 ^ 52 + 2 ^ 52) as E53
    by (change 53 with (Z.succ 52); rewrite Z.pow_succ_r by lia; lia).
  pose proof (js_or_abs _ Hw) as Bw.
  pose proof (js_or_field_abs _ Hs) as Bs.
  pose proof (js_or_field_abs _ Hss) as Bss.
  pose proof (js_or_nonzero (render_width r)) as Nw.
  pose proof (js_or_field_nonzero (num_strips r)) as Ns.
  pose proof (js_or_field_nonzero (num_sub_strips r)) as Nss.
  pose proof (strip_size_pixels_eq r) as Hp. unfold aligned_pixels in Hp.
  unfold Binary64._calc_strip_size_fuel, Binary64.strip_size_pixels_fuel.
  unfold calc_locals in Hloc, Hp. rewrite Hloc.
  rewrite Math_ceil_div_exact by assumption.
  pose proof (Math_ceil_div_abs (js_or (render_width r) 1)
                (js_or_field (num_strips r) 1) Ns) as Bc.
  set (c := Math_ceil (inject_Z (js_or (render_width r) 1)
                       / inject_Z (js_or_field (num_strips r) 1))) in *.
  pose proof (gap_bounds c (Z.abs (js_or_field (num_sub_strips r) 1))
                ltac:(lia)) as Hg.
  pose proof (calc_fuel_enough r c) as Hf.
  destruct (align_loop_integral fuel
              (xorb (js_or (render_width r) 1 <? 0)
                    (js_or_field (num_strips r) 1 <? 0))
              c (js_or_field (num_sub_strips r) 1))
    as (x & Ex & Hx & Hne); try lia.
  exists x. rewrite Ex, Hp. split; [reflexivity|]. split; [exact Hx|].
  split; [|reflexivity].
  intros H0. apply Hne. intros Hc.
  apply H0. rewrite Hc.
  assert (gap 0 (Z.abs (js_or_field (num_sub_strips r) 1)) = 0) as ->
    by (apply gap_zero; [lia | apply Z.divide_0_r]).
  reflexivity.
Qed.

(** ** Binary64: beyond 2^53 *)

(** From [2^53] on, adding 1 to a double can leave it as it is, and the
    loop then makes no progress: at a render width of [2^53], one strip
    and three sub-strips it never exits. *)
Lemma align_loop_stalls fuel :
  Binary64.align_loop fuel (Binary64.of_Z (2 ^ 53)) (Binary64.of_Z 3) = None.
Proof.
  induction fuel as [|fuel IH]; [reflexivity|].
  cbn [Binary64.align_loop].
  replace (Binary64.rem_nonzero (Binary64.of_Z (2 ^ 53)) (Binary64.of_Z 3))
    with true by (vm_compute; reflexivity).
  replace (Binary64.add (Binary64.of_Z (2 ^ 53)) (Binary64.of_Z 1))
    with (Binary64.of_Z (2 ^ 53)) by (vm_compute; reflexivity).
  exact IH.
Qed.

Lemma strip_size_pixels_stalls fuel :
  Binary64.strip_size_pixels_fuel fuel (example_config (2 ^ 53) 480 1 3) = None.
Proof.
  unfold Binary64.strip_size_pixels_fuel.
  replace (Binary64.calc_locals (example_config (2 ^ 53) 480 1 3))
    with (Binary64.of_Z (2 ^ 53), Binary64.of_Z 1, Binary64.of_Z 3)
    by (vm_compute; reflexivity).
  replace (Binary64.Math_ceil (Binary64.div (Binary64.of_Z (2 ^ 53)) (Binary64.of_Z 1)))
    with (Binary64.of_Z (2 ^ 53)) by (vm_compute; reflexivity).
  apply align_loop_stalls.
Qed.

Lemma align_loop_more_fuel fuel x n y :
  Binary64.align_loop fuel x n = Some y ->
  forall fuel', (fuel <= fuel')%nat -> Binary64.align_loop fuel' x n = Some y.
Proof.
  revert x. induction fuel as [|fuel IH]; intros x H fuel' Hle; [discriminate|].
  destruct fuel' as [|fuel']; [lia|].
  cbn [Binary64.align_loop] in *.
  destruct (Binary64.rem_nonzero x n); [|exact H].
  apply IH; [exact H | lia].
Qed.

(** ** Binary64: the copy rectangles *)

(** At 640 pixels, 6 strips and 2 sub-strips the rectangles computed on
    doubles are those of the exact products. *)
Lemma copy_rectangles_640 :
  let r := fst default_640 in
  let s := Binary64.div (Binary64.of_Z 108) (Binary64.of_Z 640) in
  let sub := Binary64.div s (Binary64.of_Z 2) in
  Binary64._calc_strip_size_fuel 3 r = Some s
  /\ Binary64.copy_width s 640 2
     = Some (Math_floor (strip_size r * inject_Z 640) + 2)
  /\ map (fun i => Binary64.copy_x i sub 640) (seqZ 2 10)
     = map (fun i => Some (Math_floor (inject_Z i * (strip_size r / inject_Z 2)
                                       * inject_Z 640)))
         (seqZ 2 10)
  /\ Binary64.copy_width sub 640 2
     = Some (Math_floor (strip_size r / inject_Z 2 * inject_Z 640) + 2).
Proof. vm_compute. repeat split; reflexivity. Qed.

(** At 800 pixels they are not.  The default renderer has 7 strips of 116
    pixels there and 2 sub-strips; [116/800] is stored as a double just
    below 0.145, and the products floor to 115 and 57 where the exact
    ones give 116 and 58. *)
Lemma copy_rectangles_800 :
  let r := fst (Renderer_new (fresh_GL 800 600) 800 600) in
  let s := Binary64.div (Binary64.of_Z 116) (Binary64.of_Z 800) in
  let sub := Binary64.div s (Binary64.of_Z 2) in
  num_strips r = Some 7 /\ num_sub_strips r = Some 2
  /\ Binary64._calc_strip_size_fuel 3 r = Some s
  /\ Binary64.copy_width s 800 2 = Some 117
  /\ Math_floor (strip_size r * inject_Z 800) + 2 = 118
  /\ Binary64.copy_x 2 sub 800 = Some 115
  /\ Math_floor (inject_Z 2 * (strip_size r / inject_Z 2) * inject_Z 800) = 116
  /\ Binary64.copy_width sub 800 2 = Some 59
  /\ Math_floor (strip_size r / inject_Z 2 * inject_Z 800) + 2 = 60.
Proof. vm_compute. repeat split; reflexivity. Qed.

(** ** The strip size *)

(** Integers at least 1: the least multiple of [num_sub_strips] that is
    at least [render_width / num_strips]. *)
Lemma strip_size_pixels_smallest (r : Renderer) (ns nss : Z) :
  1 <= render_width r ->
  num_strips r = Some ns -> 1 <= ns ->
  num_sub_strips r = Some nss -> 1 <= nss ->
  let q := (inject_Z (render_width r) / inject_Z ns)%Q in
  let p := strip_size_pixels r in
  Z.rem p nss = 0
  /\ (q <= inject_Z p)%Q
  /\ (forall m, Z.rem m nss = 0 -> (q <= inject_Z m)%Q -> p <= m)
  /\ (inject_Z p < q + inject_Z nss)%Q
  /\ strip_size (_calc_strip_size r)
     = (inject_Z p / inject_Z (render_width r))%Q
  /\ 1 <= p < render_width r + nss.
Proof.
  intros Hrw Hns Hns1 Hnss Hnss1 q p. subst q p.
  assert (js_or (render_width r) 1 = render_width r) as Erw
    by (unfold js_or; destruct (Z.eqb_spec (render_width r) 0); lia).
  assert (js_or ns 1 = ns) as Ens
    by (unfold js_or; destruct (Z.eqb_spec ns 0); lia).
  assert (js_or nss 1 = nss) as Enss
    by (unfold js_or; destruct (Z.eqb_spec nss 0); lia).
  destruct (Math_ceil_div_bounds (render_width r) ns ltac:(lia)) as [Hlo Hhi].
  assert (strip_size_pixels r
          = Math_ceil (inject_Z (render_width r) / inject_Z ns)
            + gap (Math_ceil (inject_Z (render_width r) / inject_Z ns)) nss) as Hp.
  { rewrite strip_size_pixels_eq. unfold aligned_pixels, calc_locals.
    rewrite Hns, Hnss. cbn [js_or_field]. rewrite Erw, Ens, Enss.
    rewrite Z.abs_eq by lia. reflexivity. }
  remember (Math_ceil (inject_Z (render_width r) / inject_Z ns)) as c eqn:Ec.
  clear Ec.
  pose proof (gap_bounds c nss ltac:(lia)) as Hgap.
  split; [|split; [|split; [|split; [|split]]]].
  - apply Z.rem_divide; [lia|]. rewrite Hp. apply gap_multiple. lia.
  - apply (Qdiv_le_Z (render_width r) ns); [lia|].
    apply Z.le_trans with (c * ns); [lia|].
    apply Z.mul_le_mono_nonneg_r; lia.
  - intros m Hm Hq. rewrite Hp.
    apply gap_least; [lia | apply Z.rem_divide; [lia | assumption] |].
    clear Hm. apply (Qdiv_le_Z (render_width r) ns m) in Hq; [|lia].
    assert (c - 1 < m); [|lia].
    apply (Z.mul_lt_mono_pos_r ns); lia.
  - assert (inject_Z (strip_size_pixels r - nss)
            < inject_Z (render_width r) / inject_Z ns)%Q as H.
    { apply (Qdiv_lt_Z (render_width r) ns); [lia|].
      apply Z.le_lt_trans with ((c - 1) * ns); [|lia].
      apply Z.mul_le_mono_nonneg_r; lia. }
    unfold Z.sub in H. rewrite inject_Z_plus, inject_Z_opp in H. lra.
  - rewrite _calc_strip_size_strip_size, Erw. reflexivity.
  - assert (1 <= c) by nia.
    assert (c <= render_width r) by nia.
    lia.
Qed.

(** C1 fails as stated: the numbers are doubles.  At a render width of
    [2^55] with 3 strips of 2 sub-strips the quotient rounds down to an
    even integer, [Math.ceil] leaves it and the loop exits at once, with
    a [strip_size_pixels] below [render_width / num_strips].  At a width
    of [2^53] with 1 strip of 3 sub-strips the loop never exits. *)
Lemma calc_strip_size_beyond_2_53 :
  let r := example_config (2 ^ 55) 480 3 2 in
  1 <= render_width r
  /\ num_strips r = Some 3 /\ num_sub_strips r = Some 2
  /\ (forall fuel, (1 <= fuel)%nat ->
        Binary64.strip_size_pixels_fuel fuel r
        = Some (Binary64.of_Z 12009599006321322))
  /\ Binary64.to_Z (Binary64.of_Z 12009599006321322) = Some 12009599006321322
  /\ (inject_Z 12009599006321322 < inject_Z (render_width r) / inject_Z 3)%Q
  /\ (let r' := example_config (2 ^ 53) 480 1 3 in
      1 <= render_width r'
      /\ num_strips r' = Some 1 /\ num_sub_strips r' = Some 3
      /\ forall fuel, Binary64.strip_size_pixels_fuel fuel r' = None).
Proof.
  cbv zeta.
  split; [vm_compute; discriminate|].
  split; [reflexivity|]. split; [reflexivity|].
  split.
  { intros fuel Hfuel. unfold Binary64.strip_size_pixels_fuel.
    replace (Binary64.calc_locals (example_config (2 ^ 55) 480 3 2))
      with (Binary64.of_Z (2 ^ 55), Binary64.of_Z 3, Binary64.of_Z 2)
      by (vm_compute; reflexivity).
    apply (align_loop_more_fuel 1); [|exact Hfuel].
    vm_compute. reflexivity. }
  split; [vm_compute; reflexivity|].
  split; [vm_compute; reflexivity|].
  split; [vm_compute; discriminate|].
  split; [reflexivity|]. split; [reflexivity|].
  exact strip_size_pixels_stalls.
Qed.

(** C1, as amended.  For integers [render_width], [num_strips] and
    [num_sub_strips] that are at least 1 and below [2^52], the loop of
    [_calc_strip_size], run on doubles, exits (any fuel of at least
    [calc_fuel] gives the result) on the double that holds
    [strip_size_pixels] exactly, where [strip_size_pixels] is the smallest
    integer that is at least [render_width / num_strips] and a multiple of
    [num_sub_strips]: [strip_size_pixels % num_sub_strips] is 0, it is at
    least [render_width / num_strips], below
    [render_width / num_strips + num_sub_strips], and no multiple of
    [num_sub_strips] that is at least the quotient is smaller.  The number
    stored in [strip_size] is the double quotient
    [strip_size_pixels / render_width]; the calculation on exact
    rationals used for the rendering stores the exact quotient. *)
Theorem calc_strip_size_smallest_aligned (r : Renderer) (ns nss : Z) :
  1 <= render_width r < 2 ^ 52 ->
  num_strips r = Some ns -> 1 <= ns < 2 ^ 52 ->
  num_sub_strips r = Some nss -> 1 <= nss < 2 ^ 52 ->
  let q := (inject_Z (render_width r) / inject_Z ns)%Q in
  let p := strip_size_pixels r in
  (forall fuel, (calc_fuel r <= fuel)%nat ->
     Binary64.strip_size_pixels_fuel fuel r = Some (Binary64.of_Z p)
     /\ Binary64._calc_strip_size_fuel fuel r
        = Some (Binary64.div (Binary64.of_Z p) (Binary64.of_Z (render_width r)))
     /\ strip_size_pixels_fuel fuel r = Some p
     /\ _calc_strip_size_fuel fuel r = Some (_calc_strip_size r))
  /\ Binary64.to_Z (Binary64.of_Z p) = Some p
  /\ Z.rem p nss = 0
  /\ (q <= inject_Z p)%Q
  /\ (forall m, Z.rem m nss = 0 -> (q <= inject_Z m)%Q -> p <= m)
  /\ (inject_Z p < q + inject_Z nss)%Q
  /\ strip_size (_calc_strip_size r)
     = (inject_Z p / inject_Z (render_width r))%Q.
Proof.
  intros Hrw Hns Hns1 Hnss Hnss1 q p.
  destruct (strip_size_pixels_smallest r ns nss ltac:(lia) Hns ltac:(lia)
              Hnss ltac:(lia)) as (Hrem & Hge & Hleast & Hlt & Hsize & Hp).
  fold q p in Hrem, Hge, Hleast, Hlt, Hsize, Hp.
  assert (2 ^ 53 = 2 ^ 52 + 2 ^ 52) as E53
    by (change 53 with (Z.succ 52); rewrite Z.pow_succ_r by lia; lia).
  assert (within_2_52 r) as Hin.
  { split; [lia|]. split; intros n Hn; [rewrite Hns in Hn | rewrite Hnss in Hn];
      injection Hn as <-; lia. }
  assert (js_or (render_width r) 1 = render_width r) as Erw
    by (unfold js_or; destruct (Z.eqb_spec (render_width r) 0); lia).
  split; [|split; [|repeat split; assumption]].
  - intros fuel Hfuel.
    destruct (_calc_strip_size_binary64 r fuel Hin Hfuel)
      as (x & Ex & _ & Hx & Estore).
    fold p in Hx. rewrite Hx in Ex, Estore by lia. rewrite Erw in Estore.
    split; [exact Ex|]. split; [exact Estore|]. split.
    + unfold p. rewrite strip_size_pixels_eq.
      apply strip_size_pixels_fuel_enough. exact Hfuel.
    + apply _calc_strip_size_fuel_enough. exact Hfuel.
  - apply to_Z_of_Z. lia.
Qed.

(** The theorem at 640 pixels, 6 strips, 2 sub-strips: 108 pixels, and
    108/640 as a double. *)
Lemma calc_strip_size_smallest_aligned_witness :
  Binary64._calc_strip_size_fuel 3 (example_config 640 480 6 2)
  = Some (Binary64.div (Binary64.of_Z (strip_size_pixels (example_config 640 480 6 2)))
            (Binary64.of_Z 640)).
Proof.
  exact (proj1 (proj2 (proj1
    (calc_strip_size_smallest_aligned (example_config 640 480 6 2) 6 2
       ltac:(cbn; lia) eq_refl ltac:(lia) eq_refl ltac:(lia)) 3%nat (le_n 3)))).
Defined.

(** ** setNumStrips and the default geometry *)

Lemma strip_size_pixels_fields r r' :
  render_width r' = render_width r ->
  num_strips r' = num_strips r ->
  num_sub_strips r' = num_sub_strips r ->
  strip_size_pixels r' = strip_size_pixels r.
Proof.
  intros H1 H2 H3. rewrite !strip_size_pixels_eq.
  unfold aligned_pixels, calc_locals. rewrite H1, H2, H3. reflexivity.
Qed.

Lemma _calc_strip_size_fields r :
  render_width (_calc_strip_size r) = render_width r
  /\ render_height (_calc_strip_size r) = render_height r
  /\ stereo_texture (_calc_strip_size r) = stereo_texture r
  /\ num_strips (_calc_strip_size r) = num_strips r
  /\ num_sub_strips (_calc_strip_size r) = num_sub_strips r
  /\ background_mode (_calc_strip_size r) = background_mode r.
Proof.
  unfold _calc_strip_size.
  destruct (_calc_strip_size_fuel (calc_fuel r) r) as [r'|] eqn:E;
    [|repeat split].
  unfold _calc_strip_size_fuel in E. cbn [calc_locals] in E.
  destruct (strip_size_pixels_fuel (calc_fuel r) r); inversion E.
  repeat split.
Qed.

(** C7.  A negative argument of [setNumStrips] is replaced by
    [ceil(8 * render_width / 1000)] and [_calc_strip_size] runs on that
    count.  At [render_width = 640] the count is 6, and with
    [num_sub_strips = 2] the resulting [strip_size_pixels] is 108 and
    [strip_size] is 108/640 = 0.16875. *)
Theorem setNumStrips_auto (r : Renderer) (n : Z) :
  n < 0 ->
  let auto := Math_ceil (8 * inject_Z (render_width r) / 1000) in
  setNumStrips r n = _calc_strip_size (with_num_strips (Some auto) r)
  /\ num_strips (setNumStrips r n) = Some auto
  /\ (render_width r = 640 -> num_sub_strips r = Some 2 ->
      num_strips (setNumStrips r n) = Some 6
      /\ strip_size_pixels (setNumStrips r n) = 108
      /\ strip_size (setNumStrips r n) == 108 # 640
      /\ strip_size (setNumStrips r n) == 16875 # 100000).
Proof.
  intros Hn auto.
  assert (setNumStrips r n = _calc_strip_size (with_num_strips (Some auto) r)) as E.
  { unfold setNumStrips. destruct (Z.ltb_spec n 0); [reflexivity | lia]. }
  split; [exact E|]. rewrite E. clear E.
  destruct (_calc_strip_size_fields (with_num_strips (Some auto) r))
    as (_ & _ & _ & Hns & _).
  split; [rewrite Hns; reflexivity|].
  intros Hw Hss.
  assert (auto = 6) as Hauto by (subst auto; rewrite Hw; reflexivity).
  assert (strip_size_pixels (with_num_strips (Some auto) r) = 108) as Hp.
  { rewrite strip_size_pixels_eq. unfold aligned_pixels, calc_locals.
    cbn [with_num_strips render_width num_strips num_sub_strips].
    rewrite Hw, Hss, Hauto. reflexivity. }
  rewrite Hns, strip_size_pixels__calc_strip_size,
    _calc_strip_size_strip_size, Hp, Hauto.
  cbn [with_num_strips render_width]. rewrite Hw.
  repeat split; reflexivity.
Qed.

(** The theorem at [setNumStrips(-1)] on a 640 pixel wide renderer. *)
Lemma setNumStrips_auto_witness :
  num_strips (setNumStrips (example_config 640 480 0 2) (-1)) = Some 6.
Proof.
  exact (proj1 (proj2 (proj2
    (setNumStrips_auto (example_config 640 480 0 2) (-1) ltac:(lia)))
      eq_refl eq_refl)).
Defined.

(** ** Degenerate configurations *)

(** C5 fails as stated: negative values are used as they are.
    [setNumSubStrips(-2)] on the default renderer leaves [-2] in the
    calculation, and [render] then draws no stereo strip at all.  A
    renderer resized to a width of -640 gets the automatic strip count -5
    and a [strip_size] of -1/5. *)
Lemma negative_values_not_coerced :
  let r := setNumSubStrips (fst default_640) (-2) in
  let r' := setNumSubStrips
              (setNumStrips (fst (resize blank (fresh_GL 640 480) (-640) 480)) (-1))
              2 in
  calc_locals r = (640, 6, -2)
  /\ ~ (1 <= snd (calc_locals r))
  /\ draw_steps (gl_calls (render r (snd default_640) None)) = 1%nat
  /\ calc_locals r' = (-640, -5, 2)
  /\ ~ (1 <= fst (fst (calc_locals r')))
  /\ ~ (1 <= snd (fst (calc_locals r')))
  /\ strip_size r' == - (1 # 5).
Proof.
  vm_compute. repeat split; try reflexivity; intros H; apply H; reflexivity.
Qed.

(** C5, as amended.  On every configuration of integers below [2^52] in
    magnitude [_calc_strip_size] replaces a [render_width] of 0 and a
    [num_strips] or [num_sub_strips] that is 0 or unset by 1 and takes
    every other value, negative ones included, as it is; the three values
    it works with are never 0.  It has no throwing path and its loop
    exits, after at most [|num_sub_strips|] increments, on the double that
    holds [strip_size_pixels], the smallest multiple of [|num_sub_strips|]
    that is at least [ceil(render_width / num_strips)]; the number stored
    in [strip_size] is the double quotient of that and [render_width],
    and the exact quotient in the calculation on rationals. *)
Theorem calc_strip_size_degenerate (r : Renderer) :
  within_2_52 r ->
  let '(rw, ns, nss) := calc_locals r in
  rw = (if render_width r =? 0 then 1 else render_width r)
  /\ ns = match num_strips r with
          | Some n => if n =? 0 then 1 else n
          | None => 1
          end
  /\ nss = match num_sub_strips r with
           | Some n => if n =? 0 then 1 else n
           | None => 1
           end
  /\ rw <> 0 /\ ns <> 0 /\ nss <> 0
  /\ Binary64.calc_locals r
     = (Binary64.of_Z rw, Binary64.of_Z ns, Binary64.of_Z nss)
  /\ (forall fuel, (S (Z.abs_nat nss) <= fuel)%nat ->
        _calc_strip_size_fuel fuel r = Some (_calc_strip_size r)
        /\ exists x,
             Binary64.strip_size_pixels_fuel fuel r = Some x
             /\ Binary64.to_Z x = Some (strip_size_pixels r)
             /\ Binary64._calc_strip_size_fuel fuel r
                = Some (Binary64.div x (Binary64.of_Z rw)))
  /\ (Z.abs nss | strip_size_pixels r)
  /\ Math_ceil (inject_Z rw / inject_Z ns) <= strip_size_pixels r
       < Math_ceil (inject_Z rw / inject_Z ns) + Z.abs nss
  /\ strip_size (_calc_strip_size r)
     = (inject_Z (strip_size_pixels r) / inject_Z rw)%Q.
Proof.
  intros Hin.
  pose proof (js_or_nonzero (render_width r)) as Hrw.
  pose proof (js_or_field_nonzero (num_strips r)) as Hns.
  pose proof (js_or_field_nonzero (num_sub_strips r)) as Hnss.
  pose proof (_calc_strip_size_strip_size r) as Hsize.
  pose proof (strip_size_pixels_eq r) as Hp.
  pose proof (calc_locals_binary64 r Hin) as Hloc.
  pose proof (fun fuel => _calc_strip_size_binary64 r fuel Hin) as Hrun.
  unfold aligned_pixels in Hp.
  unfold calc_fuel in Hrun.
  unfold calc_locals in *.
  pose proof (gap_bounds
    (Math_ceil (inject_Z (js_or (render_width r) 1)
                / inject_Z (js_or_field (num_strips r) 1)))
    (Z.abs (js_or_field (num_sub_strips r) 1)) ltac:(lia)) as Hgap.
  split; [reflexivity|].
  split; [destruct (num_strips r); reflexivity|].
  split; [destruct (num_sub_strips r); reflexivity|].
  split; [assumption|]. split; [assumption|]. split; [assumption|].
  split; [exact Hloc|].
  split.
  { intros fuel Hfuel.
    split; [apply _calc_strip_size_fuel_enough; exact Hfuel|].
    destruct (Hrun fuel Hfuel) as (x & Ex & Hx & _ & Estore).
    exists x. repeat split; assumption. }
  split; [rewrite Hp; apply gap_multiple; lia|].
  split; [rewrite Hp; lia|].
  exact Hsize.
Qed.

(** The theorem at 640 pixels, 6 strips and -2 sub-strips: three tests of
    the loop condition are enough. *)
Lemma calc_strip_size_degenerate_witness :
  _calc_strip_size_fuel 3 (example_config 640 480 6 (-2))
  = Some (_calc_strip_size (example_config 640 480 6 (-2))).
Proof.
  assert (within_2_52 (example_config 640 480 6 (-2))) as Hin.
  { repeat split; cbn; try intros n [= <-]; lia. }
  pose proof (calc_strip_size_degenerate (example_config 640 480 6 (-2)) Hin) as H.
  cbv beta iota zeta delta [calc_locals example_config with_num_sub_strips
    with_num_strips with_size blank render_width num_strips num_sub_strips
    js_or js_or_field Z.eqb] in H.
  destruct H as (_ & _ & _ & _ & _ & _ & _ & H & _).
  apply H. exact (le_n 3).
Defined.

(** ** resize *)

(** What [resize] does establish: the new size, a fresh texture of that
    size with every texel zero, and the old handle gone from the store. *)
Lemma resize_spec (r : Renderer) (gl : GL) (width height : Z) :
  let r' := fst (resize r gl width height) in
  let gl' := snd (resize r gl width height) in
  render_width r' = width
  /\ render_height r' = height
  /\ stereo_texture r' = Some (gl_next_texture gl)
  /\ (exists t, gl_textures gl' !! gl_next_texture gl = Some t
                /\ tex_width t = width /\ tex_height t = height
                /\ tex_repeat t = false
                /\ forall i j, texel t i j = black)
  /\ (forall old, stereo_texture r = Some old -> old <> gl_next_texture gl ->
        gl_textures gl' !! old = None).
Proof.
  unfold resize.
  destruct (stereo_texture r) as [old|] eqn:Eold; cbn.
  - repeat split.
    + eexists. rewrite lookup_insert_eq. repeat split.
    + intros old' [= <-] Hne. rewrite lookup_insert_ne by congruence.
      apply lookup_delete_eq.
  - repeat split.
    + eexists. rewrite lookup_insert_eq. repeat split.
    + intros old' [=].
Qed.

(** [resize] and the identifier [gl]. *)
Lemma resize_in_page_first page_gl r gl width height :
  stereo_texture r = None ->
  resize_in_page page_gl r gl width height = Returns (resize r gl width height).
Proof. intros H. unfold resize_in_page. rewrite H. reflexivity. Qed.

Lemma resize_in_page_global r gl width height :
  resize_in_page true r gl width height = Returns (resize r gl width height).
Proof. unfold resize_in_page. destruct (stereo_texture r); reflexivity. Qed.

(** Without a global [gl] every [resize] after the constructor's throws:
    the renderer keeps its texture, of the old size, under the new
    [render_width] and [render_height]. *)
Lemma resize_in_page_throws r gl width height old :
  stereo_texture r = Some old ->
  exists r',
    resize_in_page false r gl width height = Throws (r', gl)
    /\ render_width r' = width /\ render_height r' = height
    /\ stereo_texture r' = Some old.
Proof.
  intros H. unfold resize_in_page. rewrite H.
  eexists. split; [reflexivity|]. repeat split.
Qed.

Lemma resize_again_throws :
  exists r',
    resize_in_page false (fst default_640) (snd default_640) 1000 480
    = Throws (r', snd default_640)
    /\ render_width r' = 1000
    /\ stereo_texture r' = stereo_texture (fst default_640).
Proof.
  destruct (resize_in_page_throws (fst default_640) (snd default_640) 1000 480 0%nat
              eq_refl) as (r' & E & Hw & _ & Ht).
  exists r'. repeat split; assumption.
Qed.

(** [resize] assigns three fields; [strip_size] is not one of them. *)
Lemma resize_keeps_strip_size (r : Renderer) (gl : GL) (width height : Z) :
  strip_size (fst (resize r gl width height)) = strip_size r
  /\ num_strips (fst (resize r gl width height)) = num_strips r
  /\ num_sub_strips (fst (resize r gl width height)) = num_sub_strips r.
Proof.
  unfold resize. destruct (stereo_texture r); cbn; repeat split.
Qed.

(** C9, at the failing input.  A default renderer built for 640 by 480
    and then resized to 1000 by 480 has the new width, but its
    [strip_size] is still 108/640, which is 168.75 pixels of the new
    width; [_calc_strip_size] on the resized object would store
    168/1000. *)
Theorem resize_leaves_strip_size_stale :
  let '(r, gl) := Renderer_new (fresh_GL 640 480) 640 480 in
  let r' := fst (resize r gl 1000 480) in
  render_width r' = 1000
  /\ num_strips r' = Some 6
  /\ num_sub_strips r' = Some 2
  /\ strip_size r' == 108 # 640
  /\ strip_size (_calc_strip_size r') == 168 # 1000
  /\ ~ strip_size r' == strip_size (_calc_strip_size r')
  /\ strip_size r' * inject_Z (render_width r') == 675 # 4.
Proof.
  vm_compute. repeat split; try reflexivity; intros H; discriminate H.
Qed.

(** ** The background mode *)

Lemma call_background_mode (m : method) (s : Renderer * GL) :
  (background_mode (fst s) = BG_NOISE \/ background_mode (fst s) = BG_TILE) ->
  background_mode (fst (call m s)) = BG_NOISE
  \/ background_mode (fst (call m s)) = BG_TILE.
Proof.
  destruct s as [r gl]. intros H.
  destruct m as [w h | n | n | mode | t | x y | sd | f | d];
    cbn [call fst]; try exact H.
  - unfold setNumStrips.
    destruct (_calc_strip_size_fields
      (with_num_strips
         (Some (if n <? 0
                then Math_ceil (8 * inject_Z (render_width r) / 1000)
                else n)) r)) as (_ & _ & _ & _ & _ & ->).
    exact H.
  - unfold setNumSubStrips.
    destruct (_calc_strip_size_fields (with_num_sub_strips (Some n) r))
      as (_ & _ & _ & _ & _ & ->).
    exact H.
  - unfold setBackgroundMode. cbn.
    destruct (loose_eq_number mode (inject_Z BG_NOISE)); auto.
Qed.

Lemma run_background_mode (ms : list method) (s : Renderer * GL) :
  (background_mode (fst s) = BG_NOISE \/ background_mode (fst s) = BG_TILE) ->
  background_mode (fst (run ms s)) = BG_NOISE
  \/ background_mode (fst (run ms s)) = BG_TILE.
Proof.
  revert s. induction ms as [|m ms IH]; intros s H; [exact H|].
  cbn. apply IH. apply call_background_mode. exact H.
Qed.

Lemma Renderer_new_background_mode gl w h :
  background_mode (fst (Renderer_new gl w h)) = BG_NOISE.
Proof.
  unfold Renderer_new. destruct (resize blank gl w h). reflexivity.
Qed.

(** C10.  [setBackgroundMode(mode)] stores [BG_NOISE] exactly when
    [mode == BG_NOISE] and [BG_TILE] otherwise, for every value [mode];
    [undefined] (what the demo's [Stereogram.BG_SCROLL] evaluates to) gives
    [BG_TILE].  After the constructor and any sequence of method calls
    [background_mode] is [BG_NOISE] or [BG_TILE]. *)
Theorem setBackgroundMode_two_valued :
  (forall r mode,
     background_mode (setBackgroundMode r mode)
     = if loose_eq_number mode (inject_Z BG_NOISE) then BG_NOISE else BG_TILE)
  /\ (forall r, background_mode (setBackgroundMode r VUndefined) = BG_TILE)
  /\ (forall gl width height ms,
        let r := fst (run ms (Renderer_new gl width height)) in
        background_mode r = BG_NOISE \/ background_mode r = BG_TILE).
Proof.
  split; [reflexivity|]. split; [reflexivity|].
  intros gl w h ms. apply run_background_mode. left.
  apply Renderer_new_background_mode.
Qed.

(** ** Copying a strip into the stereogram texture *)

Lemma copyTexSubImage2D_calls tex xo yo x y w h gl :
  gl_calls (copyTexSubImage2D tex xo yo x y w h gl)
  = gl_calls gl ++ [CopyTexSubImage2D tex xo yo x y w h].
Proof.
  unfold copyTexSubImage2D.
  destruct tex as [id|]; [|reflexivity].
  destruct (gl_textures gl !! id); [|reflexivity].
  match goal with |- context [if ?b then _ else _] => destruct b end;
    reflexivity.
Qed.

Lemma copyTexSubImage2D_frame tex xo yo x y w h gl :
  gl_width (copyTexSubImage2D tex xo yo x y w h gl) = gl_width gl
  /\ gl_height (copyTexSubImage2D tex xo yo x y w h gl) = gl_height gl
  /\ gl_framebuffer (copyTexSubImage2D tex xo yo x y w h gl) = gl_framebuffer gl
  /\ gl_sin (copyTexSubImage2D tex xo yo x y w h gl) = gl_sin gl
  /\ gl_next_texture (copyTexSubImage2D tex xo yo x y w h gl) = gl_next_texture gl.
Proof.
  unfold copyTexSubImage2D.
  destruct tex as [id|]; [|repeat split].
  destruct (gl_textures gl !! id); [|repeat split].
  match goal with |- context [if ?b then _ else _] => destruct b end;
    repeat split.
Qed.

Lemma copyTexSubImage2D_other tex xo yo x y w h gl id :
  tex <> Some id ->
  gl_textures (copyTexSubImage2D tex xo yo x y w h gl) !! id
  = gl_textures gl !! id.
Proof.
  intros Hne. unfold copyTexSubImage2D.
  destruct tex as [id'|]; [|reflexivity].
  destruct (gl_textures gl !! id') eqn:E; [|reflexivity].
  match goal with |- context [if ?b then _ else _] => destruct b end;
    [|reflexivity].
  cbn. apply lookup_insert_ne. congruence.
Qed.

Lemma _copy_strip_call r gl x width :
  gl_calls (_copy_strip_to_stereo_texture r gl x (Some width))
  = gl_calls gl ++ [copy_call r x width].
Proof.
  unfold _copy_strip_to_stereo_texture, copy_call.
  rewrite copyTexSubImage2D_calls. repeat f_equal.
  destruct (Z.gtb_spec width (render_width r - x)); lia.
Qed.

(** After the copy, a texel of the stereogram texture holds the
    framebuffer pixel if it lies in the clamped rectangle, and what it
    held before otherwise. *)
Lemma _copy_strip_texels (r : Renderer) (gl : GL) (x width : Z) :
  ready r gl ->
  0 <= x ->
  forall i j,
    stereo_texel r (_copy_strip_to_stereo_texture r gl x (Some width)) i j
    = if (x <=? i) && (i <? x + Z.min width (render_width r - x))
         && (0 <=? j) && (j <? render_height r)
      then Some (gl_framebuffer gl i j)
      else stereo_texel r gl i j.
Proof.
  intros (Hw & Hh & Hgw & Hgh & id & t & Hid & Ht & Htw & Hth & _) Hx i j.
  set (n := Z.min width (render_width r - x)).
  assert (_copy_strip_to_stereo_texture r gl x (Some width)
          = copyTexSubImage2D (Some id) x 0 x 0 n (render_height r) gl) as E.
  { subst n. unfold _copy_strip_to_stereo_texture. rewrite Hid. f_equal.
    destruct (Z.gtb_spec width (render_width r - x)); lia. }
  rewrite E. unfold stereo_texel, copyTexSubImage2D.
  rewrite Hid, Ht, Htw, Hth, Hgw, Hgh.
  destruct (Z.leb_spec 0 n) as [Hn|Hn].
  - replace ((0 <=? x) && (0 <=? 0) && true && (0 <=? render_height r)
             && (x + n <=? render_width r)
             && (0 + render_height r <=? render_height r)) with true
      by (symmetry; repeat (apply andb_true_intro; split);
          first [reflexivity | apply Z.leb_le; lia]).
    cbn. rewrite lookup_insert_eq. cbn. unfold in_range.
    destruct (Z.leb_spec x i), (Z.ltb_spec i (x + n)),
      (Z.leb_spec 0 j), (Z.ltb_spec j (0 + render_height r)),
      (Z.ltb_spec j (render_height r)); cbn; try lia; try reflexivity.
    replace (x + (i - x)) with i by lia.
    replace (0 + (j - 0)) with j by lia.
    destruct (Z.leb_spec 0 i), (Z.ltb_spec i (0 + render_width r)),
      (Z.leb_spec 0 j), (Z.ltb_spec j (0 + render_height r));
      cbn; try lia; reflexivity.
  - rewrite !andb_false_r. cbn. rewrite Ht.
    destruct (Z.leb_spec x i), (Z.ltb_spec i (x + n)); cbn;
      try lia; reflexivity.
Qed.

(** C4.  For every [x] with [0 <= x <= render_width] and every [width],
    [_copy_strip_to_stereo_texture(x, width)] on a renderer whose texture
    and canvas have the render size copies the framebuffer into exactly the
    columns [x], ..., [x + n - 1] of the stereogram texture, where
    [n = min(width, render_width - x)] (all rows of them, and [n] columns
    in number when [width] is not negative): every other texel of that
    texture, every other texture and the framebuffer keep their contents.
    The columns written lie in [0, render_width).  The function has no
    throwing path: it returns a context for every input. *)
Theorem copy_strip_clamped (r : Renderer) (gl : GL) (x width : Z) :
  ready r gl ->
  0 <= x <= render_width r ->
  let n := Z.min width (render_width r - x) in
  let gl' := _copy_strip_to_stereo_texture r gl x (Some width) in
  (forall i j, x <= i < x + n -> 0 <= j < render_height r ->
     stereo_texel r gl' i j = Some (gl_framebuffer gl i j))
  /\ (forall i j, ~ (x <= i < x + n /\ 0 <= j < render_height r) ->
        stereo_texel r gl' i j = stereo_texel r gl i j)
  /\ (forall i, x <= i < x + n -> 0 <= i < render_width r)
  /\ (0 <= width -> Z.of_nat (length (seqZ x n)) = n)
  /\ (forall id, stereo_texture r <> Some id ->
        gl_textures gl' !! id = gl_textures gl !! id)
  /\ gl_framebuffer gl' = gl_framebuffer gl
  /\ gl_calls gl'
     = gl_calls gl
       ++ [CopyTexSubImage2D (stereo_texture r) x 0 x 0 n (render_height r)].
Proof.
  intros Hready Hx n gl'.
  pose proof (_copy_strip_texels r gl x width Hready (proj1 Hx)) as Htexel.
  fold n gl' in Htexel.
  split; [|split; [|split; [|split; [|split; [|split]]]]].
  - intros i j Hi Hj. rewrite Htexel.
    destruct (Z.leb_spec x i), (Z.ltb_spec i (x + n)),
      (Z.leb_spec 0 j), (Z.ltb_spec j (render_height r)); cbn; try lia;
      reflexivity.
  - intros i j Hout. rewrite Htexel.
    destruct (Z.leb_spec x i), (Z.ltb_spec i (x + n)),
      (Z.leb_spec 0 j), (Z.ltb_spec j (render_height r)); cbn; try lia;
      reflexivity.
  - intros i Hi. subst n. lia.
  - intros Hwidth. rewrite length_seqZ. subst n. lia.
  - intros id' Hne. subst gl'. unfold _copy_strip_to_stereo_texture.
    apply copyTexSubImage2D_other. exact Hne.
  - subst gl'. unfold _copy_strip_to_stereo_texture.
    apply copyTexSubImage2D_frame.
  - subst gl'. rewrite _copy_strip_call. reflexivity.
Qed.

(** ** The sequence of calls made by render *)

Lemma _render_reference_strip_calls r gl nss :
  num_sub_strips r = Some nss ->
  gl_calls (_render_reference_strip r gl (strip_size r))
  = gl_calls gl ++ reference_step r nss.
Proof.
  intros Hnss. unfold _render_reference_strip. rewrite Hnss.
  cbn [plus_field]. rewrite _copy_strip_call.
  unfold drawArrays, reference_step.
  cbn [map quad_vtx quad_uv nth gl_log gl_calls].
  rewrite <- app_assoc. reflexivity.
Qed.







(** The loops visit the sub-strips [nss], [nss + 1], ... in order. *)
Lemma strip_indices_consecutive ns nss :
  1 <= ns -> 0 <= nss ->
  strip_indices ns nss = seqZ nss ((ns - 1) * nss).
Proof.
  intros Hns Hnss. unfold strip_indices.
  replace (ns - 1) with (Z.of_nat (Z.to_nat (ns - 1))) by lia.
  generalize (Z.to_nat (ns - 1)) as k. intros k.
  induction k as [|k IH].
  - rewrite (seqZ_nil 1), (seqZ_nil nss) by (cbn; lia). reflexivity.
  - rewrite seqZ_S, flat_map_app, IH. cbn [flat_map].
    rewrite app_nil_r.
    replace (Z.of_nat (S k) * nss) with (Z.of_nat k * nss + nss) by lia.
    rewrite seqZ_app by lia. f_equal.
    change (map (fun sub => nss * (1 + Z.of_nat k) + sub) (seqZ 0 nss))
      with (Z.add (nss * (1 + Z.of_nat k)) <$> seqZ 0 nss).
    rewrite fmap_add_seqZ. f_equal. lia.
Qed.





(** The loops, sub-strip by sub-strip. *)
Lemma fold_left_map_list {A B S} (f : S -> B -> S) (g : A -> B) l s :
  fold_left f (map g l) s = fold_left (fun s a => f s (g a)) l s.
Proof. revert s. induction l as [|a l IH]; intros s; cbn; [reflexivity|apply IH]. Qed.

Lemma nested_for_loops_flat (body : Z -> GL -> GL) ns nss gl :
  for_loop 1 ns
    (fun strip g => for_loop 0 nss (fun sub g => body (nss * strip + sub) g) g)
    gl
  = fold_left (fun g num => body num g) (strip_indices ns nss) gl.
Proof.
  unfold for_loop, strip_indices. rewrite Z.sub_0_r.
  generalize (seqZ 1 (ns - 1)) as l. intros l. revert gl.
  induction l as [|strip l IH]; intros gl; cbn; [reflexivity|].
  rewrite fold_left_app, fold_left_map_list. apply IH.
Qed.










(** ** Pixels covered by a quad *)

Lemma pixel_center_bounds i n :
  0 <= i < n -> (0 < pixel_center i n /\ pixel_center i n < 1)%Q.
Proof.
  intros [Hi Hn]. unfold pixel_center.
  assert (0 < inject_Z n)%Q as HnQ by (apply inject_Z_pos; lia).
  assert (0 <= inject_Z i)%Q as HiQ by (rewrite Zle_Qle in Hi; exact Hi).
  assert (inject_Z i + 1 <= inject_Z n)%Q as Hle.
  { assert (i + 1 <= n) as H by lia. rewrite Zle_Qle, inject_Z_plus in H.
    exact H. }
  split.
  - apply Qlt_shift_div_l; [assumption|]. lra.
  - apply Qlt_shift_div_r; [assumption|]. lra.
Qed.

Lemma covers_true lo hi i n :
  0 <= i < n -> (lo <= pixel_center i n)%Q -> (pixel_center i n < hi)%Q ->
  covers lo hi i n = true.
Proof.
  intros [Hi Hn] Hlo Hhi. unfold covers, Qltb.
  apply Qle_bool_iff in Hlo. rewrite Hlo.
  destruct (Qle_bool hi (pixel_center i n)) eqn:E.
  - apply Qle_bool_iff in E. exfalso. exact (Qle_not_lt _ _ E Hhi).
  - destruct (Z.leb_spec 0 i), (Z.ltb_spec i n); first [reflexivity | lia].
Qed.

Lemma drawArrays_frame prog position uv fragment gl :
  gl_textures (drawArrays prog position uv fragment gl) = gl_textures gl
  /\ gl_width (drawArrays prog position uv fragment gl) = gl_width gl
  /\ gl_height (drawArrays prog position uv fragment gl) = gl_height gl
  /\ gl_sin (drawArrays prog position uv fragment gl) = gl_sin gl
  /\ gl_next_texture (drawArrays prog position uv fragment gl) = gl_next_texture gl.
Proof.
  unfold drawArrays.
  destruct (nth 0 position (0, 0, 0)%Q) as [[x0 y0] z0].
  destruct (nth 2 position (0, 0, 0)%Q) as [[x1 y1] z1].
  destruct (nth 0 uv (0, 0)%Q) as [u0 v0].
  destruct (nth 2 uv (0, 0)%Q) as [u1 v1].
  repeat split.
Qed.

Lemma ready_frame r gl gl' :
  gl_textures gl' = gl_textures gl ->
  gl_width gl' = gl_width gl -> gl_height gl' = gl_height gl ->
  ready r gl -> ready r gl'.
Proof.
  intros Ht Hw Hh (H1 & H2 & H3 & H4 & id & t & H5 & H6 & H7 & H8 & H9).
  unfold ready. rewrite Ht, Hw, Hh. repeat split; try assumption.
  exists id, t. repeat split; assumption.
Qed.

Lemma ready_fields r r' gl :
  render_width r' = render_width r -> render_height r' = render_height r ->
  stereo_texture r' = stereo_texture r ->
  ready r gl -> ready r' gl.
Proof.
  intros Hw Hh Ht. unfold ready. rewrite Hw, Hh, Ht. auto.
Qed.

(** ** A single strip *)

Lemma Math_ceil_div_1 a : Math_ceil (inject_Z a / inject_Z 1) = a.
Proof.
  destruct (Math_ceil_div_bounds a 1 ltac:(lia)) as [H1 H2].
  remember (Math_ceil (inject_Z a / inject_Z 1)) as c eqn:E. clear E. lia.
Qed.

Lemma Qfloor_div_mul p w :
  w <> 0 -> Math_floor (inject_Z p / inject_Z w * inject_Z w) = p.
Proof.
  intros Hw. unfold Math_floor.
  rewrite <- (Qfloor_Z p) at 2. apply Qfloor_comp.
  field. intros E. apply Hw.
  unfold Qeq in E. simpl in E. lia.
Qed.

Lemma Qdiv_ge_1 p w :
  0 < w -> w <= p -> (1 <= inject_Z p / inject_Z w)%Q.
Proof.
  intros Hw Hp. apply Qle_shift_div_l; [apply inject_Z_pos; assumption|].
  rewrite Qmult_1_l. rewrite Zle_Qle in Hp. exact Hp.
Qed.

(** C8.  After [setNumStrips(1)] on a ready renderer of width at least
    1 (with [num_sub_strips >= 0]), [render] clears, draws the reference
    strip once with the background shader, and copies all [render_width]
    columns; it makes no other call, so the stereo shader is never run.
    The strip is at least as wide as the canvas, and afterwards every
    texel of the stereogram texture holds the background shader's colour
    for its pixel. *)
Theorem render_single_strip (r0 : Renderer) (gl : GL)
    (depth_map : option texid) (nss : Z) :
  ready r0 gl ->
  1 <= render_width r0 ->
  num_sub_strips r0 = Some nss -> 0 <= nss ->
  let r := setNumStrips r0 1 in
  let gl' := render r gl depth_map in
  num_strips r = Some 1
  /\ gl_calls gl'
     = gl_calls gl
       ++ [Clear;
           DrawArrays
             (if background_mode r =? BG_NOISE then NoiseShader else TextureShader)
             (0 * strip_size r) (1 * strip_size r);
           CopyTexSubImage2D (stereo_texture r) 0 0 0 0
             (render_width r) (render_height r)]
  /\ (1 <= strip_size r)%Q
  /\ (forall i j, 0 <= i < render_width r -> 0 <= j < render_height r ->
        stereo_texel r gl' i j = Some (reference_color r gl i j)).
Proof.
  intros Hready Hrw Hnss Hnss0 r gl'.
  assert (r = _calc_strip_size (with_num_strips (Some 1) r0)) as Er by reflexivity.
  destruct (_calc_strip_size_fields (with_num_strips (Some 1) r0))
    as (Fw & Fh & Ft & Fns & Fnss & Fbg).
  rewrite <- Er in Fw, Fh, Ft, Fns, Fnss, Fbg.
  cbn [with_num_strips render_width render_height stereo_texture num_strips
       num_sub_strips background_mode] in Fw, Fh, Ft, Fns, Fnss, Fbg.
  rewrite Hnss in Fnss.
  (* the geometry *)
  pose proof (_calc_strip_size_strip_size (with_num_strips (Some 1) r0)) as Hsize.
  pose proof (strip_size_pixels_eq (with_num_strips (Some 1) r0)) as Hp.
  unfold aligned_pixels, calc_locals in Hp.
  cbn [with_num_strips render_width num_strips num_sub_strips js_or_field]
    in Hp, Hsize.
  replace (js_or (render_width r0) 1) with (render_width r0) in Hp, Hsize
    by (unfold js_or; destruct (Z.eqb_spec (render_width r0) 0); lia).
  change (js_or 1 1) with 1 in Hp. rewrite Math_ceil_div_1, Hnss in Hp.
  pose proof (gap_bounds (render_width r0) (Z.abs (js_or_field (Some nss) 1))
                ltac:(pose proof (js_or_field_nonzero (Some nss)); lia)) as Hgap.
  rewrite <- Er in Hsize.
  set (p := strip_size_pixels (with_num_strips (Some 1) r0)) in *.
  assert (render_width r0 <= p) as Hp' by lia. clear Hp Hgap.
  assert (1 <= strip_size r)%Q as HS
    by (rewrite Hsize; apply Qdiv_ge_1; lia).
  assert (Math_floor (strip_size r * inject_Z (render_width r)) = p) as Hfloor
    by (rewrite Hsize, Fw; apply Qfloor_div_mul; lia).
  (* the calls *)
  assert (ready r gl) as Hr
    by (apply (ready_fields r0); [exact Fw | exact Fh | exact Ft | exact Hready]).
  assert (gl' = _render_reference_strip r (clear gl) (strip_size r)) as Egl.
  { subst gl'. unfold render, render_stereo_strips. rewrite Fns, Fnss.
    unfold for_loop. rewrite (seqZ_nil 1) by lia. reflexivity. }
  split; [exact Fns|]. split.
  { rewrite Egl, (_render_reference_strip_calls _ _ nss Fnss).
    unfold reference_step, copy_call. rewrite Hfloor, Fw.
    cbn [clear gl_log gl_calls gl_set_framebuffer].
    rewrite <- app_assoc. cbn [app]. repeat f_equal. lia. }
  split; [exact HS|].
  intros i j Hi Hj. rewrite Egl. unfold _render_reference_strip.
  rewrite Fnss. cbn [plus_field].
  match goal with
  | |- stereo_texel r (_copy_strip_to_stereo_texture r ?g 0 (Some ?w)) i j = _ =>
      assert (ready r g) as Hg;
      [ destruct (drawArrays_frame
          (if background_mode r =? BG_NOISE then NoiseShader else TextureShader)
          (map (fun '(x, y, z) => (x * strip_size r, y, z)%Q) quad_vtx)
          (map (fun '(u, v) =>
                  ((if background_mode r =? BG_NOISE then 0 else bg_scroll_x r) + u,
                   (if background_mode r =? BG_NOISE then 0 else bg_scroll_y r)
                   + v / strip_size r)%Q) quad_uv)
          (if background_mode r =? BG_NOISE
           then noise_fragment (clear gl) (noise_seed r)
           else texture_fragment (clear gl) (tile_texture r))
          (clear gl)) as (Dt & Dw & Dh & _);
        apply (ready_frame r gl); [rewrite Dt | rewrite Dw | rewrite Dh |];
        (reflexivity || exact Hr)
      | rewrite (_copy_strip_texels r g 0 w Hg ltac:(lia)) ]
  end.
  rewrite Hfloor.
  replace ((0 <=? i) && (i <? 0 + Z.min (p + nss) (render_width r - 0))
           && (0 <=? j) && (j <? render_height r)) with true
    by (symmetry; repeat (apply andb_true_intro; split);
        first [apply Z.leb_le; lia | apply Z.ltb_lt; lia]).
  f_equal. unfold drawArrays, reference_color.
  cbn [map quad_vtx quad_uv nth gl_log gl_framebuffer gl_set_framebuffer
       gl_width gl_height clear].
  destruct Hr as (_ & _ & Gw & Gh & _). rewrite Gw, Gh, Fw, Fh.
  destruct (pixel_center_bounds i (render_width r0) ltac:(lia)) as [Hc0 Hc1].
  destruct (pixel_center_bounds j (render_height r0) ltac:(lia)) as [Hr0 Hr1].
  rewrite (covers_true (0 * strip_size r) (1 * strip_size r))
    by (try lia; lra).
  rewrite (covers_true 0 1) by (try lia; lra).
  cbn [andb].
  destruct (background_mode r =? BG_NOISE); reflexivity.
Qed.

(** ** The displacement shader *)

Lemma interpolate_identity p p0 p1 :
  ~ p1 - p0 == 0 -> interpolate p p0 p1 p0 p1 == p.
Proof. intros H. unfold interpolate. rewrite Qred_correct. field. exact H. Qed.

Lemma _render_stereo_strip_framebuffer r u gl num sub :
  gl_framebuffer (_render_stereo_strip r u gl num sub)
  = gl_framebuffer
      (drawArrays StereoShader
         (map (fun '(x, y, z) => ((x + inject_Z num) * sub, y, z)%Q) quad_vtx)
         (map (fun '(s, t) => ((s + inject_Z num) * sub, t)%Q) quad_uv)
         (stereo_fragment gl u) gl).
Proof.
  unfold _render_stereo_strip, _copy_strip_to_stereo_texture.
  apply copyTexSubImage2D_frame.
Qed.

(** C2.  [render] sets the stereo shader's [strip_size] to the
    renderer's [strip_size], [depth_strip_size] to [1 / (num_strips + 1)],
    [depth_factor], and the two textures.  For every pixel ([i], [j]) that
    the quad of sub-strip [num] covers, the fragment's [frag_uv] is the
    pixel's centre in the unit square, and the colour written is the
    stereogram texture sampled at [(frag_x + delta - strip_size, frag_y)],
    where [delta] is [depth_factor] times the red channel of the depth
    map sampled at
    [((frag_x / depth_strip_size - 1) * strip_size, frag_y)]. *)
Theorem stereo_shader_pixel (r : Renderer) (gl : GL)
    (depth_map : option texid) (ns nss num i j : Z) :
  num_strips r = Some ns ->
  num_sub_strips r = Some nss ->
  ~ strip_size r / inject_Z nss == 0 ->
  let u := stereo_uniforms r depth_map in
  let sub := (strip_size r / inject_Z nss)%Q in
  covers ((0 + inject_Z num) * sub) ((1 + inject_Z num) * sub) i (gl_width gl)
    = true ->
  covers 0 1 j (gl_height gl) = true ->
  u_depth_strip_size u = (1 / (inject_Z ns + 1))%Q
  /\ u_strip_size u = strip_size r
  /\ u_depth_factor u = depth_factor r
  /\ u_depth_texture u = depth_map
  /\ u_stereo_texture u = stereo_texture r
  /\ exists frag_x frag_y,
       frag_x == pixel_center i (gl_width gl)
       /\ frag_y == pixel_center j (gl_height gl)
       /\ let depth_uv :=
            ((frag_x / u_depth_strip_size u - 1) * u_strip_size u, frag_y)%Q in
          let delta :=
            (vr (texture2D gl depth_map depth_uv) * depth_factor r)%Q in
          gl_framebuffer (_render_stereo_strip r u gl num sub) i j
          = to_color (texture2D gl (stereo_texture r)
                        (frag_x + delta - u_strip_size u, frag_y)%Q).
Proof.
  intros Hns Hnss Hsub u sub Hi Hj.
  assert (u_depth_strip_size u = (1 / (inject_Z ns + 1))%Q) as Hd
    by (subst u; unfold stereo_uniforms; rewrite Hns; reflexivity).
  split; [exact Hd|]. repeat (split; [reflexivity|]).
  exists (interpolate (pixel_center i (gl_width gl))
            ((0 + inject_Z num) * sub) ((1 + inject_Z num) * sub)
            ((0 + inject_Z num) * sub) ((1 + inject_Z num) * sub)),
         (interpolate (pixel_center j (gl_height gl)) 0 1 0 1).
  split; [|split].
  - apply interpolate_identity. intros E. apply Hsub. fold sub.
    rewrite <- E. ring.
  - apply interpolate_identity. intros E. discriminate E.
  - cbv zeta. rewrite _render_stereo_strip_framebuffer.
    unfold drawArrays.
    cbn [map quad_vtx quad_uv nth gl_log gl_framebuffer gl_set_framebuffer].
    fold sub. rewrite Hi, Hj. cbn [andb]. reflexivity.
Qed.

(** The theorem at pixel (5, 0) of the second strip of [wide_shift]. *)
Lemma stereo_shader_pixel_witness :
  u_depth_strip_size (stereo_uniforms (fst wide_shift) (Some 1%nat))
  = (1 / (inject_Z 2 + 1))%Q.
Proof.
  refine (proj1 (stereo_shader_pixel (fst wide_shift) (snd wide_shift)
                   (Some 1%nat) 2 1 1 5 0 eq_refl eq_refl _ eq_refl eq_refl)).
  vm_compute. discriminate.
Defined.

(** C6 fails as stated.  On [wide_shift] every stereo pixel reads the
    stereogram texture two columns to its left.  Column 7 reads column 5,
    which the call has drawn but not yet copied: the first [render] finds
    the zeros the texture was created with there, the second finds what
    the first one left.  Same configuration, depth map and background;
    the two results differ in column 7.  The same happens with the
    default depth factor on [one_sub_strip], in column 149. *)
Lemma render_twice_differs :
  let r := fst wide_shift in
  let frame1 := render r (snd wide_shift) (Some 1%nat) in
  let frame2 := render r frame1 (Some 1%nat) in
  let r' := fst one_sub_strip in
  let frame1' := render r' (snd one_sub_strip) (Some 1%nat) in
  let frame2' := render r' frame1' (Some 1%nat) in
  map (fun i => stereo_texel r frame1 i 0) (seqZ 0 8)
  = map Some [white; white; white; white; white; white; black; black]
  /\ map (fun i => stereo_texel r frame2 i 0) (seqZ 0 8)
     = map Some [white; white; white; white; white; white; black; white]
  /\ stereo_texel r frame1 7 0 <> stereo_texel r frame2 7 0
  /\ depth_factor r' == 1 # 75
  /\ stereo_texel r' frame1' 149 0 = Some black
  /\ stereo_texel r' frame2' 149 0 = Some white.
Proof.
  vm_compute. repeat split; try reflexivity. discriminate.
Qed.

(** ** render as a function of what it reads *)

Lemma sample_same t1 t2 uv : same_texels t1 t2 -> sample t1 uv = sample t2 uv.
Proof.
  intros (Hw & Hh & Hr & Ht). unfold sample.
  rewrite Hw, Hh, Hr. rewrite !Ht. reflexivity.
Qed.

Lemma texture2D_same gl1 gl2 tex uv :
  same_inputs gl1 gl2 -> texture2D gl1 tex uv = texture2D gl2 tex uv.
Proof.
  intros (Ht & _). unfold texture2D. destruct tex as [id|]; [|reflexivity].
  specialize (Ht id).
  destruct (gl_textures gl1 !! id), (gl_textures gl2 !! id);
    try contradiction; [|reflexivity].
  apply sample_same. exact Ht.
Qed.

Lemma stereo_fragment_same gl1 gl2 u uv :
  same_inputs gl1 gl2 -> stereo_fragment gl1 u uv = stereo_fragment gl2 u uv.
Proof.
  intros H. unfold stereo_fragment.
  rewrite !(texture2D_same gl1 gl2) by exact H. reflexivity.
Qed.

Lemma noise_fragment_same gl1 gl2 seed uv :
  same_inputs gl1 gl2 -> noise_fragment gl1 seed uv = noise_fragment gl2 seed uv.
Proof.
  intros (_ & _ & _ & Hsin). unfold noise_fragment, rand.
  rewrite Hsin. reflexivity.
Qed.

Lemma drawArrays_same prog position uv f1 f2 gl1 gl2 :
  same_inputs gl1 gl2 -> same_pixels gl1 gl2 ->
  (forall p, f1 p = f2 p) ->
  same_inputs (drawArrays prog position uv f1 gl1)
              (drawArrays prog position uv f2 gl2)
  /\ same_pixels (drawArrays prog position uv f1 gl1)
                 (drawArrays prog position uv f2 gl2).
Proof.
  intros (Ht & Hw & Hh & Hsin) Hfb Hf. unfold drawArrays.
  destruct (nth 0 position (0, 0, 0)%Q) as [[x0 y0] z0].
  destruct (nth 2 position (0, 0, 0)%Q) as [[x1 y1] z1].
  destruct (nth 0 uv (0, 0)%Q) as [u0 v0].
  destruct (nth 2 uv (0, 0)%Q) as [u1 v1].
  split.
  - repeat split; assumption.
  - intros i j. cbn. rewrite Hw, Hh, Hf, Hfb. reflexivity.
Qed.

Lemma copyTexSubImage2D_same tex xo yo x y w h gl1 gl2 :
  same_inputs gl1 gl2 -> same_pixels gl1 gl2 ->
  same_inputs (copyTexSubImage2D tex xo yo x y w h gl1)
              (copyTexSubImage2D tex xo yo x y w h gl2)
  /\ same_pixels (copyTexSubImage2D tex xo yo x y w h gl1)
                 (copyTexSubImage2D tex xo yo x y w h gl2).
Proof.
  intros (Ht & Hw & Hh & Hsin) Hfb.
  split.
  2: { intros i j.
       destruct (copyTexSubImage2D_frame tex xo yo x y w h gl1) as (_ & _ & -> & _).
       destruct (copyTexSubImage2D_frame tex xo yo x y w h gl2) as (_ & _ & -> & _).
       apply Hfb. }
  destruct (copyTexSubImage2D_frame tex xo yo x y w h gl1) as (W1 & H1 & _ & S1 & _).
  destruct (copyTexSubImage2D_frame tex xo yo x y w h gl2) as (W2 & H2 & _ & S2 & _).
  split; [|rewrite W1, W2, H1, H2, S1, S2; repeat split; assumption].
  intros id'.
  destruct tex as [id|]; [|exact (Ht id')].
  destruct (decide (id = id')) as [<-|Hne].
  2: { rewrite !copyTexSubImage2D_other by congruence. exact (Ht id'). }
  pose proof (Ht id) as Hid. unfold copyTexSubImage2D.
  destruct (gl_textures gl1 !! id) as [t1|] eqn:E1,
           (gl_textures gl2 !! id) as [t2|] eqn:E2; try contradiction.
  - destruct Hid as (Tw & Th & Tr & Tt). rewrite Tw, Th.
    match goal with |- context [if ?b then _ else _] => destruct b end.
    + cbn. rewrite !lookup_insert_eq. repeat split; try assumption.
      intros i j. cbn. rewrite Hw, Hh, Hfb, Tt. reflexivity.
    + cbn. rewrite E1, E2. repeat split; assumption.
  - cbn. rewrite E1, E2. exact I.
Qed.

Lemma _copy_strip_same r x width gl1 gl2 :
  same_state gl1 gl2 ->
  same_state (_copy_strip_to_stereo_texture r gl1 x width)
             (_copy_strip_to_stereo_texture r gl2 x width).
Proof.
  intros [Hi Hp]. unfold _copy_strip_to_stereo_texture.
  apply copyTexSubImage2D_same; assumption.
Qed.

Lemma _render_reference_strip_same r s gl1 gl2 :
  same_state gl1 gl2 ->
  same_state (_render_reference_strip r gl1 s) (_render_reference_strip r gl2 s).
Proof.
  intros [Hi Hp]. unfold _render_reference_strip.
  apply _copy_strip_same. apply drawArrays_same; try assumption.
  intros p. destruct (background_mode r =? BG_NOISE).
  - apply noise_fragment_same. exact Hi.
  - apply texture2D_same. exact Hi.
Qed.

Lemma _render_stereo_strip_same r u num s gl1 gl2 :
  same_state gl1 gl2 ->
  same_state (_render_stereo_strip r u gl1 num s)
             (_render_stereo_strip r u gl2 num s).
Proof.
  intros [Hi Hp]. unfold _render_stereo_strip.
  apply _copy_strip_same. apply drawArrays_same; try assumption.
  intros p. apply stereo_fragment_same. exact Hi.
Qed.

Lemma for_loop_same start stop (body : Z -> GL -> GL) gl1 gl2 :
  (forall i g1 g2, same_state g1 g2 -> same_state (body i g1) (body i g2)) ->
  same_state gl1 gl2 ->
  same_state (for_loop start stop body gl1) (for_loop start stop body gl2).
Proof.
  intros Hbody. unfold for_loop.
  generalize (seqZ start (stop - start)) as l. intros l. revert gl1 gl2.
  induction l as [|i l IH]; intros gl1 gl2 H; cbn; [exact H|].
  apply IH. apply Hbody. exact H.
Qed.

Lemma clear_same gl1 gl2 :
  same_inputs gl1 gl2 -> same_state (clear gl1) (clear gl2).
Proof.
  intros (Ht & Hw & Hh & Hsin). split.
  - repeat split; assumption.
  - intros i j. reflexivity.
Qed.

(** C6, as amended.  [render] is a function of the configuration and of
    what the context holds when it is called, the contents of the
    stereogram texture included: from two contexts with the same textures
    (depth map, tile and stereogram texture), buffer size and sine, it
    leaves the same textures and the same framebuffer, whatever the
    framebuffer held before.  There is no other state. *)
Theorem render_deterministic (r : Renderer) (depth_map : option texid)
    (gl1 gl2 : GL) :
  same_inputs gl1 gl2 ->
  same_inputs (render r gl1 depth_map) (render r gl2 depth_map)
  /\ same_pixels (render r gl1 depth_map) (render r gl2 depth_map)
  /\ forall i j,
       stereo_texel r (render r gl1 depth_map) i j
       = stereo_texel r (render r gl2 depth_map) i j.
Proof.
  intros H.
  assert (same_state (render r gl1 depth_map) (render r gl2 depth_map)) as [Hi Hp].
  { unfold render, render_stereo_strips.
    pose proof (_render_reference_strip_same r (strip_size r) _ _
                  (clear_same gl1 gl2 H)) as Href.
    destruct (num_strips r) as [ns|]; [|exact Href].
    destruct (num_sub_strips r) as [nss|]; [|exact Href].
    apply for_loop_same; [|exact Href].
    intros strip g1 g2 Hg. apply for_loop_same; [|exact Hg].
    intros sub g1' g2' Hg'. apply _render_stereo_strip_same. exact Hg'. }
  split; [exact Hi|]. split; [exact Hp|].
  intros i j. unfold stereo_texel.
  destruct (stereo_texture r) as [id|]; [|reflexivity].
  destruct Hi as (Ht & _). specialize (Ht id).
  destruct (gl_textures (render r gl1 depth_map) !! id),
           (gl_textures (render r gl2 depth_map) !! id);
    try contradiction; [|reflexivity].
  destruct Ht as (_ & _ & _ & Ht). rewrite Ht. reflexivity.
Qed.

Lemma same_inputs_framebuffer gl fb :
  same_inputs gl (gl_set_framebuffer fb gl).
Proof.
  repeat split. intros id. cbn.
  destruct (gl_textures gl !! id); repeat split.
Qed.

(** The theorem on [wide_shift], from a black and from a white
    framebuffer. *)
Lemma render_deterministic_witness :
  stereo_texel (fst wide_shift)
    (render (fst wide_shift) (snd wide_shift) (Some 1%nat)) 7 0
  = stereo_texel (fst wide_shift)
      (render (fst wide_shift)
         (gl_set_framebuffer (fun _ _ => white) (snd wide_shift))
         (Some 1%nat)) 7 0.
Proof.
  exact (proj2 (proj2
    (render_deterministic (fst wide_shift) (Some 1%nat) (snd wide_shift)
       (gl_set_framebuffer (fun _ _ => white) (snd wide_shift))
       (same_inputs_framebuffer (snd wide_shift) (fun _ _ => white)))) 7 0).
Defined.

(** ** Reaching a ready state *)

Lemma resize_ready r gl width height :
  0 <= width -> 0 <= height ->
  gl_width gl = width -> gl_height gl = height ->
  ready (fst (resize r gl width height)) (snd (resize r gl width height)).
Proof.
  intros Hw Hh Gw Gh.
  destruct (resize_spec r gl width height)
    as (Rw & Rh & Rt & (t & Ht & Tw & Th & Tr & _) & _).
  unfold ready. rewrite Rw, Rh.
  split; [exact Hw|]. split; [exact Hh|].
  split; [unfold resize; destruct (stereo_texture r); exact Gw|].
  split; [unfold resize; destruct (stereo_texture r); exact Gh|].
  exists (gl_next_texture gl), t. repeat split; assumption.
Qed.

Lemma setNumStrips_ready r gl n : ready r gl -> ready (setNumStrips r n) gl.
Proof.
  unfold setNumStrips.
  destruct (_calc_strip_size_fields
    (with_num_strips
       (Some (if n <? 0
              then Math_ceil (8 * inject_Z (render_width r) / 1000)
              else n)) r)) as (Fw & Fh & Ft & _).
  apply ready_fields; assumption.
Qed.

Lemma setNumSubStrips_ready r gl n : ready r gl -> ready (setNumSubStrips r n) gl.
Proof.
  unfold setNumSubStrips.
  destruct (_calc_strip_size_fields (with_num_sub_strips (Some n) r))
    as (Fw & Fh & Ft & _).
  apply ready_fields; assumption.
Qed.

Lemma Renderer_new_ready gl width height :
  0 <= width -> 0 <= height ->
  gl_width gl = width -> gl_height gl = height ->
  ready (fst (Renderer_new gl width height)) (snd (Renderer_new gl width height)).
Proof.
  intros Hw Hh Gw Gh.
  pose proof (resize_ready blank gl width height Hw Hh Gw Gh) as H.
  unfold Renderer_new. destruct (resize blank gl width height) as [r gl'].
  cbn [fst snd] in *.
  apply (ready_fields (setNumSubStrips (setNumStrips r (-1)) 2));
    try reflexivity.
  apply setNumSubStrips_ready, setNumStrips_ready. exact H.
Qed.

Lemma call_setter_ready m s :
  is_setter m = true -> ready (fst s) (snd s) ->
  ready (fst (call m s)) (snd (call m s)).
Proof.
  destruct s as [r gl].
  destruct m as [w h | n | n | mode | t | x y | sd | f | d];
    cbn [is_setter call fst snd]; intros Hm H; try discriminate Hm;
    try exact H.
  - apply setNumStrips_ready. exact H.
  - apply setNumSubStrips_ready. exact H.
Qed.

Lemma run_setters_ready ms s :
  forallb is_setter ms = true -> ready (fst s) (snd s) ->
  ready (fst (run ms s)) (snd (run ms s)).
Proof.
  revert s. induction ms as [|m ms IH]; intros s Hms H; [exact H|].
  cbn in Hms. apply andb_prop in Hms as [Hm Hms].
  cbn. apply IH; [exact Hms|]. apply call_setter_ready; assumption.
Qed.

Lemma wide_shift_ready : ready (fst wide_shift) (snd wide_shift).
Proof.
  unfold wide_shift. apply run_setters_ready; [reflexivity|].
  apply Renderer_new_ready; first [reflexivity | lia].
Qed.

(** C4's theorem at [x = 6], [width = 5] on the 8 pixel wide canvas. *)
Lemma copy_strip_clamped_witness :
  gl_calls (_copy_strip_to_stereo_texture (fst wide_shift) (snd wide_shift)
              6 (Some 5))
  = gl_calls (snd wide_shift)
    ++ [CopyTexSubImage2D (stereo_texture (fst wide_shift)) 6 0 6 0
          (Z.min 5 (render_width (fst wide_shift) - 6))
          (render_height (fst wide_shift))].
Proof.
  refine (proj2 (proj2 (proj2 (proj2 (proj2 (proj2
    (copy_strip_clamped (fst wide_shift) (snd wide_shift) 6 5
       wide_shift_ready _))))))).
  vm_compute. split; discriminate.
Defined.

(** C8's theorem on [wide_shift], at the last pixel. *)
Lemma render_single_strip_witness :
  stereo_texel (setNumStrips (fst wide_shift) 1)
    (render (setNumStrips (fst wide_shift) 1) (snd wide_shift) (Some 1%nat)) 7 0
  = Some (reference_color (setNumStrips (fst wide_shift) 1) (snd wide_shift) 7 0).
Proof.
  refine (proj2 (proj2 (proj2
    (render_single_strip (fst wide_shift) (snd wide_shift)
       (Some 1%nat) 1 wide_shift_ready _ eq_refl _))) 7 0 _ _).
  - vm_compute. discriminate.
  - lia.
  - vm_compute. split; [discriminate | reflexivity].
  - vm_compute. split; [discriminate | reflexivity].
Defined.

(** ** What the methods keep true *)

Lemma geometry_current__calc_strip_size r : geometry_current (_calc_strip_size r).
Proof.
  unfold geometry_current. rewrite !_calc_strip_size_strip_size.
  rewrite strip_size_pixels__calc_strip_size.
  destruct (_calc_strip_size_fields r) as (-> & _). reflexivity.
Qed.

Lemma geometry_current_fields r r' :
  render_width r' = render_width r -> num_strips r' = num_strips r ->
  num_sub_strips r' = num_sub_strips r -> strip_size r' = strip_size r ->
  geometry_current r -> geometry_current r'.
Proof.
  unfold geometry_current. intros Hw Hns Hnss Hs H.
  rewrite Hs, H, !_calc_strip_size_strip_size, Hw.
  rewrite (strip_size_pixels_fields r r') by assumption. reflexivity.
Qed.

Lemma copyTexSubImage2D_dims tex xo yo x y w h gl id t :
  gl_textures gl !! id = Some t ->
  exists t', gl_textures (copyTexSubImage2D tex xo yo x y w h gl) !! id = Some t'
             /\ tex_width t' = tex_width t /\ tex_height t' = tex_height t
             /\ tex_repeat t' = tex_repeat t.
Proof.
  intros Ht. destruct (decide (tex = Some id)) as [->|Hne].
  - unfold copyTexSubImage2D. rewrite Ht.
    match goal with |- context [if ?b then _ else _] => destruct b end.
    + cbn. rewrite lookup_insert_eq. eexists. repeat split.
    + cbn. exists t. repeat split. exact Ht.
  - rewrite copyTexSubImage2D_other by exact Hne. exists t. repeat split.
    exact Ht.
Qed.

Lemma _copy_strip_ready r gl x width :
  ready r gl -> ready r (_copy_strip_to_stereo_texture r gl x width).
Proof.
  intros (H1 & H2 & H3 & H4 & id & t & H5 & H6 & H7 & H8 & H9).
  unfold _copy_strip_to_stereo_texture.
  match goal with |- ready r (copyTexSubImage2D ?a ?b ?c ?d ?e ?f ?g gl) =>
    destruct (copyTexSubImage2D_frame a b c d e f g gl) as (Fw & Fh & _);
    destruct (copyTexSubImage2D_dims a b c d e f g gl id t H6)
      as (t' & Ht' & Tw & Th & Tr)
  end.
  unfold ready. rewrite Fw, Fh. repeat split; try assumption.
  exists id, t'. repeat split; congruence.
Qed.

Lemma drawArrays_ready r prog position uv fragment gl :
  ready r gl -> ready r (drawArrays prog position uv fragment gl).
Proof.
  destruct (drawArrays_frame prog position uv fragment gl) as (Ft & Fw & Fh & _).
  apply ready_frame; assumption.
Qed.

Lemma for_loop_ready r start stop (body : Z -> GL -> GL) gl :
  (forall i g, ready r g -> ready r (body i g)) ->
  ready r gl -> ready r (for_loop start stop body gl).
Proof.
  intros Hbody. unfold for_loop.
  generalize (seqZ start (stop - start)) as l. intros l. revert gl.
  induction l as [|i l IH]; intros gl H; cbn; [exact H|].
  apply IH, Hbody, H.
Qed.

Lemma render_ready r gl depth_map : ready r gl -> ready r (render r gl depth_map).
Proof.
  intros H. unfold render, render_stereo_strips.
  assert (ready r (_render_reference_strip r (clear gl) (strip_size r))) as Href.
  { unfold _render_reference_strip. apply _copy_strip_ready, drawArrays_ready.
    apply (ready_frame r gl); try reflexivity. exact H. }
  destruct (num_strips r) as [ns|]; [|exact Href].
  destruct (num_sub_strips r) as [nss|]; [|exact Href].
  apply for_loop_ready; [|exact Href].
  intros strip g Hg. apply for_loop_ready; [|exact Hg].
  intros sub g' Hg'. unfold _render_stereo_strip.
  apply _copy_strip_ready, drawArrays_ready. exact Hg'.
Qed.

Lemma call_keeps (m : method) (s : Renderer * GL) :
  is_resize m = false ->
  ready (fst s) (snd s) /\ geometry_current (fst s) ->
  ready (fst (call m s)) (snd (call m s)) /\ geometry_current (fst (call m s)).
Proof.
  destruct s as [r gl].
  destruct m as [w h | n | n | mode | t | x y | sd | f | d];
    cbn [is_resize call fst snd]; intros Hm [Hr Hg]; try discriminate Hm;
    try (split;
         [exact Hr
         | apply (geometry_current_fields r); [reflexivity .. | exact Hg]]).
  - split; [apply setNumStrips_ready; exact Hr|].
    apply geometry_current__calc_strip_size.
  - split; [apply setNumSubStrips_ready; exact Hr|].
    apply geometry_current__calc_strip_size.
  - split; [apply render_ready; exact Hr | exact Hg].
Qed.

Lemma Renderer_new_geometry_current gl width height :
  geometry_current (fst (Renderer_new gl width height)).
Proof.
  unfold Renderer_new. destruct (resize blank gl width height) as [r gl'].
  cbn [fst].
  apply (geometry_current_fields (setNumSubStrips (setNumStrips r (-1)) 2));
    try reflexivity.
  apply geometry_current__calc_strip_size.
Qed.

(** After the constructor on a canvas of the render size and any calls
    other than [resize], the texture has the render size and [strip_size]
    is up to date.  ([resize] alone breaks the second part, as shown
    above.) *)
Lemma run_keeps gl width height ms :
  0 <= width -> 0 <= height ->
  gl_width gl = width -> gl_height gl = height ->
  forallb (fun m => negb (is_resize m)) ms = true ->
  let s := run ms (Renderer_new gl width height) in
  ready (fst s) (snd s) /\ geometry_current (fst s).
Proof.
  intros Hw Hh Gw Gh Hms.
  assert (ready (fst (Renderer_new gl width height))
                (snd (Renderer_new gl width height))
          /\ geometry_current (fst (Renderer_new gl width height))) as H
    by (split; [apply Renderer_new_ready; assumption
               | apply Renderer_new_geometry_current]).
  revert H. generalize (Renderer_new gl width height) as s. revert Hms.
  induction ms as [|m ms IH]; intros Hms s H; [exact H|].
  cbn in Hms. apply andb_prop in Hms as [Hm Hms].
  cbn. apply IH; [exact Hms|]. apply call_keeps; [|exact H].
  destruct (is_resize m); [discriminate Hm | reflexivity].
Qed.

(** ** When a call does not see what the previous one left *)

(** The counterpart of the example of two calls that differ: conditions
    under which [render] overwrites every texel it reads, so that the
    texels it leaves do not depend on the ones it found. *)

Lemma wrap_coord_clamp n i : 1 <= n -> 0 <= wrap_coord false n i < n.
Proof. intros Hn. unfold wrap_coord. lia. Qed.

Lemma wrap_coord_clamp_below n i bound :
  1 <= n -> 1 <= bound -> i < bound -> wrap_coord false n i < Z.min bound n.
Proof. intros Hn Hb Hi. unfold wrap_coord. lia. Qed.

(** Two clamped textures of the same size give the same sample when they
    agree on the columns below [bound] and the sample's right-hand column
    is below it. *)
Lemma sample_agree t1 t2 uv bound :
  tex_width t1 = tex_width t2 -> tex_height t1 = tex_height t2 ->
  tex_repeat t1 = false -> tex_repeat t2 = false ->
  1 <= tex_width t1 -> 1 <= tex_height t1 -> 1 <= bound ->
  (forall i j, 0 <= i < Z.min bound (tex_width t1) -> 0 <= j < tex_height t1 ->
     texel t1 i j = texel t2 i j) ->
  Math_floor (fst uv * inject_Z (tex_width t1) - (1 # 2)) + 1 < bound ->
  sample t1 uv = sample t2 uv.
Proof.
  intros Hw Hh Hr1 Hr2 Hw1 Hh1 Hb Hagree Hread. unfold sample.
  rewrite <- Hw, <- Hh, Hr1, Hr2.
  set (i0 := Math_floor (fst uv * inject_Z (tex_width t1) - (1 # 2))) in *.
  set (j0 := Math_floor (snd uv * inject_Z (tex_height t1) - (1 # 2))).
  assert (forall i j, i < bound ->
            texel t1 (wrap_coord false (tex_width t1) i)
                     (wrap_coord false (tex_height t1) j)
            = texel t2 (wrap_coord false (tex_width t1) i)
                       (wrap_coord false (tex_height t1) j)) as H.
  { intros i j Hi. apply Hagree.
    - pose proof (wrap_coord_clamp (tex_width t1) i Hw1).
      pose proof (wrap_coord_clamp_below (tex_width t1) i bound Hw1 Hb Hi). lia.
    - apply wrap_coord_clamp. exact Hh1. }
  rewrite !(H i0) by lia. rewrite !(H (i0 + 1)) by lia. reflexivity.
Qed.

Lemma ready_stereo_texel r gl :
  ready r gl ->
  exists id t,
    stereo_texture r = Some id /\ gl_textures gl !! id = Some t
    /\ tex_width t = render_width r /\ tex_height t = render_height r
    /\ tex_repeat t = false
    /\ forall i j, stereo_texel r gl i j = Some (texel t i j).
Proof.
  intros (_ & _ & _ & _ & id & t & Hid & Ht & Hw & Hh & Hr).
  exists id, t. repeat split; try assumption.
  intros i j. unfold stereo_texel. rewrite Hid, Ht. reflexivity.
Qed.

Lemma texture2D_stereo_agree r g1 g2 uv bound :
  ready r g1 -> ready r g2 ->
  1 <= render_width r -> 1 <= render_height r -> 1 <= bound ->
  agree_below r bound g1 g2 ->
  Math_floor (fst uv * inject_Z (render_width r) - (1 # 2)) + 1 < bound ->
  texture2D g1 (stereo_texture r) uv = texture2D g2 (stereo_texture r) uv.
Proof.
  intros H1 H2 Hw Hh Hb Hagree Hread.
  destruct (ready_stereo_texel r g1 H1) as (id & t1 & Hid & Ht1 & W1 & E1 & R1 & S1).
  destruct (ready_stereo_texel r g2 H2) as (id' & t2 & Hid' & Ht2 & W2 & E2 & R2 & S2).
  assert (id' = id) as -> by congruence.
  unfold texture2D. rewrite Hid, Ht1, Ht2.
  apply (sample_agree t1 t2 uv bound); try congruence; try lia.
  intros i j Hi Hj. rewrite W1 in Hi. rewrite E1 in Hj.
  specialize (Hagree i j Hi Hj). rewrite S1, S2 in Hagree. congruence.
Qed.

Lemma texture2D_other r g1 g2 tex uv :
  same_but_stereo r g1 g2 -> tex <> stereo_texture r ->
  texture2D g1 tex uv = texture2D g2 tex uv.
Proof.
  intros (_ & _ & _ & Hother) Hne. unfold texture2D.
  destruct tex as [id|]; [|reflexivity].
  rewrite (Hother id) by congruence. reflexivity.
Qed.

Lemma stereo_read_uv_other r g1 g2 u uv :
  same_but_stereo r g1 g2 -> u_depth_texture u <> stereo_texture r ->
  stereo_read_uv g1 u uv = stereo_read_uv g2 u uv.
Proof.
  intros H Hne. unfold stereo_read_uv.
  rewrite (texture2D_other r g1 g2) by assumption. reflexivity.
Qed.

(** Drawing with fragment shaders that agree on the covered pixels keeps
    two framebuffers equal. *)
Lemma drawArrays_agree prog position uv f1 f2 g1 g2 :
  gl_width g1 = gl_width g2 -> gl_height g1 = gl_height g2 ->
  same_pixels g1 g2 ->
  (forall i j,
     covers (fst (fst (nth 0 position (0, 0, 0)%Q)))
            (fst (fst (nth 2 position (0, 0, 0)%Q))) i (gl_width g1) = true ->
     covers (snd (fst (nth 0 position (0, 0, 0)%Q)))
            (snd (fst (nth 2 position (0, 0, 0)%Q))) j (gl_height g1) = true ->
     let p :=
       (interpolate (pixel_center i (gl_width g1))
          (fst (fst (nth 0 position (0, 0, 0)%Q)))
          (fst (fst (nth 2 position (0, 0, 0)%Q)))
          (fst (nth 0 uv (0, 0)%Q)) (fst (nth 2 uv (0, 0)%Q)),
        interpolate (pixel_center j (gl_height g1))
          (snd (fst (nth 0 position (0, 0, 0)%Q)))
          (snd (fst (nth 2 position (0, 0, 0)%Q)))
          (snd (nth 0 uv (0, 0)%Q)) (snd (nth 2 uv (0, 0)%Q))) in
     f1 p = f2 p) ->
  same_pixels (drawArrays prog position uv f1 g1)
              (drawArrays prog position uv f2 g2).
Proof.
  intros Hw Hh Hfb Hf i j. unfold drawArrays.
  specialize (Hf i j).
  destruct (nth 0 position (0, 0, 0)%Q) as [[x0 y0] z0].
  destruct (nth 2 position (0, 0, 0)%Q) as [[x1 y1] z1].
  destruct (nth 0 uv (0, 0)%Q) as [u0 v0].
  destruct (nth 2 uv (0, 0)%Q) as [u1 v1].
  cbn in *. rewrite <- Hw, <- Hh.
  destruct (covers x0 x1 i (gl_width g1)); [|apply Hfb].
  destruct (covers y0 y1 j (gl_height g1)); [|apply Hfb].
  cbn. rewrite Hf by reflexivity. reflexivity.
Qed.

(** *** Pixel-aligned geometry *)

Lemma aligned_sub_width r ns nss w :
  pixel_aligned r ns nss w ->
  (strip_size r / inject_Z nss * inject_Z (render_width r) == inject_Z w)%Q.
Proof.
  intros (Hw & Hnss & _ & _ & E & _).
  assert (~ inject_Z nss == 0) as Hz by (apply inject_Z_nonzero; lia).
  transitivity (strip_size r * inject_Z (render_width r) / inject_Z nss)%Q.
  - field. exact Hz.
  - rewrite E, inject_Z_mult. field. exact Hz.
Qed.

Lemma aligned_floor_strip r ns nss w :
  pixel_aligned r ns nss w ->
  Math_floor (strip_size r * inject_Z (render_width r)) = nss * w.
Proof.
  intros (_ & _ & _ & _ & E & _). unfold Math_floor.
  rewrite (Qfloor_comp _ _ E). apply Qfloor_Z.
Qed.

Lemma aligned_floor_sub r ns nss w :
  pixel_aligned r ns nss w ->
  Math_floor (strip_size r / inject_Z nss * inject_Z (render_width r)) = w.
Proof.
  intros H. unfold Math_floor.
  rewrite (Qfloor_comp _ _ (aligned_sub_width r ns nss w H)). apply Qfloor_Z.
Qed.

Lemma aligned_floor_start r ns nss w num :
  pixel_aligned r ns nss w ->
  Math_floor (inject_Z num * (strip_size r / inject_Z nss)
              * inject_Z (render_width r)) = num * w.
Proof.
  intros H. unfold Math_floor.
  rewrite <- (Qfloor_Z (num * w)). apply Qfloor_comp.
  rewrite inject_Z_mult, <- (aligned_sub_width r ns nss w H). ring.
Qed.

(** *** What a call leaves alone *)

Lemma same_but_stereo_refl r g : same_but_stereo r g g.
Proof. repeat split. Qed.

Lemma same_but_stereo_trans r g1 g2 g3 :
  same_but_stereo r g1 g2 -> same_but_stereo r g2 g3 -> same_but_stereo r g1 g3.
Proof.
  intros (W1 & H1 & S1 & T1) (W2 & H2 & S2 & T2).
  split; [congruence|]. split; [congruence|]. split.
  - intros x. rewrite S1. apply S2.
  - intros id Hid. rewrite T1 by exact Hid. apply T2. exact Hid.
Qed.

Lemma same_but_stereo_sym r g1 g2 :
  same_but_stereo r g1 g2 -> same_but_stereo r g2 g1.
Proof.
  intros (W1 & H1 & S1 & T1).
  split; [congruence|]. split; [congruence|]. split.
  - intros x. symmetry. apply S1.
  - intros id Hid. symmetry. apply T1. exact Hid.
Qed.

Lemma clear_same_but_stereo r g : same_but_stereo r g (clear g).
Proof. repeat split. Qed.

Lemma drawArrays_same_but_stereo r prog position uv fragment g :
  same_but_stereo r g (drawArrays prog position uv fragment g).
Proof.
  destruct (drawArrays_frame prog position uv fragment g)
    as (Ft & Fw & Fh & Fs & _).
  split; [congruence|]. split; [congruence|]. split.
  - intros x. rewrite Fs. reflexivity.
  - intros id _. rewrite Ft. reflexivity.
Qed.

Lemma _copy_strip_same_but_stereo r g x width :
  same_but_stereo r g (_copy_strip_to_stereo_texture r g x width).
Proof.
  unfold _copy_strip_to_stereo_texture.
  match goal with |- same_but_stereo r g (copyTexSubImage2D ?a ?b ?c ?d ?e ?f ?h g) =>
    destruct (copyTexSubImage2D_frame a b c d e f h g) as (Fw & Fh & _ & Fs & _)
  end.
  split; [congruence|]. split; [congruence|]. split.
  - intros y. rewrite Fs. reflexivity.
  - intros id Hid. symmetry. apply copyTexSubImage2D_other. exact Hid.
Qed.

Lemma _render_stereo_strip_same_but_stereo r u g num sub :
  same_but_stereo r g (_render_stereo_strip r u g num sub).
Proof.
  unfold _render_stereo_strip.
  eapply same_but_stereo_trans;
    [apply drawArrays_same_but_stereo | apply _copy_strip_same_but_stereo].
Qed.

Lemma _render_reference_strip_same_but_stereo r g s :
  same_but_stereo r g (_render_reference_strip r g s).
Proof.
  unfold _render_reference_strip.
  eapply same_but_stereo_trans;
    [apply drawArrays_same_but_stereo | apply _copy_strip_same_but_stereo].
Qed.

Lemma for_loop_same_but_stereo r start stop (body : Z -> GL -> GL) g :
  (forall i g', same_but_stereo r g' (body i g')) ->
  same_but_stereo r g (for_loop start stop body g).
Proof.
  intros Hbody. unfold for_loop.
  generalize (seqZ start (stop - start)) as l. intros l. revert g.
  induction l as [|i l IH]; intros g; cbn; [apply same_but_stereo_refl|].
  eapply same_but_stereo_trans; [apply Hbody | apply IH].
Qed.

Lemma render_same_but_stereo r g depth_map :
  same_but_stereo r g (render r g depth_map).
Proof.
  unfold render, render_stereo_strips.
  eapply same_but_stereo_trans; [apply clear_same_but_stereo|].
  eapply same_but_stereo_trans; [apply _render_reference_strip_same_but_stereo|].
  destruct (num_strips r) as [ns|]; [|apply same_but_stereo_refl].
  destruct (num_sub_strips r) as [nss|]; [|apply same_but_stereo_refl].
  apply for_loop_same_but_stereo. intros strip g'.
  apply for_loop_same_but_stereo. intros sub g''.
  apply _render_stereo_strip_same_but_stereo.
Qed.

(** *** One step on two contexts *)


Lemma _copy_strip_in_step r g1 g2 x width bound :
  in_step r bound g1 g2 -> 0 <= x <= bound ->
  in_step r (x + width)
    (_copy_strip_to_stereo_texture r g1 x (Some width))
    (_copy_strip_to_stereo_texture r g2 x (Some width)).
Proof.
  intros (R1 & R2 & Hs & Hp & Ha) Hx.
  split; [apply _copy_strip_ready; exact R1|].
  split; [apply _copy_strip_ready; exact R2|].
  split.
  { eapply same_but_stereo_trans;
      [apply same_but_stereo_sym, _copy_strip_same_but_stereo|].
    eapply same_but_stereo_trans; [exact Hs|].
    apply _copy_strip_same_but_stereo. }
  split.
  { intros i j. unfold _copy_strip_to_stereo_texture.
    match goal with
    | |- gl_framebuffer (copyTexSubImage2D ?a ?b ?c ?d ?e ?f ?h g1) i j = _ =>
        destruct (copyTexSubImage2D_frame a b c d e f h g1) as (_ & _ & -> & _);
        destruct (copyTexSubImage2D_frame a b c d e f h g2) as (_ & _ & -> & _)
    end.
    apply Hp. }
  intros i j Hi Hj.
  rewrite !_copy_strip_texels by (assumption || lia).
  destruct (Z.leb_spec x i), (Z.ltb_spec i (x + Z.min width (render_width r - x))),
    (Z.leb_spec 0 j), (Z.ltb_spec j (render_height r)); cbn; try lia.
  - rewrite Hp. reflexivity.
  - apply Ha; lia.
Qed.

Lemma drawArrays_in_step r prog position uv f1 f2 g1 g2 bound :
  in_step r bound g1 g2 ->
  same_pixels (drawArrays prog position uv f1 g1)
              (drawArrays prog position uv f2 g2) ->
  in_step r bound (drawArrays prog position uv f1 g1)
                  (drawArrays prog position uv f2 g2).
Proof.
  intros (R1 & R2 & Hs & Hp & Ha) Hdraw.
  destruct (drawArrays_frame prog position uv f1 g1) as (T1 & _).
  destruct (drawArrays_frame prog position uv f2 g2) as (T2 & _).
  split; [apply drawArrays_ready; exact R1|].
  split; [apply drawArrays_ready; exact R2|].
  split.
  { eapply same_but_stereo_trans;
      [apply same_but_stereo_sym, drawArrays_same_but_stereo|].
    eapply same_but_stereo_trans; [exact Hs|].
    apply drawArrays_same_but_stereo. }
  split; [exact Hdraw|].
  intros i j Hi Hj. unfold stereo_texel. rewrite T1, T2. apply (Ha i j Hi Hj).
Qed.

Lemma agree_below_le r b b' g1 g2 :
  b' <= b -> agree_below r b g1 g2 -> agree_below r b' g1 g2.
Proof. intros Hb Ha i j Hi Hj. apply Ha; lia. Qed.

(** The reference strip: whatever the stereogram textures held, they
    agree afterwards on the columns copied. *)
Lemma _render_reference_strip_in_step r g1 g2 nss :
  num_sub_strips r = Some nss ->
  ready r g1 -> ready r g2 -> same_but_stereo r g1 g2 ->
  tile_texture r <> stereo_texture r ->
  in_step r (Math_floor (strip_size r * inject_Z (render_width r)) + nss)
    (_render_reference_strip r (clear g1) (strip_size r))
    (_render_reference_strip r (clear g2) (strip_size r)).
Proof.
  intros Hnss R1 R2 Hs Htile.
  assert (in_step r 0 (clear g1) (clear g2)) as H0.
  { split; [apply (ready_frame r g1); try reflexivity; exact R1|].
    split; [apply (ready_frame r g2); try reflexivity; exact R2|].
    split.
    { eapply same_but_stereo_trans;
        [apply same_but_stereo_sym, clear_same_but_stereo|].
      eapply same_but_stereo_trans; [exact Hs | apply clear_same_but_stereo]. }
    split; [intros i j; reflexivity|].
    intros i j Hi Hj. lia. }
  unfold _render_reference_strip. rewrite Hnss. cbn [plus_field].
  match goal with
  | |- in_step r (?fl + nss) _ _ => replace (fl + nss) with (0 + (fl + nss)) by lia
  end.
  apply (_copy_strip_in_step r _ _ 0 _ 0); [|lia].
  apply drawArrays_in_step; [exact H0|].
  destruct H0 as (_ & _ & (Hw & Hh & Hsin & Hother) & Hp & _).
  apply drawArrays_agree; try assumption.
  intros i j _ _ p.
  destruct (background_mode r =? BG_NOISE).
  - unfold noise_fragment, rand. rewrite Hsin. reflexivity.
  - unfold texture_fragment.
    apply (texture2D_other r); [|exact Htile].
    repeat split; assumption.
Qed.

(** A stereo sub-strip whose samples all fall below [bound]. *)
Lemma _render_stereo_strip_in_step r u g1 g2 num sub width x bound :
  in_step r bound g1 g2 ->
  1 <= render_width r -> 1 <= render_height r -> 1 <= bound ->
  u_stereo_texture u = stereo_texture r ->
  u_depth_texture u <> stereo_texture r ->
  num_sub_strips r = Some (width - Math_floor (sub * inject_Z (render_width r))) ->
  x = Math_floor (inject_Z num * sub * inject_Z (render_width r)) ->
  0 <= x <= bound ->
  (forall i j,
     covers ((0 + inject_Z num) * sub) ((1 + inject_Z num) * sub) i (gl_width g1)
       = true ->
     covers 0 1 j (gl_height g1) = true ->
     Math_floor
       (fst (stereo_read_uv g1 u (stereo_frag_uv g1 num sub i j))
        * inject_Z (render_width r) - (1 # 2)) + 1 < bound) ->
  in_step r (x + width)
    (_render_stereo_strip r u g1 num sub) (_render_stereo_strip r u g2 num sub).
Proof.
  intros Hstep Hw Hh Hb Hus Hud Hnss -> Hx Hread.
  unfold _render_stereo_strip. rewrite Hnss. cbn [plus_field].
  replace (Math_floor (sub * inject_Z (render_width r))
           + (width - Math_floor (sub * inject_Z (render_width r))))
    with width by lia.
  apply (_copy_strip_in_step r _ _ _ _ bound); [|exact Hx].
  apply drawArrays_in_step; [exact Hstep|].
  destruct Hstep as (R1 & R2 & Hs & Hp & Ha).
  pose proof Hs as (Gw & Gh & _).
  apply drawArrays_agree; try assumption.
  intros i j Hi Hj p. subst p.
  cbn [map quad_vtx quad_uv nth fst snd] in Hi, Hj |- *.
  change (stereo_fragment g1 u (stereo_frag_uv g1 num sub i j)
          = stereo_fragment g2 u (stereo_frag_uv g1 num sub i j)).
  unfold stereo_fragment.
  change (texture2D g1 (u_stereo_texture u)
            (stereo_read_uv g1 u (stereo_frag_uv g1 num sub i j))
          = texture2D g2 (u_stereo_texture u)
              (stereo_read_uv g2 u (stereo_frag_uv g1 num sub i j))).
  rewrite <- (stereo_read_uv_other r g1 g2) by assumption.
  rewrite Hus.
  apply (texture2D_stereo_agree r g1 g2 _ bound); try assumption.
  apply Hread; assumption.
Qed.

(** *** The loops, sub-strip by sub-strip *)

Lemma fold_seqZ_pair (P : Z -> GL -> GL -> Prop) (body : Z -> GL -> GL)
    m n g1 g2 :
  0 <= n -> P m g1 g2 ->
  (forall k a b, m <= k < m + n -> P k a b -> P (k + 1) (body k a) (body k b)) ->
  P (m + n) (fold_left (fun g k => body k g) (seqZ m n) g1)
            (fold_left (fun g k => body k g) (seqZ m n) g2).
Proof.
  intros Hn H0 Hstep.
  replace n with (Z.of_nat (Z.to_nat n)) in * by lia.
  generalize dependent (Z.to_nat n). clear n. intros k.
  induction k as [|k IH]; intros _ Hstep.
  - cbn. rewrite Z.add_0_r. exact H0.
  - rewrite seqZ_S, !fold_left_app. cbn [fold_left].
    replace (m + Z.of_nat (S k)) with (m + Z.of_nat k + 1) by lia.
    apply Hstep; [lia|]. apply IH; [lia|].
    intros k' a b Hk'. apply Hstep. lia.
Qed.

(** What [render] leaves in the stereogram texture does not depend on
    what the texture held before, provided the sub-strips are
    pixel-aligned, neither input is the stereogram texture itself, and
    every sample of the stereo shader falls on columns committed earlier
    in the call. *)
Lemma render_forgets_prior_texels r g1 g2 depth_map ns nss w :
  num_strips r = Some ns -> num_sub_strips r = Some nss ->
  pixel_aligned r ns nss w -> 1 <= render_height r ->
  ready r g1 -> ready r g2 -> same_but_stereo r g1 g2 ->
  depth_map <> stereo_texture r -> tile_texture r <> stereo_texture r ->
  reads_committed r g1 depth_map ns nss ->
  forall i j, 0 <= i < render_width r -> 0 <= j < render_height r ->
    stereo_texel r (render r g1 depth_map) i j
    = stereo_texel r (render r g2 depth_map) i j.
Proof.
  intros Hns Hnss Hal Hh R1 R2 Hs Hd Ht Hread.
  pose proof Hal as (Hw & Hnss1 & Hns1 & Hrw & _ & Hcover).
  set (u := stereo_uniforms r depth_map).
  set (sub := (strip_size r / inject_Z nss)%Q).
  set (a1 := _render_reference_strip r (clear g1) (strip_size r)).
  set (a2 := _render_reference_strip r (clear g2) (strip_size r)).
  assert (render r g1 depth_map
          = fold_left (fun g num => _render_stereo_strip r u g num sub)
              (seqZ nss ((ns - 1) * nss)) a1) as E1.
  { unfold render, render_stereo_strips. rewrite Hns, Hnss.
    rewrite (nested_for_loops_flat
               (fun num g => _render_stereo_strip r u g num sub)).
    rewrite strip_indices_consecutive by lia. reflexivity. }
  assert (render r g2 depth_map
          = fold_left (fun g num => _render_stereo_strip r u g num sub)
              (seqZ nss ((ns - 1) * nss)) a2) as E2.
  { unfold render, render_stereo_strips. rewrite Hns, Hnss.
    rewrite (nested_for_loops_flat
               (fun num g => _render_stereo_strip r u g num sub)).
    rewrite strip_indices_consecutive by lia. reflexivity. }
  assert (in_step r ((nss + (ns - 1) * nss) * w + nss)
            (render r g1 depth_map) (render r g2 depth_map)
          /\ same_but_stereo r g1 (render r g1 depth_map)) as [Hfinal _].
  { rewrite E1, E2.
    apply (fold_seqZ_pair
             (fun k a b => in_step r (k * w + nss) a b /\ same_but_stereo r g1 a)
             (fun num g => _render_stereo_strip r u g num sub)).
    - nia.
    - split.
      + rewrite <- (aligned_floor_strip r ns nss w Hal).
        apply _render_reference_strip_in_step; assumption.
      + eapply same_but_stereo_trans; [apply clear_same_but_stereo|].
        apply _render_reference_strip_same_but_stereo.
    - intros k a b Hk [Hstep Hfrom]. split.
      2: { eapply same_but_stereo_trans; [exact Hfrom|].
           apply _render_stereo_strip_same_but_stereo. }
      replace ((k + 1) * w + nss) with (k * w + (w + nss)) by lia.
      pose proof Hfrom as (Gw & Gh & _).
      assert (u_depth_texture u <> stereo_texture r) as Hud.
      { intros E. apply Hd. rewrite <- E. reflexivity. }
      assert (num_sub_strips r
              = Some (w + nss - Math_floor (sub * inject_Z (render_width r))))
        as Hsub.
      { subst sub. rewrite (aligned_floor_sub r ns nss w Hal).
        rewrite Hnss. f_equal. lia. }
      assert (k * w
              = Math_floor (inject_Z k * sub * inject_Z (render_width r)))
        as Hx.
      { subst sub. symmetry. apply (aligned_floor_start r ns nss w k Hal). }
      apply (_render_stereo_strip_in_step r u a b k sub (w + nss) (k * w)
               (k * w + nss) Hstep Hrw Hh ltac:(nia) eq_refl Hud Hsub Hx
               ltac:(nia)).
      intros i j Hi Hj.
      rewrite <- (stereo_read_uv_other r g1 a) by
        (try exact Hfrom; try exact Hud).
      unfold stereo_frag_uv. rewrite <- Gw, <- Gh.
      rewrite <- Gw in Hi. rewrite <- Gh in Hj.
      pose proof (Hread k i j ltac:(nia) Hi Hj) as H.
      cbv zeta in H. fold u sub in H.
      rewrite <- Hx in H. exact H. }
  destruct Hfinal as (_ & _ & _ & _ & Ha).
  intros i j Hi Hj. apply Ha; [|exact Hj].
  split; [lia|]. apply Z.min_glb_lt; [|lia]. nia.
Qed.

(** In particular two calls in a row leave the same texels then. *)
Lemma render_twice_same r gl depth_map ns nss w :
  num_strips r = Some ns -> num_sub_strips r = Some nss ->
  pixel_aligned r ns nss w -> 1 <= render_height r ->
  ready r gl ->
  depth_map <> stereo_texture r -> tile_texture r <> stereo_texture r ->
  reads_committed r gl depth_map ns nss ->
  forall i j, 0 <= i < render_width r -> 0 <= j < render_height r ->
    stereo_texel r (render r (render r gl depth_map) depth_map) i j
    = stereo_texel r (render r gl depth_map) i j.
Proof.
  intros Hns Hnss Hal Hh R Hd Ht Hread i j Hi Hj. symmetry.
  apply (render_forgets_prior_texels r gl (render r gl depth_map) depth_map
           ns nss w); try assumption.
  - apply render_ready. exact R.
  - apply render_same_but_stereo.
Qed.

(** *** When the reads are committed *)

Lemma mix_le_1 a b t :
  (a <= 1 -> b <= 1 -> 0 <= t -> t <= 1 -> mix a b t <= 1)%Q.
Proof.
  intros Ha Hb Ht0 Ht1. unfold mix. rewrite Qred_correct.
  assert (a * (1 - t) <= 1 * (1 - t))%Q as H1
    by (apply Qmult_le_compat_r; lra).
  assert (b * t <= 1 * t)%Q as H2 by (apply Qmult_le_compat_r; lra).
  lra.
Qed.

Lemma fract_bounds x : (0 <= x - inject_Z (Math_floor x) < 1)%Q.
Proof.
  unfold Math_floor. pose proof (Qfloor_le x) as H1.
  pose proof (Qlt_floor x) as H2. rewrite inject_Z_plus in H2.
  change (inject_Z 1) with 1%Q in H2. split; lra.
Qed.

Lemma of_byte_le_1 b : b <= 255 -> (of_byte b <= 1)%Q.
Proof.
  intros H. unfold of_byte. apply Qle_shift_div_r; [reflexivity|].
  rewrite Zle_Qle in H. change (inject_Z 255) with 255%Q in H. lra.
Qed.

(** A texture of bytes samples to at most 1. *)
Lemma sample_red_le_1 t uv :
  (forall i j, red (texel t i j) <= 255) -> (vr (sample t uv) <= 1)%Q.
Proof.
  intros H. unfold sample. cbn [vr].
  pose proof (fract_bounds (fst uv * inject_Z (tex_width t) - (1 # 2))) as [? ?].
  pose proof (fract_bounds (snd uv * inject_Z (tex_height t) - (1 # 2))) as [? ?].
  repeat apply mix_le_1; try apply of_byte_le_1; try apply H;
    try assumption; apply Qlt_le_weak; assumption.
Qed.

Lemma texture2D_red_le_1 gl tex uv :
  (forall id t, tex = Some id -> gl_textures gl !! id = Some t ->
     forall i j, red (texel t i j) <= 255) ->
  (vr (texture2D gl tex uv) <= 1)%Q.
Proof.
  intros H. unfold texture2D. destruct tex as [id|]; [|cbn; lra].
  destruct (gl_textures gl !! id) as [t|] eqn:E; [|cbn; lra].
  apply sample_red_le_1. exact (H id t eq_refl E).
Qed.

Lemma covers_inv lo hi i n :
  covers lo hi i n = true ->
  0 <= i < n /\ (lo <= pixel_center i n)%Q /\ (pixel_center i n < hi)%Q.
Proof.
  unfold covers, Qltb. intros H.
  apply andb_prop in H as [H Hhi]. apply andb_prop in H as [H Hlo].
  apply andb_prop in H as [H0 Hn].
  apply Z.leb_le in H0. apply Z.ltb_lt in Hn. apply Qle_bool_iff in Hlo.
  split; [lia|]. split; [exact Hlo|].
  apply Qnot_le_lt. intros Hle. apply Qle_bool_iff in Hle.
  rewrite Hle in Hhi. discriminate.
Qed.

(** A depth factor below (num_sub_strips - 1) sub-strips and
    num_sub_strips pixels keeps every read of a byte-valued depth map on
    committed columns. *)
Lemma reads_committed_small_shift r gl depth_map ns nss w :
  pixel_aligned r ns nss w -> gl_width gl = render_width r ->
  (0 <= depth_factor r)%Q ->
  (depth_factor r * inject_Z (render_width r)
   < inject_Z ((nss - 1) * w + nss))%Q ->
  (forall uv, vr (texture2D gl depth_map uv) <= 1)%Q ->
  reads_committed r gl depth_map ns nss.
Proof.
  intros Hal Gw Hdf Hshift Hdepth num i j Hnum Hi _.
  rewrite (aligned_floor_start r ns nss w num Hal).
  pose proof Hal as (Hw & Hnss & Hns & Hrw & ES & _).
  pose proof (aligned_sub_width r ns nss w Hal) as Esub.
  set (sub := (strip_size r / inject_Z nss)%Q) in *.
  apply covers_inv in Hi as (Hirange & _ & Hhi). rewrite Gw in *.
  assert (0 < inject_Z (render_width r))%Q as HrwQ
    by (apply inject_Z_pos; lia).
  assert (0 < inject_Z w)%Q as HwQ by (apply inject_Z_pos; lia).
  assert (~ sub == 0)%Q as Hsub0.
  { intros E. rewrite E in Esub. lra. }
  unfold stereo_read_uv, stereo_frag_uv. cbn [fst snd stereo_uniforms
    u_strip_size u_depth_strip_size u_depth_factor u_depth_texture].
  rewrite Gw.
  set (d := vr (texture2D gl depth_map _)).
  assert (d <= 1)%Q as Hd by apply Hdepth.
  set (P := pixel_center i (render_width r)) in *.
  assert (interpolate P ((0 + inject_Z num) * sub) ((1 + inject_Z num) * sub)
            ((0 + inject_Z num) * sub) ((1 + inject_Z num) * sub) == P)%Q as EP.
  { apply interpolate_identity. intros E. apply Hsub0.
    rewrite <- E. ring. }
  assert (P * inject_Z (render_width r) == inject_Z i + (1 # 2))%Q as EPi.
  { subst P. unfold pixel_center. field. lra. }
  assert (i + 1 <= (num + 1) * w) as Hile.
  { assert (inject_Z i + (1 # 2) < inject_Z ((num + 1) * w))%Q as H.
    { rewrite <- EPi, inject_Z_mult, inject_Z_plus, <- Esub.
      change (inject_Z 1) with 1%Q.
      assert (P * inject_Z (render_width r)
              < (1 + inject_Z num) * sub * inject_Z (render_width r))%Q as H
        by (apply Qmult_lt_compat_r; assumption).
      lra. }
    assert (inject_Z i < inject_Z ((num + 1) * w))%Q as H' by lra.
    rewrite <- Zlt_Qlt in H'. lia. }
  assert (d * depth_factor r * inject_Z (render_width r)
          <= depth_factor r * inject_Z (render_width r))%Q as Hdelta.
  { assert (d * (depth_factor r * inject_Z (render_width r))
            <= 1 * (depth_factor r * inject_Z (render_width r)))%Q as H.
    { apply Qmult_le_compat_r; [exact Hd|].
      apply Qmult_le_0_compat; lra. }
    lra. }
  unfold Math_floor.
  match goal with |- Qfloor ?q + 1 < _ => set (q0 := q) end.
  assert (q0 < inject_Z (num * w + nss - 1))%Q as Hq.
  { subst q0. rewrite Zle_Qle in Hile.
    unfold Z.sub in *.
    repeat rewrite ?inject_Z_plus, ?inject_Z_mult, ?inject_Z_opp in Hile.
    repeat rewrite ?inject_Z_plus, ?inject_Z_mult, ?inject_Z_opp in Hshift.
    repeat rewrite ?inject_Z_plus, ?inject_Z_mult, ?inject_Z_opp in ES.
    repeat rewrite ?inject_Z_plus, ?inject_Z_mult, ?inject_Z_opp.
    change (inject_Z 1) with 1%Q in *.
    rewrite EP.
    lra. }
  pose proof (Qfloor_le q0) as Hfl.
  assert (inject_Z (Qfloor q0) < inject_Z (num * w + nss - 1))%Q as H by lra.
  rewrite <- Zlt_Qlt in H. lia.
Qed.

(** The default configuration at 640 by 480 (6 strips of 2 sub-strips of
    54 pixels, depth factor 1/75) is such a case: whatever byte-valued
    depth map is given, a second call leaves the texels of the first. *)
Lemma render_default_640_repeatable (gl : GL) (depth_map : option texid) :
  ready (fst default_640) gl ->
  depth_map <> stereo_texture (fst default_640) ->
  (forall id t, depth_map = Some id -> gl_textures gl !! id = Some t ->
     forall i j, red (texel t i j) <= 255) ->
  forall i j, 0 <= i < 640 -> 0 <= j < 480 ->
    stereo_texel (fst default_640)
      (render (fst default_640) (render (fst default_640) gl depth_map) depth_map)
      i j
    = stereo_texel (fst default_640) (render (fst default_640) gl depth_map) i j.
Proof.
  intros R Hd Hbytes.
  assert (pixel_aligned (fst default_640) 6 2 54) as Hal.
  { unfold pixel_aligned. repeat split; vm_compute; congruence. }
  apply (render_twice_same (fst default_640) gl depth_map 6 2 54);
    try assumption; try reflexivity.
  - vm_compute. congruence.
  - vm_compute. congruence.
  - apply (reads_committed_small_shift _ _ _ 6 2 54 Hal).
    + destruct R as (_ & _ & Gw & _). exact Gw.
    + vm_compute. congruence.
    + vm_compute. reflexivity.
    + intros uv. apply texture2D_red_le_1. exact Hbytes.
Qed.

Lemma render_default_640_repeatable_instance :
  stereo_texel (fst default_640)
    (render (fst default_640) (render (fst default_640) (snd default_640) None) None)
    0 0
  = stereo_texel (fst default_640) (render (fst default_640) (snd default_640) None) 0 0.
Proof.
  apply (render_default_640_repeatable (snd default_640) None).
  - apply Renderer_new_ready; first [reflexivity | lia].
  - vm_compute. congruence.
  - intros id t E. discriminate E.
  - lia.
  - lia.
Qed.
